(** * pet_s0sgauto: chat-log extractor and dataset merger

    A shallow embedding of [src/pet_s0sgauto.py] and the properties of
    its two components: [parse_chat] (the line-by-line extractor) and
    [merge_into_pets] (the merger for both dataset shapes), and of the
    value [main] computes from them. Parsing the command line, reading
    the files and writing the JSON text are not part of it.

    Modelling choices, all taken from the source:
    - a Python [str] is a sequence of Unicode code points: [list N];
    - a Python [dict] keeps insertion order, and [patch.items()] is
      iterated in that order: an association list, whose keys [dset]
      keeps unique;
    - JSON values are a tagged union [json]; a float is kept as the
      decimal text it was read from, since no operation of the program
      looks at its value;
    - the regular expressions are data ([re]), run by a backtracking
      matcher with the greedy, leftmost-first order of Python's [re];
    - which code points are decimal digits ([\d], [int()]) is the
      interpreter's Unicode table: a section variable [decimal];
    - [current = pets[name]] is a reference into [pets]; no entry of
      [pets] is ever replaced or removed, so the reference is modelled
      by the key it was taken at, and a mutation through it by [modify];
    - likewise, in the merger a reference to an object of a sequence is
      its index. The merger stores sub-mappings of the patch in the
      dataset by reference; it mutates only mappings the dataset held on
      entry, each pair of a name and a field once, so these references
      are never observed and the values are copied here;
    - the exceptions the code can raise are an error type [exn];
    - integers are unbounded, but [int()] refuses a text of more than
      4300 digits with a [ValueError]: the interpreter's default limit
      ([sys.int_info.default_max_str_digits]), which the program does
      not change. *)

From Stdlib Require Import String Ascii.
From stdpp Require Import base option list gmap sorting.

Local Open Scope N_scope.
Local Set Warnings "-register-all,-clear-no-such-hyp".

(** ** Strings of code points *)

Definition char := N.
Definition str := list N.

(** Decoder for the UTF-8 bytes of a literal of this file, so that the
    Korean keywords of the source can be written as they are there. *)
Fixpoint utf8 (bs : list N) : str :=
  match bs with
  | [] => []
  | b :: r0 =>
      if b <? 128 then b :: utf8 r0
      else match r0 with
      | [] => [b]
      | b1 :: r1 =>
          if b <? 224 then ((b - 192) * 64 + (b1 - 128)) :: utf8 r1
          else match r1 with
          | [] => [b]
          | b2 :: r2 =>
              if b <? 240
              then ((b - 224) * 4096 + (b1 - 128) * 64 + (b2 - 128)) :: utf8 r2
              else match r2 with
              | [] => [b]
              | b3 :: r3 =>
                  ((b - 240) * 262144 + (b1 - 128) * 4096
                   + (b2 - 128) * 64 + (b3 - 128)) :: utf8 r3
              end
          end
      end
  end.

Definition u (s : string) : str :=
  utf8 (map N_of_ascii (list_ascii_of_string s)).

Definition str_eqb (a b : str) : bool := bool_decide (a = b).

(** [str.isspace] for one code point, which is also what [\s] matches in
    a [str] pattern and what [strip] and [split] remove. *)
Definition is_space (c : char) : bool :=
  ((9 <=? c) && (c <=? 13)) || ((28 <=? c) && (c <=? 32))
  || (c =? 133) || (c =? 160) || (c =? 5760)
  || ((8192 <=? c) && (c <=? 8202))
  || (c =? 8232) || (c =? 8233) || (c =? 8239) || (c =? 8287)
  || (c =? 12288).

(** The line boundaries of [str.splitlines], [\r\n] apart. *)
Definition is_linebreak (c : char) : bool :=
  ((10 <=? c) && (c <=? 13)) || ((28 <=? c) && (c <=? 30))
  || (c =? 133) || (c =? 8232) || (c =? 8233).

Fixpoint lstrip (s : str) : str :=
  match s with
  | c :: s' => if is_space c then lstrip s' else s
  | [] => []
  end.

Definition strip (s : str) : str := rev (lstrip (rev (lstrip s))).

(** [text.splitlines()]; [acc] is the line being read, reversed. *)
Fixpoint splitlines_acc (acc : str) (s : str) : list str :=
  match s with
  | [] => match acc with [] => [] | _ => [rev acc] end
  | c :: s' =>
      if is_linebreak c then
        rev acc ::
        match s' with
        | c' :: s'' =>
            if (c =? 13) && (c' =? 10) then splitlines_acc [] s''
            else splitlines_acc [] s'
        | [] => splitlines_acc [] s'
        end
      else splitlines_acc (c :: acc) s'
  end.

Definition splitlines (s : str) : list str := splitlines_acc [] s.

(** [seg.split()]: the maximal runs of non-space code points. *)
Fixpoint split_acc (acc : str) (s : str) : list str :=
  match s with
  | [] => match acc with [] => [] | _ => [rev acc] end
  | c :: s' =>
      if is_space c
      then match acc with [] => split_acc [] s' | _ => rev acc :: split_acc [] s' end
      else split_acc (c :: acc) s'
  end.

Definition split (s : str) : list str := split_acc [] s.

Fixpoint starts_with (p s : str) : bool :=
  match p, s with
  | [], _ => true
  | a :: p', b :: s' => (a =? b) && starts_with p' s'
  | _ :: _, [] => false
  end.

(** [sub in s] *)
Fixpoint contains (sub s : str) : bool :=
  starts_with sub s || match s with [] => false | _ :: s' => contains sub s' end.

(** ** Regular expressions

    The fragment of Python's [re] the six patterns of the source use.
    Repetition is only ever applied to a single character class there,
    so [Many p] is [p*] and [p+] is [Cat (Cls p) (Many p)]. *)
Inductive re : Type :=
  | Emp
  | Lit (c : char)
  | Cls (p : char -> bool)
  | Bol
  | Cat (r1 r2 : re)
  | Opt (r : re)
  | Many (p : char -> bool)
  | Grp (g : nat) (r : re).

Definition caps := list (nat * str).

(** [m.group(g)]: [None] when the group took no part in the match. *)
Fixpoint group (g : nat) (cs : caps) : option str :=
  match cs with
  | [] => None
  | (g', t) :: cs' => if Nat.eqb g g' then Some t else group g cs'
  end.

Definition kont := nat -> str -> caps -> option caps.

(** Greedy [p*]: take as many as possible, give back one at a time. *)
Fixpoint many (p : char -> bool) (pos : nat) (s : str) (cs : caps) (k : kont)
  : option caps :=
  match s with
  | c :: s' =>
      if p c then
        match many p (S pos) s' cs k with
        | Some r => Some r
        | None => k pos s cs
        end
      else k pos s cs
  | [] => k pos s cs
  end.

(** The matcher, in continuation-passing style: [pos] is the index in
    the line of the first code point of [s]. *)
Fixpoint run (r : re) (pos : nat) (s : str) (cs : caps) (k : kont) : option caps :=
  match r with
  | Emp => k pos s cs
  | Lit c =>
      match s with
      | c' :: s' => if c =? c' then k (S pos) s' cs else None
      | [] => None
      end
  | Cls p =>
      match s with
      | c' :: s' => if p c' then k (S pos) s' cs else None
      | [] => None
      end
  | Bol => if Nat.eqb pos 0 then k pos s cs else None
  | Cat r1 r2 => run r1 pos s cs (fun pos' s' cs' => run r2 pos' s' cs' k)
  | Opt r1 =>
      match run r1 pos s cs k with
      | Some x => Some x
      | None => k pos s cs
      end
  | Many p => many p pos s cs k
  | Grp g r1 =>
      run r1 pos s cs
        (fun pos' s' cs' => k pos' s' ((g, take (pos' - pos)%nat s) :: cs'))
  end.

Definition accept : kont := fun _ _ cs => Some cs.

(** [pattern.match(s)]: at the start of [s] only. *)
Definition re_match (r : re) (s : str) : option caps := run r 0%nat s [] accept.

(** [pattern.search(s)]: the leftmost start that matches. *)
Fixpoint search_from (r : re) (pos : nat) (s : str) : option caps :=
  match run r pos s [] accept with
  | Some cs => Some cs
  | None =>
      match s with
      | [] => None
      | _ :: s' => search_from r (S pos) s'
      end
  end.

Definition re_search (r : re) (s : str) : option caps := search_from r 0%nat s.

Definition lits (s : str) : re := foldr (fun c r => Cat (Lit c) r) Emp s.
Definition plus (p : char -> bool) : re := Cat (Cls p) (Many p).
Definition seq (rs : list re) : re := foldr Cat Emp rs.

(** ** JSON values, dictionaries and exceptions *)

Inductive json : Type :=
  | JNull
  | JBool (b : bool)
  | JInt (z : Z)
  | JFloat (lit : str)   (* a float, by the decimal text it was read from *)
  | JStr (s : str)
  | JList (l : list json)
  | JDict (d : list (str * json)).

Definition dict := list (str * json).

Inductive exn : Type := ValueError | TypeError | AttributeError.

Inductive result (A : Type) : Type :=
  | Ok (a : A)
  | Raise (e : exn).
Arguments Ok {A} a.
Arguments Raise {A} e.

Definition bind {A B} (x : result A) (f : A -> result B) : result B :=
  match x with
  | Ok a => f a
  | Raise e => Raise e
  end.

Notation "'do' x <- e ; k" := (bind e (fun x => k))
  (at level 10, x name, e at level 100, k at level 200).

Section Assoc.
Context {V : Type}.

(** [d.get(k)] *)
Fixpoint dget (k : str) (d : list (str * V)) : option V :=
  match d with
  | [] => None
  | (k', v) :: d' => if str_eqb k k' then Some v else dget k d'
  end.

(** [k in d] *)
Definition dhas (k : str) (d : list (str * V)) : bool :=
  match dget k d with Some _ => true | None => false end.

(** [d[k] = v]: an existing key keeps its place, a new one goes last. *)
Fixpoint dset (k : str) (v : V) (d : list (str * V)) : list (str * V) :=
  match d with
  | [] => [(k, v)]
  | (k', v') :: d' =>
      if str_eqb k k' then (k', v) :: d' else (k', v') :: dset k v d'
  end.

(** [d.update(e)] *)
Definition dupdate (d e : list (str * V)) : list (str * V) :=
  foldl (fun acc kv => dset kv.1 kv.2 acc) d e.

Definition keys (d : list (str * V)) : list str := map fst d.
End Assoc.

(** Mutation of the object stored under [k] through a reference to it:
    [f] is what the code does to the object. The reference the extractor
    holds is always to a record of [pets] ([st_current] below), so the
    case of a key that is not there does not arise. *)
Fixpoint modify (k : str) (f : dict -> result dict) (ps : list (str * dict))
  : result (list (str * dict)) :=
  match ps with
  | [] => Ok []
  | (k', r) :: ps' =>
      if str_eqb k k' then do r' <- f r; Ok ((k', r') :: ps')
      else do ps'' <- modify k f ps'; Ok ((k', r) :: ps'')
  end.

(** ** Keywords of the source *)

Definition K_name : str := Eval vm_compute in u "name".
Definition K_grade : str := Eval vm_compute in u "grade".
Definition K_s0 : str := Eval vm_compute in u "s0".
Definition K_sg : str := Eval vm_compute in u "sg".
Definition K_attr : str := Eval vm_compute in u "attr".
Definition K_route : str := Eval vm_compute in u "route".
Definition K_atk : str := Eval vm_compute in u "atk".
Definition K_def : str := Eval vm_compute in u "def".
Definition K_agi : str := Eval vm_compute in u "agi".
Definition K_hp : str := Eval vm_compute in u "hp".
Definition K_earth : str := Eval vm_compute in u "지".
Definition K_water : str := Eval vm_compute in u "수".
Definition K_fire : str := Eval vm_compute in u "화".
Definition K_wind : str := Eval vm_compute in u "풍".

Definition G_top : str := Eval vm_compute in u "최상급".
Definition G_high : str := Eval vm_compute in u "상급".
Definition G_normal : str := Eval vm_compute in u "일반".

Definition W_grade : str := Eval vm_compute in u "등급".
Definition W_result : str := Eval vm_compute in u "페트 검색 결과 입니다.".
Definition W_init : str := Eval vm_compute in u "초기".
Definition W_level : str := Eval vm_compute in u "레벨".
Definition W_atk : str := Eval vm_compute in u "공격력".
Definition W_def : str := Eval vm_compute in u "방어력".
Definition W_agi : str := Eval vm_compute in u "순발력".
Definition W_hp : str := Eval vm_compute in u "내구력".
Definition W_grow : str := Eval vm_compute in u "성장".
Definition W_skill : str := Eval vm_compute in u "기술".
Definition W_attr : str := Eval vm_compute in u "속성".
Definition W_route : str := Eval vm_compute in u "경로".

Definition c_lbr : char := 91.   (* [ *)
Definition c_rbr : char := 93.   (* ] *)
Definition c_colon : char := 58.
Definition c_comma : char := 44.
Definition c_dot : char := 46.
Definition c_nl : char := 10.

(** ** The extractor *)

Section Extractor.
(** The decimal value of a code point of Unicode category Nd, [None]
    for every other code point: the table behind [\d] and [int()] of
    the interpreter's Unicode database. *)
Variable decimal : char -> option N.

Definition is_digit (c : char) : bool :=
  match decimal c with Some _ => true | None => false end.

(** The patterns, piece by piece as in the source. Named groups are
    numbered in order of appearance, as [m.group] also accepts: in
    [HEADER_RE] group 1 is [name] and group 2 is [grade]. *)
Definition HEADER_RE : re :=
  seq [ Bol; Lit c_lbr; Grp 1 (plus (fun c => negb (c =? c_rbr))); Lit c_rbr;
        Many is_space;
        Opt (seq [ Lit c_lbr; Grp 2 (Cls is_digit); lits W_grade; Lit c_rbr;
                   Many is_space ]);
        lits W_result ].

(** Groups 1 to 4 are [atk], [def], [agi] and [hp]. *)
Definition INIT_RE : re :=
  seq [ lits W_init; Many is_space; Lit c_colon; Many is_space;
        lits W_level; Many is_space; Opt (Lit c_colon);
        Many (fun c => is_space c || is_digit c); Lit c_comma;
        Many is_space; lits W_atk; Many is_space; Grp 1 (plus is_digit);
        Lit c_comma;
        Many is_space; lits W_def; Many is_space; Grp 2 (plus is_digit);
        Lit c_comma;
        Many is_space; lits W_agi; Many is_space; Grp 3 (plus is_digit);
        Lit c_comma;
        Many is_space; lits W_hp; Many is_space; Grp 4 (plus is_digit) ].

(** [\d+(?:\.\d+)?] *)
Definition number : re :=
  Cat (plus is_digit) (Opt (Cat (Lit c_dot) (plus is_digit))).

(** Groups 1 to 4 are [atk], [def], [agi] and [hp]; the total, between
    [agi] and [hp], is in no group. *)
Definition GROW_RE : re :=
  seq [ lits W_grow; Many is_space; Lit c_colon;
        Many is_space; lits W_atk; Many is_space; Grp 1 number; Lit c_comma;
        Many is_space; lits W_def; Many is_space; Grp 2 number; Lit c_comma;
        Many is_space; lits W_agi; Many is_space; Grp 3 number; Lit c_comma;
        Many is_space; lits W_grow; Many is_space; number; Lit c_comma;
        Many is_space; lits W_hp; Many is_space; Grp 4 number ].

Definition ATTR_SEG_RE : re :=
  seq [ lits W_attr; Many is_space; Lit c_colon; Many is_space;
        Grp 1 (plus (fun c => negb (c =? c_comma))) ].

Definition is_element (c : char) : bool :=
  bool_decide ([c] = K_earth) || bool_decide ([c] = K_water)
  || bool_decide ([c] = K_fire) || bool_decide ([c] = K_wind).

(** Group 1 is the element, group 2 its digits. *)
Definition ATTR_TOKEN_RE : re :=
  seq [ Grp 1 (Cls is_element); Many is_space; Grp 2 (plus is_digit) ].

Definition ROUTE_RE : re :=
  seq [ lits W_route; Many is_space; Lit c_colon; Many is_space;
        Grp 1 (plus (fun c => negb (c =? c_nl))) ].

(** The interpreter's default limit on the number of digits of a text
    that [int()] converts; every digit counts, leading zeros too. *)
Definition max_str_digits : N := 4300.

Definition fits (t : str) : bool := N.of_nat (length t) <=? max_str_digits.

(** [int(t)] on a run of decimal digits: [None] stands for the
    [ValueError] of a text that is empty, holds another code point, or
    has more than [max_str_digits] digits. *)
Definition int_digits (t : str) : option Z :=
  match t with
  | [] => None
  | _ =>
      if fits t then
        foldl (fun acc c =>
                 match acc, decimal c with
                 | Some a, Some d => Some (a * 10 + Z.of_N d)%Z
                 | _, _ => None
                 end) (Some 0%Z) t
      else None
  end.

(** [int(m.group(g))]. The code only applies it to the text of a
    [\d+] group; [int(None)] is a [TypeError]. *)
Definition int_group (g : nat) (m : caps) : result Z :=
  match group g m with
  | None => Raise TypeError
  | Some t =>
      match int_digits t with
      | Some z => Ok z
      | None => Raise ValueError
      end
  end.

(** [float(m.group(g))], kept as the matched text. *)
Definition float_group (g : nat) (m : caps) : result json :=
  match group g m with
  | None => Raise TypeError
  | Some t => Ok (JFloat t)
  end.

(** [m.group(g).strip()] *)
Definition strip_group (g : nat) (m : caps) : result str :=
  match group g m with
  | None => Raise AttributeError
  | Some t => Ok (strip t)
  end.

Definition grade_digit_to_str (d : option str) : str :=
  if bool_decide (d = Some [49]) then G_top
  else if bool_decide (d = Some [50]) then G_high
  else G_normal.

Record state : Type := State {
  pets : list (str * dict);
  current : option str   (* the key of the record [current] refers to *)
}.

(** [current.setdefault(key, {}).update(upd)] *)
Definition setdefault_update (key : str) (upd : dict) (cur : dict) : result dict :=
  match dget key cur with
  | None => Ok (dset key (JDict (dupdate [] upd)) cur)
  | Some (JDict d) => Ok (dset key (JDict (dupdate d upd)) cur)
  | Some _ => Raise AttributeError
  end.

(** One token of the attribute segment. *)
Definition attr_token (attr : dict) (tok0 : str) : result dict :=
  let tok := strip tok0 in
  match tok with
  | [] => Ok attr
  | _ =>
      match re_match ATTR_TOKEN_RE tok with
      | None => Ok attr
      | Some m =>
          do val <- int_group 2 m;
          match group 1 m with
          | Some el => Ok (dset el (JInt val) attr)
          | None => Raise TypeError
          end
      end
  end.

Definition attr_zero : dict :=
  [(K_earth, JInt 0); (K_water, JInt 0); (K_fire, JInt 0); (K_wind, JInt 0)].

Definition positive (v : json) : bool :=
  match v with JInt z => (0 <? z)%Z | _ => false end.

(** The four values read from the attribute segment. *)
Definition attr_block (seg : str) : result dict :=
  foldl (fun acc tok => do a <- acc; attr_token a tok) (Ok attr_zero) (split seg).

(** Step 4-1 of the loop body: the attribute block. *)
Definition do_attr (line : str) (cur : dict) : result dict :=
  match re_search ATTR_SEG_RE line with
  | None => Ok cur
  | Some m_attr =>
      match group 1 m_attr with
      | None => Raise AttributeError
      | Some seg =>
          do attr <- attr_block seg;
          if existsb positive (map snd attr)
          then Ok (dset K_attr (JDict attr) cur)
          else Ok cur
      end
  end.

(** Step 4-2: the route. *)
Definition do_route (line : str) (cur : dict) : result dict :=
  match re_search ROUTE_RE line with
  | None => Ok cur
  | Some m_route =>
      do route <- strip_group 1 m_route;
      Ok (dset K_route (JStr route) cur)
  end.

(** What a line that is not a header does to the current record. *)
Definition field_line (line : str) (cur : dict) : result dict :=
  match re_search INIT_RE line with
  | Some m =>
      do a <- int_group 1 m;
      do d <- int_group 2 m;
      do g <- int_group 3 m;
      do h <- int_group 4 m;
      setdefault_update K_s0
        [(K_atk, JInt a); (K_def, JInt d); (K_agi, JInt g); (K_hp, JInt h)] cur
  | None =>
      match re_search GROW_RE line with
      | Some m =>
          do a <- float_group 1 m;
          do d <- float_group 2 m;
          do g <- float_group 3 m;
          do h <- float_group 4 m;
          setdefault_update K_sg
            [(K_atk, a); (K_def, d); (K_agi, g); (K_hp, h)] cur
      | None =>
          if contains W_skill line && contains W_attr line
          then do cur1 <- do_attr line cur; do_route line cur1
          else Ok cur
      end
  end.

(** The conditional write of [grade] in the header branch. *)
Definition set_grade (g_digit : option str) (cur : dict) : dict :=
  let g_str := grade_digit_to_str g_digit in
  if bool_decide (g_digit <> None) || negb (dhas K_grade cur)
  then dset K_grade (JStr g_str) cur
  else cur.

(** The header branch, once the name and the grade digit are known. *)
Definition header_line (name : str) (g_digit : option str) (st : state) : result state :=
  let pets1 :=
    if dhas name (pets st) then pets st
    else dset name [(K_name, JStr name)] (pets st) in
  do pets2 <- modify name (fun cur => Ok (set_grade g_digit cur)) pets1;
  Ok (State pets2 (Some name)).

(** The body of the loop of [parse_chat] for one raw line. *)
Definition parse_line (st : state) (raw : str) : result state :=
  let line := strip raw in
  match line with
  | [] => Ok st
  | _ =>
      match re_search HEADER_RE line with
      | Some m =>
          do name <- strip_group 1 m;
          header_line name (group 2 m) st
      | None =>
          match current st with
          | None => Ok st
          | Some cname =>
              do pets' <- modify cname (field_line line) (pets st);
              Ok (State pets' (Some cname))
          end
      end
  end.

Definition parse_lines (st : state) (ls : list str) : result state :=
  foldl (fun acc raw => do s <- acc; parse_line s raw) (Ok st) ls.

Definition parse_chat (text : str) : result (list (str * dict)) :=
  do st <- parse_lines (State [] None) (splitlines text);
  Ok (pets st).

End Extractor.

(** The Unicode table restricted to the ASCII digits; it agrees with
    the interpreter's on every text whose other code points are not
    decimal digits. *)
Definition ascii_decimal (c : char) : option N :=
  if (48 <=? c) && (c <=? 57) then Some (c - 48) else None.

(** ** The merger *)

Definition FIELDS : list str := [K_grade; K_s0; K_sg; K_attr; K_route].

(** The loop over the five recognised keys, on an existing target. *)
Definition merge_field (extra : dict) (target : dict) (key : str) : dict :=
  match dget key extra with
  | None => target
  | Some v =>
      match v, dget key target with
      | JDict e, Some (JDict d) => dset key (JDict (dupdate d e)) target
      | _, _ => dset key v target
      end
  end.

Definition merge_fields (extra : dict) (target : dict) : dict :=
  foldl (merge_field extra) target FIELDS.

(** The same loop for a new object of a sequence: plain assignment. *)
Definition copy_field (extra : dict) (new_obj : dict) (key : str) : dict :=
  match dget key extra with
  | None => new_obj
  | Some v => dset key v new_obj
  end.

Definition new_object (name : str) (extra : dict) : dict :=
  foldl (copy_field extra) [(K_name, JStr name)] FIELDS.

(** One iteration of the loop over [patch.items()], mapping shape. *)
Definition merge_dict_entry (data : dict) (ne : str * dict) : dict :=
  let name := ne.1 in
  let extra := ne.2 in
  let target := dget name data in
  let '(target, data) :=
    match target with
    | None | Some JNull => (JDict [], dset name (JDict []) data)
    | Some t => (t, data)
    end in
  match target with
  | JDict t => dset name (JDict (merge_fields extra t)) data
  | _ => data
  end.

(** The first loop of the sequence shape: [by_name[obj["name"]] = obj].
    A reference to an object of [data] is its index. Keys that are not
    strings are left out of the model's table: no key of [patch], a
    string, is equal to one; a list or a dict as key is not hashable. *)
Fixpoint index_names (i : nat) (data : list json) (by_name : gmap str nat)
  : result (gmap str nat) :=
  match data with
  | [] => Ok by_name
  | obj :: rest =>
      match obj with
      | JDict d =>
          match dget K_name d with
          | Some (JStr n) => index_names (S i) rest (<[n := i]> by_name)
          | Some (JList _) | Some (JDict _) => Raise TypeError
          | _ => index_names (S i) rest by_name
          end
      | _ => index_names (S i) rest by_name
      end
  end.

(** One iteration of the loop over [patch.items()], sequence shape.
    [if not target] holds for [None] and for an empty mapping. *)
Definition merge_list_entry (by_name : gmap str nat) (data : list json)
    (ne : str * dict) : list json :=
  let name := ne.1 in
  let extra := ne.2 in
  let target := i ← by_name !! name; obj ← data !! i; Some (i, obj) in
  match target with
  | Some (i, JDict ((_ :: _) as t)) => <[i := JDict (merge_fields extra t)]> data
  | _ => data ++ [JDict (new_object name extra)]
  end.

(** [merge_into_pets], from the value [json.loads] returned. *)
Definition merge_into_pets (data : json) (patch : list (str * dict)) : result json :=
  match data with
  | JDict d => Ok (JDict (foldl merge_dict_entry d patch))
  | JList l =>
      do by_name <- index_names 0 l ∅;
      Ok (JList (foldl (merge_list_entry by_name) l patch))
  | _ => Raise ValueError
  end.

(** ** The result of the command line

    What [main] computes between reading its files and writing the
    JSON text: the extractor's mapping, then either the merge into the
    parsed [--merge] dataset or the default list. *)

(** [a < b] on [str]: the first differing code point decides, a proper
    prefix is smaller. *)
Fixpoint str_ltb (a b : str) : bool :=
  match a, b with
  | _, [] => false
  | [], _ :: _ => true
  | x :: a', y :: b' => if x <? y then true else if y <? x then false else str_ltb a' b'
  end.

Definition str_le (a b : str) : Prop := str_ltb b a = false.
Definition str_lt (a b : str) : Prop := str_ltb a b = true.

#[global] Instance str_le_dec : RelDecision str_le.
Proof. intros a b. unfold str_le. apply _. Defined.

(** [sorted(parsed.keys(), key=lambda s: s)]. Strings that compare equal
    are equal, so the result does not depend on the sorting algorithm;
    a merge sort, as the interpreter's. *)
Definition sorted (l : list str) : list str := merge_sort str_le l.

(** The loop that builds [extracted_list]: a copy of each record, with
    [name] set to its key. *)
Definition extracted_list (parsed : list (str * dict)) : list dict :=
  omap (fun name => r ← dget name parsed; Some (dset K_name (JStr name) r))
       (sorted (keys parsed)).

(** [result] of [main]: [merge] is the value parsed from the file of
    [--merge], when the option is given. *)
Definition main_result (decimal : char -> option N) (text : str)
    (merge : option json) : result json :=
  do parsed <- parse_chat decimal text;
  let extracted := extracted_list parsed in
  match merge with
  | Some data => merge_into_pets data parsed
  | None => Ok (JList (map JDict extracted))
  end.

(** ** Declarative reading of the patterns

    [matches r pos cs t cs']: [r] matches the text [t] found at index
    [pos], and turns the groups [cs] into [cs']. *)
Fixpoint matches (r : re) (pos : nat) (cs : caps) (t : str) (cs' : caps) : Prop :=
  match r with
  | Emp => t = [] ∧ cs' = cs
  | Lit c => t = [c] ∧ cs' = cs
  | Cls p => ∃ c, t = [c] ∧ p c = true ∧ cs' = cs
  | Bol => t = [] ∧ pos = 0%nat ∧ cs' = cs
  | Cat r1 r2 =>
      ∃ t1 t2 c1, t = t1 ++ t2 ∧ matches r1 pos cs t1 c1
                  ∧ matches r2 (pos + length t1)%nat c1 t2 cs'
  | Opt r1 => matches r1 pos cs t cs' ∨ (t = [] ∧ cs' = cs)
  | Many p => Forall (fun c => p c = true) t ∧ cs' = cs
  | Grp g r1 => ∃ c1, matches r1 pos cs t c1 ∧ cs' = (g, t) :: c1
  end.

(** Does [r] contain group [g]? *)
Fixpoint mentions (g : nat) (r : re) : bool :=
  match r with
  | Cat r1 r2 => mentions g r1 || mentions g r2
  | Opt r1 => mentions g r1
  | Grp g' r1 => Nat.eqb g g' || mentions g r1
  | _ => false
  end.

(** The sub-pattern of group [g] when the group takes part in every
    match of [r]. *)
Fixpoint finds (g : nat) (r : re) : option re :=
  match r with
  | Grp g' r1 => if Nat.eqb g g' then Some r1 else finds g r1
  | Cat r1 r2 =>
      match finds g r2 with
      | Some x => Some x
      | None => if mentions g r2 then None else finds g r1
      end
  | _ => None
  end.

(** * Vocabulary of the properties *)

(** ** Records of the extractor *)

Definition stat_keys : list str := [K_atk; K_def; K_agi; K_hp].

Definition element_keys : list str := [K_earth; K_water; K_fire; K_wind].

Definition record_keys : list str :=
  [K_name; K_grade; K_s0; K_sg; K_attr; K_route].

Definition is_int (v : json) : Prop := ∃ z, v = JInt z ∧ (0 ≤ z)%Z.
Definition is_float (v : json) : Prop := ∃ t, v = JFloat t.

(** The shape of a record of [pets], as the data model describes it. *)
Record record_ok (name : str) (r : dict) : Prop := RecordOk {
  rec_name : dget K_name r = Some (JStr name);
  rec_grade : ∀ v, dget K_grade r = Some v →
                v = JStr G_top ∨ v = JStr G_high ∨ v = JStr G_normal;
  rec_s0 : ∀ v, dget K_s0 r = Some v →
             ∃ d, v = JDict d ∧ keys d = stat_keys ∧ Forall is_int (map snd d);
  rec_sg : ∀ v, dget K_sg r = Some v →
             ∃ d, v = JDict d ∧ keys d = stat_keys ∧ Forall is_float (map snd d);
  rec_attr : ∀ v, dget K_attr r = Some v →
             ∃ d, v = JDict d ∧ keys d = element_keys
                  ∧ Forall is_int (map snd d)
                  ∧ existsb positive (map snd d) = true;
  rec_route : ∀ v, dget K_route r = Some v → ∃ s, v = JStr s;
  rec_keys : keys r ⊆ record_keys;
  rec_nodup : NoDup (keys r)
}.

Record state_ok (st : state) : Prop := StateOk {
  st_nodup : NoDup (keys (pets st));
  st_records : ∀ n r, dget n (pets st) = Some r → record_ok n r;
  st_current : ∀ c, current st = Some c → c ∈ keys (pets st)
}.

(** ** Lines of a chat log *)

(** The distinct elements of a list, in order of first occurrence. *)
Definition first_seen (l : list str) : list str :=
  foldl (fun acc n => if decide (n ∈ acc) then acc else acc ++ [n]) [] l.

Definition ok_value {A} (x : result A) : option A :=
  match x with Ok a => Some a | Raise _ => None end.

Section ExtractorSpec.
Variable decimal : char -> option N.

(** The header of a raw line: the name the loop body would take from
    it. *)
Definition header_name (raw : str) : option str :=
  match re_search (HEADER_RE decimal) (strip raw) with
  | Some m => strip <$> group 1 m
  | None => None
  end.

(** The names of the header lines of a text, in order. *)
Definition header_names (text : str) : list str :=
  omap header_name (splitlines text).

(** Is the line one that reaches step 4 of the loop body? *)
Definition skill_line (raw : str) : bool :=
  match re_search (INIT_RE decimal) (strip raw),
        re_search (GROW_RE decimal) (strip raw) with
  | None, None => contains W_skill (strip raw) && contains W_attr (strip raw)
  | _, _ => false
  end.

(** The attribute segment of such a line: the text after the attribute
    label, up to the next comma. *)
Definition attr_segment (raw : str) : option str :=
  if skill_line raw then m ← re_search ATTR_SEG_RE (strip raw); group 1 m
  else None.

(** The value a token of the attribute segment gives the element [el]:
    the token, stripped, starts with the letter of [el], optional white
    space and digits. *)
Definition token_value (el : str) (tok : str) : option Z :=
  m ← re_match (ATTR_TOKEN_RE decimal) (strip tok);
  g ← group 1 m;
  if bool_decide (g = el) then ok_value (int_group decimal 2 m) else None.

(** The four values of a segment, read off its tokens: for each element
    the value of the last token that names it, and 0 when none does. *)
Definition attr_value (seg el : str) : Z :=
  default 0%Z (last (omap (token_value el) (split seg))).

Definition attr_values (seg : str) : dict :=
  [(K_earth, JInt (attr_value seg K_earth)); (K_water, JInt (attr_value seg K_water));
   (K_fire, JInt (attr_value seg K_fire)); (K_wind, JInt (attr_value seg K_wind))].

(** The texts the loop body hands to [int()] on a line, and whether
    they are all within the digit limit. *)
Definition group_fits (g : nat) (m : caps) : bool :=
  match group g m with Some t => fits t | None => true end.

Definition token_fits (tok : str) : bool :=
  match re_match (ATTR_TOKEN_RE decimal) (strip tok) with
  | Some m => group_fits 2 m
  | None => true
  end.

Definition line_fits (raw : str) : bool :=
  match re_search (INIT_RE decimal) (strip raw) with
  | Some m => group_fits 1 m && group_fits 2 m && group_fits 3 m && group_fits 4 m
  | None =>
      match attr_segment raw with
      | Some seg => forallb token_fits (split seg)
      | None => true
      end
  end.

(** The same for a line read while [cur] is the current record: a
    header, and a line read before the first header, convert nothing. *)
Definition reads_ok (cur : option str) (raw : str) : bool :=
  match cur, header_name raw with
  | Some _, None => line_fits raw
  | _, _ => true
  end.

(** The four kinds of line that are not headers, on a well-shaped
    record. *)
Inductive field_step (line : str) (r r' : dict) : Prop :=
  | step_init m a d g h :
      re_search (INIT_RE decimal) line = Some m →
      int_group decimal 1 m = Ok a → int_group decimal 2 m = Ok d →
      int_group decimal 3 m = Ok g → int_group decimal 4 m = Ok h →
      r' = dset K_s0
             (JDict [(K_atk, JInt a); (K_def, JInt d); (K_agi, JInt g); (K_hp, JInt h)])
             r →
      field_step line r r'
  | step_grow m a d g h :
      re_search (INIT_RE decimal) line = None →
      re_search (GROW_RE decimal) line = Some m →
      group 1 m = Some a → group 2 m = Some d →
      group 3 m = Some g → group 4 m = Some h →
      r' = dset K_sg
             (JDict [(K_atk, JFloat a); (K_def, JFloat d);
                     (K_agi, JFloat g); (K_hp, JFloat h)])
             r →
      field_step line r r'
  | step_skill r1 :
      re_search (INIT_RE decimal) line = None →
      re_search (GROW_RE decimal) line = None →
      contains W_skill line && contains W_attr line = true →
      do_attr decimal line r = Ok r1 →
      do_route line r1 = Ok r' →
      field_step line r r'
  | step_other :
      re_search (INIT_RE decimal) line = None →
      re_search (GROW_RE decimal) line = None →
      contains W_skill line && contains W_attr line = false →
      r' = r →
      field_step line r r'.

(** The three things the loop body can do, on a well-shaped state. *)
Inductive line_step (st : state) (raw : str) (st' : state) : Prop :=
  | step_header m name :
      re_search (HEADER_RE decimal) (strip raw) = Some m →
      header_name raw = Some name →
      st' = State (dset name
                     (set_grade (group 2 m)
                        (default [(K_name, JStr name)] (dget name (pets st))))
                     (pets st))
                  (Some name) →
      line_step st raw st'
  | step_skip :
      header_name raw = None →
      strip raw = [] ∨ current st = None →
      st' = st →
      line_step st raw st'
  | step_field c r r' :
      header_name raw = None →
      strip raw ≠ [] →
      current st = Some c → dget c (pets st) = Some r →
      record_ok c r' →
      field_step (strip raw) r r' →
      st' = State (dset c r' (pets st)) (Some c) →
      line_step st raw st'.

(** The text of a growth-stat match, label by label: a run of white
    space, a label, a run of white space and a decimal number. *)
Definition spaces (w : str) : Prop := Forall (fun c => is_space c = true) w.

Definition digits (t : str) : Prop :=
  t ≠ [] ∧ Forall (fun c => is_digit decimal c = true) t.

Definition number_text (t : str) : Prop :=
  ∃ ip fp, t = ip ++ fp ∧ digits ip
           ∧ (fp = [] ∨ ∃ fr, fp = c_dot :: fr ∧ digits fr).

Definition labelled (label num t : str) : Prop :=
  ∃ w1 w2, t = w1 ++ label ++ w2 ++ num ∧ spaces w1 ∧ spaces w2 ∧ number_text num.

(** [t] is a growth-stat text with the numbers [a], [d], [g] and [h]
    after the labels of attack, defence, agility and durability, and
    the total [total] after the second growth label, between agility
    and durability. *)
Definition growth_text (a d g total h t : str) : Prop :=
  ∃ w0 fa fd fg ft fh,
    t = W_grow ++ w0 ++ [c_colon] ++ fa ++ [c_comma] ++ fd ++ [c_comma] ++ fg
          ++ [c_comma] ++ ft ++ [c_comma] ++ fh
    ∧ spaces w0 ∧ labelled W_atk a fa ∧ labelled W_def d fd ∧ labelled W_agi g fg
    ∧ labelled W_grow total ft ∧ labelled W_hp h fh.

(** A growth-stat line: not a header, not a base-stat line, and matched
    by [GROW_RE]. *)
Definition growth_line (raw : str) : Prop :=
  re_search (HEADER_RE decimal) (strip raw) = None
  ∧ re_search (INIT_RE decimal) (strip raw) = None
  ∧ is_Some (re_search (GROW_RE decimal) (strip raw)).

(** [v] is an [sg] mapping of the growth-stat line [raw], whose total
    is [total]: the line holds a growth-stat text, and [v] has its four
    labelled numbers, not the total, under the four stat keys. *)
Definition sg_of_line (raw : str) (total : str) (v : json) : Prop :=
  growth_line raw
  ∧ ∃ pre t post a d g h,
      strip raw = pre ++ t ++ post ∧ growth_text a d g total h t
      ∧ v = JDict [(K_atk, JFloat a); (K_def, JFloat d);
                   (K_agi, JFloat g); (K_hp, JFloat h)].

(** [attr] holds the four elemental values of the skill/attribute line
    [raw], read off the tokens of its segment. *)
Definition attr_of_line (raw : str) (attr : dict) : Prop :=
  re_search (HEADER_RE decimal) (strip raw) = None
  ∧ ∃ seg, attr_segment raw = Some seg ∧ attr = attr_values seg.

(** The name of the record that is current once the lines [ls] are
    read: that of the last header among them. *)
Definition owner (ls : list str) : option str := last (omap header_name ls).

(** Every line of [ls] is read without an [int()] beyond the limit. *)
Definition log_fits (ls : list str) : Prop :=
  ∀ i raw, ls !! i = Some raw → reads_ok (owner (take i ls)) raw = true.

(** Among the lines [ls], one read while the record [n] was current is
    a skill/attribute line with the values [attr], one of them
    positive. *)
Definition writes_attr (ls : list str) (n : str) (attr : dict) : Prop :=
  ∃ i raw, ls !! i = Some raw ∧ owner (take i ls) = Some n
           ∧ attr_of_line raw attr ∧ existsb positive (map snd attr) = true.

(** A base-stat or growth-stat line: not a header, and matched by
    [INIT_RE] or [GROW_RE]. *)
Definition stat_line (raw : str) : Prop :=
  re_search (HEADER_RE decimal) (strip raw) = None
  ∧ (is_Some (re_search (INIT_RE decimal) (strip raw))
     ∨ is_Some (re_search (GROW_RE decimal) (strip raw))).

End ExtractorSpec.

(** ** The history of a record *)

Section HistorySpec.
Variable decimal : char -> option N.

(** The scan of the loop, kept to what concerns the record [n]: the name
    of the current record, and the lines read while [n] was current
    (headers apart). *)
Definition scan (n : str) (ls : list str) : option str * list str :=
  foldl (fun ca raw =>
           match header_name decimal raw with
           | Some h => (Some h, ca.2)
           | None => (ca.1, if bool_decide (ca.1 = Some n) then ca.2 ++ [raw] else ca.2)
           end) (None, []) ls.

Definition lines_of (n : str) (ls : list str) : list str := (scan n ls).2.

(** The grade digit of a header of [n]. *)
Definition header_digit (n : str) (raw : str) : option str :=
  match re_search (HEADER_RE decimal) (strip raw) with
  | Some m => if bool_decide (strip <$> group 1 m = Some n) then group 2 m else None
  | None => None
  end.

(** What a line that is not a header writes into [s0], [sg], [attr] and
    [route] of the current record, if anything. *)
Definition s0_write (raw : str) : option json :=
  m ← re_search (INIT_RE decimal) (strip raw);
  a ← ok_value (int_group decimal 1 m); d ← ok_value (int_group decimal 2 m);
  g ← ok_value (int_group decimal 3 m); h ← ok_value (int_group decimal 4 m);
  Some (JDict [(K_atk, JInt a); (K_def, JInt d); (K_agi, JInt g); (K_hp, JInt h)]).

Definition sg_write (raw : str) : option json :=
  match re_search (INIT_RE decimal) (strip raw) with
  | Some _ => None
  | None =>
      m ← re_search (GROW_RE decimal) (strip raw);
      a ← group 1 m; d ← group 2 m; g ← group 3 m; h ← group 4 m;
      Some (JDict [(K_atk, JFloat a); (K_def, JFloat d);
                   (K_agi, JFloat g); (K_hp, JFloat h)])
  end.

Definition attr_write (raw : str) : option json :=
  seg ← attr_segment decimal raw;
  if existsb positive (map snd (attr_values decimal seg))
  then Some (JDict (attr_values decimal seg)) else None.

Definition route_write (raw : str) : option json :=
  if skill_line decimal raw then
    m ← re_search ROUTE_RE (strip raw);
    t ← group 1 m;
    Some (JStr (strip t))
  else None.

(** The fields of the record [n] after the lines [ls], read off the
    lines alone. *)
Definition history_ok (ls : list str) (n : str) (r : dict) : Prop :=
  dget K_name r = Some (JStr n)
  ∧ dget K_grade r
    = Some (JStr (grade_digit_to_str (last (omap (header_digit n) ls))))
  ∧ dget K_s0 r = last (omap (s0_write) (lines_of n ls))
  ∧ dget K_sg r = last (omap (sg_write) (lines_of n ls))
  ∧ dget K_attr r = last (omap (attr_write) (lines_of n ls))
  ∧ dget K_route r = last (omap (route_write) (lines_of n ls)).

End HistorySpec.

(** ** Values of the merger *)

(** What the loop over the five keys makes of one of them: [pv] is the
    patch's value of the key, [tv] the target's. *)
Definition merged_value (pv tv : option json) : option json :=
  match pv with
  | None => tv
  | Some (JDict e) =>
      match tv with
      | Some (JDict d) => Some (JDict (dupdate d e))
      | _ => Some (JDict e)
      end
  | Some v => Some v
  end.

(** What a mapping-shaped dataset holds under a patch name after the
    merge of the record [e]: [old] is what it held before. *)
Definition merged_entry (e : dict) (old : option json) : json :=
  match old with
  | None | Some JNull => JDict (merge_fields e [])
  | Some (JDict t) => JDict (merge_fields e t)
  | Some v => v
  end.

(** A patch as the extractor and the interpreter make them: one record
    for each name, and distinct keys in every mapping a record holds. *)
Definition distinct_sub_keys (e : dict) : bool :=
  forallb (fun kv => match kv.2 with
                     | JDict ev => bool_decide (NoDup (keys ev))
                     | _ => true
                     end) e.

Definition patch_ok (patch : list (str * dict)) : Prop :=
  NoDup (keys patch) ∧ forallb (fun ne => distinct_sub_keys ne.2) patch = true.

(** The mapping [t] shows every recognised value of the patch record
    [e]: a value that is not a mapping as it is, a mapping key by key. *)
Definition holds_patch (e t : dict) : Prop :=
  ∀ k v, k ∈ FIELDS → dget k e = Some v →
    match v with
    | JDict ev => ∃ rv, dget k t = Some (JDict rv)
                        ∧ ∀ sk x, dget sk ev = Some x → dget sk rv = Some x
    | _ => dget k t = Some v
    end.

(** ** Objects of a sequence-shaped dataset *)

(** The name an object of a sequence is indexed under. *)
Definition name_of (obj : json) : option str :=
  match obj with
  | JDict t => match dget K_name t with Some (JStr n) => Some n | _ => None end
  | _ => None
  end.

(** Objects whose [name], when there is one, can be a dictionary key. *)
Definition hashable_name (obj : json) : bool :=
  match obj with
  | JDict t =>
      match dget K_name t with
      | Some (JList _) | Some (JDict _) => false
      | _ => true
      end
  | _ => true
  end.

(** The index of the last object of [l] named [n]. *)
Fixpoint last_named (n : str) (l : list json) : option nat :=
  match l with
  | [] => None
  | obj :: rest =>
      match last_named n rest with
      | Some j => Some (S j)
      | None => if bool_decide (name_of obj = Some n) then Some 0%nat else None
      end
  end.

(** One iteration of the indexing loop. *)
Definition index_step (i : nat) (obj : json) (by_name : gmap str nat)
  : result (gmap str nat) :=
  if hashable_name obj
  then Ok (match name_of obj with Some n => <[n := i]> by_name | None => by_name end)
  else Raise TypeError.

(** The second loop, split in its two effects: the update in place of
    an indexed object, and the objects appended for the other names.
    [look] is the table of the first loop. *)
Definition apply_entry (look : str → option nat) (cur : list json)
    (ne : str * dict) : list json :=
  match look ne.1 with
  | Some j =>
      match cur !! j with
      | Some (JDict t) => <[j := JDict (merge_fields ne.2 t)]> cur
      | _ => cur
      end
  | None => cur
  end.

Definition new_objects (look : str → option nat) (patch : list (str * dict))
  : list json :=
  omap (fun ne => match look ne.1 with
                  | None => Some (JDict (new_object ne.1 ne.2))
                  | Some _ => None
                  end) patch.

(** Every index of the table is the index of an object of that name. *)
Definition indexed (look : str → option nat) (cur : list json) : Prop :=
  ∀ n j, look n = Some j → ∃ obj, cur !! j = Some obj ∧ name_of obj = Some n.

(** An object of the sequence and what the merge makes of it: the same
    value, or a mapping that differs in the five recognised fields at
    most. *)
Definition same_entry (obj obj' : json) : Prop :=
  match obj with
  | JDict t => ∃ t', obj' = JDict t' ∧ ∀ k, k ∉ FIELDS → dget k t' = dget k t
  | _ => obj' = obj
  end.

(** What the merge makes of the object at index [j], for a patch with
    one entry per name. *)
Definition merged_at (look : str → option nat) (patch : list (str * dict))
    (j : nat) (obj : json) : json :=
  match name_of obj with
  | Some n =>
      if decide (look n = Some j)
      then match dget n patch, obj with
           | Some e, JDict t => JDict (merge_fields e t)
           | _, _ => obj
           end
      else obj
  | None => obj
  end.

(** A dataset the merger accepts: a mapping, or a sequence in which no
    object has a list or a mapping as its [name]. The datasets of the
    data model are among them: their objects are records, whose [name]
    is a string. *)
Definition dataset_ok (data : json) : Prop :=
  match data with
  | JDict _ => True
  | JList l => forallb hashable_name l = true
  | _ => False
  end.

(** ** Concrete lines and datasets *)

Definition ex_name : str := Eval vm_compute in u "루비".
Definition ex_header : str := Eval vm_compute in u "  [루비] 페트 검색 결과 입니다.".
Definition ex_header1 : str := Eval vm_compute in u "[루비] [1등급] 페트 검색 결과 입니다.".
Definition ex_header3 : str := Eval vm_compute in u "[루비] [3등급] 페트 검색 결과 입니다.".
Definition ex_init : str :=
  Eval vm_compute in u "초기 : 레벨 1, 공격력 10, 방어력 5, 순발력 7, 내구력 20".
Definition ex_grow : str :=
  Eval vm_compute in u "성장 : 공격력 1.5, 방어력 0.7, 순발력 1, 성장 4.25, 내구력 3.05".
Definition ex_skill : str :=
  Eval vm_compute in u "기술 : 7, 속성 : 화6 수4 , 무언가, 경로 : 쟈루 섬(동357 남183) 포획".

Definition ex_grow_no_total : str :=
  Eval vm_compute in u "성장 : 공격력 1.5, 방어력 0.7, 순발력 1, 내구력 3.05".
Definition ex_skill_zero : str :=
  Eval vm_compute in u "기술 : 7, 속성 : 화0 없음 , 경로 :  x ".
Definition ex_route : str := Eval vm_compute in u "쟈루 섬(동357 남183) 포획".

Definition ex_seg : str := Eval vm_compute in u " 화6 수 4 지2x 화7".
Definition ex_token : str := Eval vm_compute in u "지2x".
Definition ex_log : str := ex_header1 ++ [10%N] ++ ex_grow.

Definition ex_stat_patch : list (str * dict) :=
  [(ex_name, [(K_name, JStr ex_name); (K_s0, JDict [(K_atk, JInt 3)])]);
   (G_high, [(K_name, JStr G_high); (K_route, JStr G_normal)])].
Definition ex_stat_record : dict :=
  [(K_name, JStr ex_name); (K_s0, JDict [(K_hp, JInt 9); (K_atk, JInt 1)])].
Definition ex_stranger : json := JDict [(K_name, JStr G_normal); (K_grade, JNull)].

Definition ex_name_b : str := Eval vm_compute in u "가루".
Definition ex_header_b : str := Eval vm_compute in u "[가루] [2등급] 페트 검색 결과 입니다.".
Definition ex_log_two : str := ex_header ++ [10%N] ++ ex_header_b.
Definition ex_record : dict := [(K_name, JStr ex_name); (K_grade, JStr G_top)].
Definition ex_state : state := State [(ex_name, ex_record)] (Some ex_name).

Definition ex_header_match : caps :=
  Eval vm_compute in default [] (re_search (HEADER_RE ascii_decimal) (strip ex_header)).

Definition ex_patch : list (str * dict) :=
  [(ex_name, ex_record); (G_high, [(K_name, JStr G_high); (K_route, JStr G_normal)])].
Definition ex_older : dict :=
  [(K_name, JStr ex_name); (W_skill, JInt 7); (K_grade, JStr G_normal)].
Definition ex_newer : dict := [(K_name, JStr ex_name); (W_skill, JInt 9)].
Definition ex_list : list json := [JDict ex_older; JInt 3; JDict ex_newer].

(** What the extractor returns on the two logs. *)
Definition ex_out : list (str * dict) :=
  Eval vm_compute in
    match parse_chat ascii_decimal ex_log with Ok out => out | Raise _ => [] end.
Definition ex_out_two : list (str * dict) :=
  [(ex_name, [(K_name, JStr ex_name); (K_grade, JStr G_normal)]);
   (ex_name_b, [(K_name, JStr ex_name_b); (K_grade, JStr G_high)])].

(** A log with a header and one line of each kind, and what the
    extractor returns on it. *)
Definition ex_log_full : str :=
  ex_header1 ++ [c_nl] ++ ex_init ++ [c_nl] ++ ex_grow ++ [c_nl] ++ ex_skill.
Definition ex_out_full : list (str * dict) :=
  Eval vm_compute in
    match parse_chat ascii_decimal ex_log_full with Ok out => out | Raise _ => [] end.

(** A base-stat line whose attack value has 4301 digits, alone and
    after a header. *)
Definition ex_init_head : str := Eval vm_compute in u "초기 : 레벨 1, 공격력 ".
Definition ex_init_tail : str := Eval vm_compute in u ", 방어력 5, 순발력 7, 내구력 20".
Definition ex_init_long : str := ex_init_head ++ replicate 4301 49%N ++ ex_init_tail.
Definition ex_log_long : str := ex_header ++ [c_nl] ++ ex_init_long.

(** * Properties *)

(** ** Association lists *)

Section AssocFacts.
Context {V : Type}.
Implicit Types (d : list (str * V)) (k : str) (v : V).

Lemma str_eqb_eq k k' : str_eqb k k' = true ↔ k = k'.
Proof. unfold str_eqb. apply bool_decide_eq_true. Qed.

Lemma str_eqb_refl k : str_eqb k k = true.
Proof. by apply str_eqb_eq. Qed.

Lemma str_eqb_ne k k' : k ≠ k' → str_eqb k k' = false.
Proof. intros. unfold str_eqb. by apply bool_decide_eq_false. Qed.

Lemma dget_dset_eq k v d : dget k (dset k v d) = Some v.
Proof.
  induction d as [|[k' v'] d IH]; simpl.
  - by rewrite str_eqb_refl.
  - destruct (str_eqb k k') eqn:E; simpl; rewrite E; done.
Qed.

Lemma dget_dset_ne k k' v d : k ≠ k' → dget k (dset k' v d) = dget k d.
Proof.
  intros Hne. induction d as [|[k2 v2] d IH]; simpl.
  - by rewrite str_eqb_ne.
  - destruct (str_eqb k' k2) eqn:E; simpl.
    + apply str_eqb_eq in E. subst k2. by rewrite !str_eqb_ne.
    + by rewrite IH.
Qed.

Lemma dget_dset k k' v d :
  dget k (dset k' v d) = if decide (k = k') then Some v else dget k d.
Proof.
  case_decide; [subst; apply dget_dset_eq | by apply dget_dset_ne].
Qed.

Lemma dset_same k v d : dget k d = Some v → dset k v d = d.
Proof.
  induction d as [|[k' v'] d IH]; simpl; [done|].
  destruct (str_eqb k k') eqn:E; [by intros [= ->]|].
  intros H. by rewrite IH.
Qed.

Lemma dget_None k d : dget k d = None ↔ k ∉ keys d.
Proof.
  induction d as [|[k' v'] d IH]; simpl.
  - split; [intros _; apply not_elem_of_nil | done].
  - destruct (str_eqb k k') eqn:E.
    + apply str_eqb_eq in E. subst. split; [done|]. intros H. destruct H. left.
    + rewrite IH. rewrite not_elem_of_cons.
      assert (k ≠ k') by (intros ->; by rewrite str_eqb_refl in E). tauto.
Qed.

Lemma dget_Some_keys k d : is_Some (dget k d) ↔ k ∈ keys d.
Proof.
  destruct (dget k d) eqn:E.
  - split; [intros _|by eauto].
    destruct (decide (k ∈ keys d)) as [|Hn]; [done|].
    apply dget_None in Hn. congruence.
  - split; [by intros ?%is_Some_None|]. intros Hin. by apply dget_None in E.
Qed.

Lemma dhas_true k d : dhas k d = true ↔ k ∈ keys d.
Proof.
  unfold dhas. rewrite <- dget_Some_keys.
  destruct (dget k d).
  - split; eauto.
  - split; [done | by intros ?%is_Some_None].
Qed.

Lemma keys_dset_in k v d : k ∈ keys d → keys (dset k v d) = keys d.
Proof.
  induction d as [|[k' v'] d IH]; simpl; [by intros ?%elem_of_nil|].
  destruct (str_eqb k k') eqn:E; simpl; [done|].
  intros [->|Hin]%elem_of_cons; [by rewrite str_eqb_refl in E|].
  by rewrite IH.
Qed.

Lemma keys_dset_notin k v d : k ∉ keys d → keys (dset k v d) = keys d ++ [k].
Proof.
  induction d as [|[k' v'] d IH]; simpl; [done|].
  intros [Hne Hn]%not_elem_of_cons.
  rewrite str_eqb_ne by done. simpl. by rewrite IH.
Qed.

Lemma keys_dset k v d :
  keys (dset k v d) = if decide (k ∈ keys d) then keys d else keys d ++ [k].
Proof. case_decide; [by apply keys_dset_in | by apply keys_dset_notin]. Qed.

Lemma dset_not_nil k v d : dset k v d ≠ [].
Proof. destruct d as [|[k' v'] d]; simpl; [done|]. by destruct (str_eqb k k'). Qed.

Lemma NoDup_keys_dset k v d : NoDup (keys d) → NoDup (keys (dset k v d)).
Proof.
  intros Hnd. rewrite keys_dset. case_decide; [done|].
  apply NoDup_app. split_and!; [done| |apply NoDup_singleton].
  intros x Hx ->%list_elem_of_singleton. done.
Qed.
End AssocFacts.

(** ** The matcher is sound for the declarative reading *)

Lemma many_sound p pos s cs k res :
  many p pos s cs k = Some res →
  ∃ t s', s = t ++ s' ∧ Forall (fun c => p c = true) t
          ∧ k (pos + length t)%nat s' cs = Some res.
Proof.
  revert pos. induction s as [|c s IH]; intros pos; simpl.
  - intros H. exists [], []. simpl. rewrite Nat.add_0_r. done.
  - destruct (p c) eqn:Hp.
    + destruct (many p (S pos) s cs k) eqn:Hm.
      * intros [= ->]. apply IH in Hm as (t & s' & -> & Ht & Hk).
        exists (c :: t), s'. split_and!; [done|by constructor|].
        simpl. by rewrite Nat.add_succ_r.
      * intros H. exists [], (c :: s). simpl. by rewrite Nat.add_0_r.
    + intros H. exists [], (c :: s). simpl. by rewrite Nat.add_0_r.
Qed.

Lemma run_sound r : ∀ pos s cs k res,
  run r pos s cs k = Some res →
  ∃ t s' cs', s = t ++ s' ∧ matches r pos cs t cs'
              ∧ k (pos + length t)%nat s' cs' = Some res.
Proof.
  induction r as [|c|p| |r1 IH1 r2 IH2|r1 IH1|p|g r1 IH1];
    intros pos s cs k res; simpl.
  - intros H. exists [], s, cs. simpl. by rewrite Nat.add_0_r.
  - destruct s as [|c' s]; [done|]. destruct (c =? c') eqn:E; [|done].
    apply N.eqb_eq in E as <-. intros H. exists [c], s, cs. simpl.
    by rewrite Nat.add_1_r.
  - destruct s as [|c' s]; [done|]. destruct (p c') eqn:E; [|done].
    intros H. exists [c'], s, cs. simpl. rewrite Nat.add_1_r. eauto 10.
  - destruct (Nat.eqb pos 0) eqn:E; [|done]. apply Nat.eqb_eq in E.
    intros H. exists [], s, cs. simpl. by rewrite Nat.add_0_r.
  - intros H. apply IH1 in H as (t1 & s1 & c1 & -> & M1 & H).
    apply IH2 in H as (t2 & s2 & c2 & -> & M2 & H).
    exists (t1 ++ t2), s2, c2. rewrite length_app, Nat.add_assoc, <- (assoc _).
    eauto 10.
  - destruct (run r1 pos s cs k) eqn:E.
    + intros [= ->]. apply IH1 in E as (t & s' & cs' & -> & M & H). eauto 10.
    + intros H. exists [], s, cs. simpl. rewrite Nat.add_0_r. eauto.
  - intros H. apply many_sound in H as (t & s' & -> & Ht & H). eauto 10.
  - intros H. apply IH1 in H as (t & s' & cs' & -> & M & H).
    replace (pos + length t - pos)%nat with (length t) in H by lia.
    rewrite take_app_length in H. eauto 10.
Qed.

Lemma search_sound r : ∀ pos s m,
  search_from r pos s = Some m → ∃ pos' t, matches r pos' [] t m.
Proof.
  intros pos s. revert pos. induction s as [|c s IH]; intros pos m; simpl.
  - destruct (run r pos [] [] accept) eqn:E; [|done]. intros [= ->].
    apply run_sound in E as (t & s' & cs' & _ & M & [= ->]). eauto.
  - destruct (run r pos (c :: s) [] accept) eqn:E.
    + intros [= ->].
      apply run_sound in E as (t & s' & cs' & _ & M & [= ->]). eauto.
    + apply IH.
Qed.

Lemma matches_keeps g r : ∀ pos cs t cs',
  mentions g r = false → matches r pos cs t cs' → group g cs' = group g cs.
Proof.
  induction r as [|c|p| |r1 IH1 r2 IH2|r1 IH1|p|g' r1 IH1];
    intros pos cs t cs'; simpl.
  - by intros _ [_ ->].
  - by intros _ [_ ->].
  - by intros _ (c & _ & _ & ->).
  - by intros _ (_ & _ & ->).
  - intros [H1 H2]%orb_false_elim (t1 & t2 & c1 & _ & M1 & M2).
    rewrite (IH2 _ _ _ _ H2 M2). eauto.
  - intros H [M|[_ ->]]; eauto.
  - by intros _ [_ ->].
  - intros [H1 H2]%orb_false_elim (c1 & M & ->). simpl. rewrite H1. eauto.
Qed.

(** A group that takes part in every match is set, to a text its own
    sub-pattern matches. *)
Lemma matches_finds g r : ∀ rg pos cs t cs',
  finds g r = Some rg → matches r pos cs t cs' →
  ∃ tg pos0 c0 c1, group g cs' = Some tg ∧ matches rg pos0 c0 tg c1.
Proof.
  induction r as [|c|p| |r1 IH1 r2 IH2|r1 IH1|p|g' r1 IH1];
    intros rg pos cs t cs'; simpl; try done.
  - intros Hf (t1 & t2 & c1 & _ & M1 & M2).
    destruct (finds g r2) as [x|] eqn:F2.
    + injection Hf as ->. eauto.
    + destruct (mentions g r2) eqn:Hm; [done|].
      rewrite (matches_keeps _ _ _ _ _ _ Hm M2). eauto.
  - intros Hf (c1 & M & ->). simpl. destruct (Nat.eqb g g') eqn:E.
    + injection Hf as ->. eauto 10.
    + eauto.
Qed.

Lemma search_group g r rg s m :
  finds g r = Some rg → re_search r s = Some m →
  ∃ tg pos0 c0 c1, group g m = Some tg ∧ matches rg pos0 c0 tg c1.
Proof.
  intros Hf (pos & t & M)%search_sound. eauto using matches_finds.
Qed.

Lemma match_group g r rg s m :
  finds g r = Some rg → re_match r s = Some m →
  ∃ tg pos0 c0 c1, group g m = Some tg ∧ matches rg pos0 c0 tg c1.
Proof.
  intros Hf (t & s' & cs' & _ & M & [= ->])%run_sound. eauto using matches_finds.
Qed.

(** ** Tokens of a split text *)

Lemma split_acc_tokens s : ∀ acc,
  Forall (fun c => is_space c = false) acc →
  Forall (fun tok => tok ≠ [] ∧ Forall (fun c => is_space c = false) tok)
         (split_acc acc s).
Proof.
  assert (∀ c acc, Forall (fun c => is_space c = false) (c :: acc) →
            rev (c :: acc) ≠ [] ∧ Forall (fun c => is_space c = false) (rev (c :: acc)))
    as Hrev.
  { intros c acc H. split; [|by apply Forall_rev].
    simpl. by destruct (rev acc). }
  induction s as [|c s IH]; intros acc Hacc; simpl.
  - destruct acc; repeat constructor; by apply Hrev.
  - destruct (is_space c) eqn:E.
    + destruct acc; [by apply IH|]. constructor; [by apply Hrev|by apply IH].
    + apply IH. by constructor.
Qed.

Lemma strip_no_space t : Forall (fun c => is_space c = false) t → strip t = t.
Proof.
  assert (∀ x, Forall (fun c => is_space c = false) x → lstrip x = x) as H.
  { intros [|c x]; [done|]. intros [Hc _]%Forall_cons. simpl. by rewrite Hc. }
  intros Ht. unfold strip. rewrite (H t Ht), H by (by apply Forall_rev).
  apply rev_involutive.
Qed.

(** ** Records of the extractor *)

Lemma modify_absent k f ps : dget k ps = None → modify k f ps = Ok ps.
Proof.
  induction ps as [|[k' r] ps IH]; simpl; [done|].
  destruct (str_eqb k k'); [done|]. intros H. by rewrite IH.
Qed.

Lemma modify_present k f ps r :
  dget k ps = Some r → modify k f ps = do r' <- f r; Ok (dset k r' ps).
Proof.
  induction ps as [|[k' r0] ps IH]; simpl; [done|].
  destruct (str_eqb k k'); [by intros [= ->]|].
  intros H. rewrite IH by done. by destruct (f r).
Qed.

Lemma keys_four {V} (d : list (str * V)) k1 k2 k3 k4 :
  keys d = [k1; k2; k3; k4] →
  ∃ v1 v2 v3 v4, d = [(k1, v1); (k2, v2); (k3, v3); (k4, v4)].
Proof.
  destruct d as [|[? v1] [|[? v2] [|[? v3] [|[? v4] [|]]]]]; try done.
  intros [= -> -> -> ->]. eauto.
Qed.

(** Updating a four-key mapping with a value for each of its keys
    replaces it. *)
Lemma dupdate_stats (d : dict) v1 v2 v3 v4 :
  d = [] ∨ keys d = stat_keys →
  dupdate d [(K_atk, v1); (K_def, v2); (K_agi, v3); (K_hp, v4)]
  = [(K_atk, v1); (K_def, v2); (K_agi, v3); (K_hp, v4)].
Proof.
  intros [->|(w1 & w2 & w3 & w4 & ->)%keys_four]; reflexivity.
Qed.

Lemma setdefault_update_stats key cur v1 v2 v3 v4 :
  (∀ v, dget key cur = Some v → ∃ d, v = JDict d ∧ keys d = stat_keys) →
  setdefault_update key [(K_atk, v1); (K_def, v2); (K_agi, v3); (K_hp, v4)] cur
  = Ok (dset key (JDict [(K_atk, v1); (K_def, v2); (K_agi, v3); (K_hp, v4)]) cur).
Proof.
  intros H. unfold setdefault_update. destruct (dget key cur) as [v|] eqn:E.
  - destruct (H v eq_refl) as (d & -> & Hk). by rewrite dupdate_stats by auto.
  - by rewrite dupdate_stats by auto.
Qed.

(** Writing one field of a well-shaped record. *)
Lemma record_ok_dset name r key v :
  record_ok name r → key ∈ record_keys → key ≠ K_name →
  (key = K_grade → v = JStr G_top ∨ v = JStr G_high ∨ v = JStr G_normal) →
  (key = K_s0 → ∃ d, v = JDict d ∧ keys d = stat_keys ∧ Forall is_int (map snd d)) →
  (key = K_sg → ∃ d, v = JDict d ∧ keys d = stat_keys ∧ Forall is_float (map snd d)) →
  (key = K_attr → ∃ d, v = JDict d ∧ keys d = element_keys
                     ∧ Forall is_int (map snd d)
                     ∧ existsb positive (map snd d) = true) →
  (key = K_route → ∃ s, v = JStr s) →
  record_ok name (dset key v r).
Proof.
  intros [] Hin Hn Hg H0 Hs Ha Hr.
  split; try (intros w; rewrite dget_dset; case_decide; [intros [= <-]; auto | auto]).
  - by rewrite dget_dset_ne.
  - rewrite keys_dset. case_decide; [done|].
    intros x [?| ->%list_elem_of_singleton]%elem_of_app; auto.
  - by apply NoDup_keys_dset.
Qed.

Lemma Forall_values_dset {V} (P : V → Prop) k v (d : list (str * V)) :
  Forall P (map snd d) → P v → Forall P (map snd (dset k v d)).
Proof.
  intros Hd Hv. induction d as [|[k' v'] d IH]; simpl.
  - by repeat constructor.
  - inversion_clear Hd. destruct (str_eqb k k'); simpl; constructor; auto.
Qed.

Lemma existsb_values_dset k v (d : dict) :
  k ∈ keys d → positive v = true → existsb positive (map snd (dset k v d)) = true.
Proof.
  intros Hin Hv. induction d as [|[k' v'] d IH]; simpl.
  - by rewrite Hv.
  - destruct (str_eqb k k') eqn:E; simpl.
    + by rewrite Hv.
    + apply elem_of_cons in Hin as [->|Hin]; [by rewrite str_eqb_refl in E|].
      rewrite IH by done. apply orb_true_r.
Qed.

Lemma search_sound_at r : ∀ pos s m,
  search_from r pos s = Some m →
  ∃ pre t post, s = pre ++ t ++ post ∧ matches r (pos + length pre) [] t m.
Proof.
  intros pos s. revert pos. induction s as [|c s IH]; intros pos m; simpl.
  - destruct (run r pos [] [] accept) eqn:E; [|done]. intros [= ->].
    apply run_sound in E as (t & s' & cs' & Hs & M & [= ->]).
    exists [], t, s'. simpl. by rewrite Nat.add_0_r.
  - destruct (run r pos (c :: s) [] accept) eqn:E.
    + intros [= ->].
      apply run_sound in E as (t & s' & cs' & Hs & M & [= ->]).
      exists [], t, s'. simpl. by rewrite Nat.add_0_r.
    + intros (pre & t & post & -> & M)%IH.
      exists (c :: pre), t, post. split; [done|]. simpl.
      by rewrite Nat.add_succ_r.
Qed.

Lemma last_omap_snoc {A B} (f : A → option B) l x :
  last (omap f (l ++ [x]))
  = match f x with Some v => Some v | None => last (omap f l) end.
Proof.
  rewrite omap_app. simpl. destruct (f x); simpl; [apply last_snoc|by rewrite app_nil_r].
Qed.

Lemma omap_none {A B} (f : A → option B) l :
  (∀ x, x ∈ l → f x = None) → omap f l = [].
Proof.
  induction l as [|x l IH]; intros H; simpl; [done|].
  rewrite H by left. apply IH. intros y Hy. apply H. by right.
Qed.

Section ExtractorFacts.
Variable decimal : char -> option N.

(** [int()] on a run of digits: a value when the run is within the
    limit, a [ValueError] when it is not. *)
Lemma int_digits_ok t :
  t ≠ [] → Forall (fun c => is_digit decimal c = true) t →
  ∃ z, (0 ≤ z)%Z ∧ int_digits decimal t = if fits t then Some z else None.
Proof.
  intros Hne Hall.
  assert (∀ a, (0 ≤ a)%Z →
    ∃ z, foldl (fun acc c =>
                  match acc, decimal c with
                  | Some a, Some d => Some (a * 10 + Z.of_N d)%Z
                  | _, _ => None
                  end) (Some a) t = Some z ∧ (0 ≤ z)%Z) as H.
  { clear Hne. induction Hall as [|c t Hc _ IH]; intros a Ha; simpl; [eauto|].
    unfold is_digit in Hc. destruct (decimal c) as [d|]; [|done].
    apply IH. lia. }
  destruct (H 0%Z) as (z & Hz & Hpos); [lia|]. exists z. split; [done|].
  unfold int_digits. destruct t; [done|]. by rewrite Hz.
Qed.

Lemma plus_text p pos cs t cs' :
  matches (plus p) pos cs t cs' → t ≠ [] ∧ Forall (fun c => p c = true) t.
Proof.
  simpl. intros (t1 & t2 & c1 & -> & (c & -> & Hc & _) & Ht & _).
  split; [done|]. by constructor.
Qed.

Lemma int_group_digits g m tg :
  group g m = Some tg → tg ≠ [] → Forall (fun c => is_digit decimal c = true) tg →
  ∃ z, (0 ≤ z)%Z
       ∧ int_group decimal g m = if group_fits g m then Ok z else Raise ValueError.
Proof.
  intros Hg Hne Hall. destruct (int_digits_ok _ Hne Hall) as (z & Hz & E).
  exists z. split; [done|]. unfold int_group, group_fits. rewrite Hg, E.
  by destruct (fits tg).
Qed.

Lemma int_group_search g r s m :
  finds g r = Some (plus (is_digit decimal)) → re_search r s = Some m →
  ∃ z, (0 ≤ z)%Z
       ∧ int_group decimal g m = if group_fits g m then Ok z else Raise ValueError.
Proof.
  intros Hf Hs.
  destruct (search_group _ _ _ _ _ Hf Hs) as (tg & p0 & c0 & c1 & Hg & M).
  apply plus_text in M as [Hne Hall]. by eapply int_group_digits.
Qed.

Lemma int_group_match g r s m :
  finds g r = Some (plus (is_digit decimal)) → re_match r s = Some m →
  ∃ z, (0 ≤ z)%Z
       ∧ int_group decimal g m = if group_fits g m then Ok z else Raise ValueError.
Proof.
  intros Hf Hs.
  destruct (match_group _ _ _ _ _ Hf Hs) as (tg & p0 & c0 & c1 & Hg & M).
  apply plus_text in M as [Hne Hall]. by eapply int_group_digits.
Qed.

Lemma float_group_search g r rg s m :
  finds g r = Some rg → re_search r s = Some m →
  ∃ t, float_group g m = Ok (JFloat t) ∧ group g m = Some t.
Proof.
  intros Hf Hs.
  destruct (search_group _ _ _ _ _ Hf Hs) as (tg & p0 & c0 & c1 & Hg & M).
  exists tg. unfold float_group. by rewrite Hg.
Qed.

Lemma strip_group_search g r rg s m :
  finds g r = Some rg → re_search r s = Some m →
  ∃ t, group g m = Some t ∧ strip_group g m = Ok (strip t).
Proof.
  intros Hf Hs.
  destruct (search_group _ _ _ _ _ Hf Hs) as (tg & p0 & c0 & c1 & Hg & M).
  exists tg. unfold strip_group. by rewrite Hg.
Qed.

(** The name group takes part in every header match. *)
Lemma header_name_group line m :
  re_search (HEADER_RE decimal) line = Some m →
  ∃ t, group 1 m = Some t ∧ strip_group 1 m = Ok (strip t).
Proof. by apply strip_group_search with (rg := plus (fun c => negb (c =? c_rbr))). Qed.

Lemma is_element_keys c : is_element c = true → [c] ∈ element_keys.
Proof.
  unfold is_element. rewrite !orb_true_iff, !bool_decide_eq_true.
  unfold element_keys. intros [[[->| ->]| ->]| ->]; set_solver.
Qed.

(** ** The attribute block *)

Lemma token_match_nil : re_match (ATTR_TOKEN_RE decimal) [] = None.
Proof. reflexivity. Qed.

(** One token: it sets the value of its element, or is skipped, or is
    the [ValueError] of a number beyond the limit. *)
Lemma attr_token_spec attr tok :
  keys attr = element_keys → Forall is_int (map snd attr) →
  match attr_token decimal attr tok with
  | Ok attr' =>
      token_fits decimal tok = true ∧ keys attr' = element_keys
      ∧ Forall is_int (map snd attr')
      ∧ ∀ el, dget el attr'
              = match token_value decimal el tok with
                | Some z => Some (JInt z)
                | None => dget el attr
                end
  | Raise e => e = ValueError ∧ token_fits decimal tok = false
  end.
Proof.
  intros Hk Hv. unfold attr_token, token_fits, token_value.
  destruct (strip tok) as [|c0 tk] eqn:Et.
  { rewrite token_match_nil. done. }
  destruct (re_match (ATTR_TOKEN_RE decimal) (c0 :: tk)) as [m|] eqn:Em; [|done].
  destruct (int_group_match 2 (ATTR_TOKEN_RE decimal) _ _ eq_refl Em)
    as (z & Hz & E).
  destruct (match_group 1 (ATTR_TOKEN_RE decimal) _ _ _ eq_refl Em)
    as (tg & p0 & c1 & c2 & Hg & M).
  simpl in M. destruct M as (c & -> & Hc%is_element_keys & _).
  rewrite E, Hg. destruct (group_fits 2 m) eqn:Hgf; simpl; [|done].
  split_and!; [done| | |].
  - rewrite keys_dset_in; [done|]. by rewrite Hk.
  - apply Forall_values_dset; [done|]. by exists z.
  - intros el. rewrite dget_dset, Hg, E. simpl.
    case_bool_decide; case_decide; by simplify_eq.
Qed.

Lemma token_value_nonneg el tok z : token_value decimal el tok = Some z → (0 ≤ z)%Z.
Proof.
  unfold token_value.
  destruct (re_match (ATTR_TOKEN_RE decimal) (strip tok)) as [m|] eqn:Em; [|done].
  destruct (int_group_match 2 (ATTR_TOKEN_RE decimal) _ _ eq_refl Em)
    as (z' & Hz & E).
  simpl. destruct (group 1 m); [|done]. simpl. case_bool_decide; [|done].
  rewrite E. destruct (group_fits 2 m); simpl; [|done]. by intros [= <-].
Qed.

Lemma attr_tokens_spec toks : ∀ attr,
  keys attr = element_keys → Forall is_int (map snd attr) →
  match foldl (fun acc tok => do a <- acc; attr_token decimal a tok) (Ok attr) toks with
  | Ok attr' =>
      forallb (token_fits decimal) toks = true ∧ keys attr' = element_keys
      ∧ Forall is_int (map snd attr')
      ∧ ∀ el, dget el attr'
              = match last (omap (token_value decimal el) toks) with
                | Some z => Some (JInt z)
                | None => dget el attr
                end
  | Raise e => e = ValueError ∧ forallb (token_fits decimal) toks = false
  end.
Proof.
  induction toks as [|tok toks IH] using rev_ind; intros attr Hk Hv; [done|].
  rewrite foldl_app, forallb_app. simpl. specialize (IH attr Hk Hv). revert IH.
  destruct (foldl (fun acc tok => do a <- acc; attr_token decimal a tok) (Ok attr) toks)
    as [a1|e]; simpl; intros IH.
  - destruct IH as (Hf & Hk1 & Hv1 & Hd1). rewrite Hf. simpl.
    pose proof (attr_token_spec a1 tok Hk1 Hv1) as Ht.
    destruct (attr_token decimal a1 tok) as [a2|e2].
    + destruct Ht as (Hft & Hk2 & Hv2 & Hd2). rewrite Hft. split_and!; [done..|].
      intros el. rewrite Hd2, Hd1, last_omap_snoc.
      by destruct (token_value decimal el tok).
    + destruct Ht as [-> Hft]. by rewrite Hft.
  - destruct IH as [-> Hf]. by rewrite Hf.
Qed.

Lemma attr_values_ok seg :
  keys (attr_values decimal seg) = element_keys
  ∧ Forall is_int (map snd (attr_values decimal seg)).
Proof.
  split; [done|].
  assert (∀ el, is_int (JInt (attr_value decimal seg el))) as H.
  { intros el. eexists. split; [done|]. unfold attr_value.
    destruct (last _) as [z|] eqn:E; simpl; [|done].
    apply last_Some_elem_of, list_elem_of_omap in E as (tok & _ & E).
    by eapply token_value_nonneg. }
  repeat constructor; apply H.
Qed.

(** The block is the four values read off the tokens, unless a token
    holds a number beyond the limit. *)
Lemma attr_block_spec seg :
  attr_block decimal seg
  = if forallb (token_fits decimal) (split seg)
    then Ok (attr_values decimal seg) else Raise ValueError.
Proof.
  assert (Forall is_int (map snd attr_zero)) as Hv.
  { repeat constructor; by exists 0%Z. }
  pose proof (attr_tokens_spec (split seg) attr_zero eq_refl Hv) as H.
  match type of H with
  | match ?x with _ => _ end =>
      assert (attr_block decimal seg = x) as -> by reflexivity;
      destruct x as [attr|e]
  end.
  - destruct H as (-> & Hk & _ & Hd). f_equal.
    apply keys_four in Hk as (v1 & v2 & v3 & v4 & ->).
    pose proof (Hd K_earth) as H1. pose proof (Hd K_water) as H2.
    pose proof (Hd K_fire) as H3. pose proof (Hd K_wind) as H4.
    unfold attr_values, attr_value.
    change (dget K_earth [(K_earth, v1); (K_water, v2); (K_fire, v3); (K_wind, v4)])
      with (Some v1) in H1.
    change (dget K_water [(K_earth, v1); (K_water, v2); (K_fire, v3); (K_wind, v4)])
      with (Some v2) in H2.
    change (dget K_fire [(K_earth, v1); (K_water, v2); (K_fire, v3); (K_wind, v4)])
      with (Some v3) in H3.
    change (dget K_wind [(K_earth, v1); (K_water, v2); (K_fire, v3); (K_wind, v4)])
      with (Some v4) in H4.
    destruct (last (omap (token_value decimal K_earth) (split seg)));
      destruct (last (omap (token_value decimal K_water) (split seg)));
      destruct (last (omap (token_value decimal K_fire) (split seg)));
      destruct (last (omap (token_value decimal K_wind) (split seg)));
      simpl in *; by simplify_eq.
  - destruct H as [-> ->]. done.
Qed.

(** Step 4-1: nothing without a segment or when no value is positive,
    the whole four-key block otherwise. *)
Lemma do_attr_eq line cur :
  do_attr decimal line cur
  = match m ← re_search ATTR_SEG_RE line; group 1 m with
    | None => Ok cur
    | Some seg =>
        if forallb (token_fits decimal) (split seg)
        then Ok (if existsb positive (map snd (attr_values decimal seg))
                 then dset K_attr (JDict (attr_values decimal seg)) cur else cur)
        else Raise ValueError
    end.
Proof.
  unfold do_attr.
  destruct (re_search ATTR_SEG_RE line) as [m|] eqn:Es; [|done].
  destruct (search_group 1 ATTR_SEG_RE _ _ _ eq_refl Es)
    as (seg & p0 & c0 & c1 & Hg & _).
  simpl. rewrite Hg, attr_block_spec.
  destruct (forallb (token_fits decimal) (split seg)); [|done]. simpl.
  by destruct (_ || _).
Qed.

Lemma do_attr_ok name line cur cur' :
  record_ok name cur → do_attr decimal line cur = Ok cur' → record_ok name cur'.
Proof.
  intros Hok. rewrite do_attr_eq.
  destruct (re_search ATTR_SEG_RE line ≫= group 1) as [seg|]; [|by intros [= <-]].
  destruct (forallb (token_fits decimal) (split seg)); [|done].
  destruct (existsb positive (map snd (attr_values decimal seg))) eqn:Hp;
    intros [= <-]; [|done].
  destruct (attr_values_ok seg) as [Hk Hv].
  apply record_ok_dset; try done; [set_solver|by eauto 10].
Qed.

Lemma do_route_ok name line cur :
  record_ok name cur → ∃ cur', do_route line cur = Ok cur' ∧ record_ok name cur'.
Proof.
  intros Hok. unfold do_route.
  destruct (re_search ROUTE_RE line) as [m|] eqn:Es; [|by eauto].
  destruct (strip_group_search 1 ROUTE_RE _ _ _ eq_refl Es) as (t & _ & ->). simpl.
  eexists; split; [done|].
  apply record_ok_dset; try done; [set_solver|by eauto].
Qed.

(** ** The loop body on a line that is not a header *)

Lemma init_groups line m :
  re_search (INIT_RE decimal) line = Some m →
  ∃ a d g h,
    ((0 ≤ a)%Z ∧ (0 ≤ d)%Z ∧ (0 ≤ g)%Z ∧ (0 ≤ h)%Z)
    ∧ int_group decimal 1 m = (if group_fits 1 m then Ok a else Raise ValueError)
    ∧ int_group decimal 2 m = (if group_fits 2 m then Ok d else Raise ValueError)
    ∧ int_group decimal 3 m = (if group_fits 3 m then Ok g else Raise ValueError)
    ∧ int_group decimal 4 m = (if group_fits 4 m then Ok h else Raise ValueError).
Proof.
  intros Hs.
  destruct (int_group_search 1 (INIT_RE decimal) _ _ eq_refl Hs) as (a & ? & ?).
  destruct (int_group_search 2 (INIT_RE decimal) _ _ eq_refl Hs) as (d & ? & ?).
  destruct (int_group_search 3 (INIT_RE decimal) _ _ eq_refl Hs) as (g & ? & ?).
  destruct (int_group_search 4 (INIT_RE decimal) _ _ eq_refl Hs) as (h & ? & ?).
  exists a, d, g, h. done.
Qed.

Lemma grow_groups line m :
  re_search (GROW_RE decimal) line = Some m →
  ∃ a d g h,
    group 1 m = Some a ∧ group 2 m = Some d
    ∧ group 3 m = Some g ∧ group 4 m = Some h.
Proof.
  intros Hs.
  destruct (float_group_search 1 (GROW_RE decimal) _ _ _ eq_refl Hs) as (a & _ & ?).
  destruct (float_group_search 2 (GROW_RE decimal) _ _ _ eq_refl Hs) as (d & _ & ?).
  destruct (float_group_search 3 (GROW_RE decimal) _ _ _ eq_refl Hs) as (g & _ & ?).
  destruct (float_group_search 4 (GROW_RE decimal) _ _ _ eq_refl Hs) as (h & _ & ?).
  exists a, d, g, h. done.
Qed.

(** A base-stat line writes [s0], from the four groups of the match,
    unless one of them is beyond the limit. *)
Lemma field_line_init line cur m :
  re_search (INIT_RE decimal) line = Some m →
  ∃ a d g h,
    ((0 ≤ a)%Z ∧ (0 ≤ d)%Z ∧ (0 ≤ g)%Z ∧ (0 ≤ h)%Z)
    ∧ field_line decimal line cur
      = (if group_fits 1 m && group_fits 2 m && group_fits 3 m && group_fits 4 m
         then setdefault_update K_s0
                [(K_atk, JInt a); (K_def, JInt d); (K_agi, JInt g); (K_hp, JInt h)] cur
         else Raise ValueError)
    ∧ (group_fits 1 m && group_fits 2 m && group_fits 3 m && group_fits 4 m = true →
       int_group decimal 1 m = Ok a ∧ int_group decimal 2 m = Ok d
       ∧ int_group decimal 3 m = Ok g ∧ int_group decimal 4 m = Ok h).
Proof.
  intros Hs.
  destruct (init_groups _ _ Hs) as (a & d & g & h & Hpos & Ha & Hd & Hg & Hh).
  exists a, d, g, h. split; [done|].
  unfold field_line. rewrite Hs, Ha, Hd, Hg, Hh.
  destruct (group_fits 1 m), (group_fits 2 m), (group_fits 3 m), (group_fits 4 m);
    simpl; done.
Qed.

(** A growth-stat line writes [sg], from the four groups of the match. *)
Lemma field_line_grow line cur m :
  re_search (INIT_RE decimal) line = None →
  re_search (GROW_RE decimal) line = Some m →
  ∃ a d g h,
    group 1 m = Some a ∧ group 2 m = Some d
    ∧ group 3 m = Some g ∧ group 4 m = Some h
    ∧ field_line decimal line cur
      = setdefault_update K_sg
          [(K_atk, JFloat a); (K_def, JFloat d); (K_agi, JFloat g); (K_hp, JFloat h)]
          cur.
Proof.
  intros Hi Hs. destruct (grow_groups _ _ Hs) as (a & d & g & h & Ha & Hd & Hg & Hh).
  exists a, d, g, h. split_and!; try done.
  unfold field_line, float_group. by rewrite Hi, Hs, Ha, Hd, Hg, Hh.
Qed.

(** The four kinds of line, on a well-shaped record: the line is read
    exactly when its numbers are within the limit, and [int()] raises a
    [ValueError] when they are not. *)
Lemma field_line_cases name raw r :
  record_ok name r →
  match field_line decimal (strip raw) r with
  | Ok r' =>
      line_fits decimal raw = true ∧ record_ok name r'
      ∧ field_step decimal (strip raw) r r'
  | Raise e => e = ValueError ∧ line_fits decimal raw = false
  end.
Proof.
  intros Hok. unfold line_fits, attr_segment, skill_line.
  destruct (re_search (INIT_RE decimal) (strip raw)) as [m|] eqn:Ei.
  { destruct (field_line_init (strip raw) r m Ei)
      as (a & d & g & h & (Ha & Hd & Hg & Hh) & -> & Hint).
    destruct (group_fits 1 m && group_fits 2 m && group_fits 3 m && group_fits 4 m);
      [|done].
    destruct (Hint eq_refl) as (Ia & Id & Ig & Ih).
    rewrite setdefault_update_stats.
    2:{ intros v Hv. destruct (rec_s0 _ _ Hok v Hv) as (x & ? & ? & ?). eauto. }
    split_and!; [done| |by eapply step_init].
    apply record_ok_dset; try done; [set_solver|].
    intros _. eexists; split_and!; [done..|].
    repeat constructor; eexists; eauto. }
  destruct (re_search (GROW_RE decimal) (strip raw)) as [m|] eqn:Eg.
  { destruct (field_line_grow (strip raw) r m Ei Eg)
      as (a & d & g & h & Ha & Hd & Hg & Hh & ->).
    rewrite setdefault_update_stats.
    2:{ intros v Hv. destruct (rec_sg _ _ Hok v Hv) as (x & ? & ? & ?). eauto. }
    split_and!; [done| |by eapply step_grow].
    apply record_ok_dset; try done; [set_solver|].
    intros _. eexists; split_and!; [done..|].
    repeat constructor; eexists; eauto. }
  unfold field_line. rewrite Ei, Eg.
  destruct (contains W_skill (strip raw) && contains W_attr (strip raw)) eqn:Ec.
  2:{ split_and!; [done..|]. by apply step_other. }
  pose proof (do_attr_eq (strip raw) r) as Ha.
  destruct (re_search ATTR_SEG_RE (strip raw) ≫= group 1) as [seg|].
  - destruct (forallb (token_fits decimal) (split seg)).
    + rewrite Ha. cbv beta iota delta [bind].
      assert (record_ok name
                (if existsb positive (map snd (attr_values decimal seg))
                 then dset K_attr (JDict (attr_values decimal seg)) r else r)) as Hok1.
      { by eapply do_attr_ok. }
      destruct (do_route_ok name (strip raw) _ Hok1) as (r' & Hr & Hok').
      match goal with
      | |- match ?x with _ => _ end => replace x with (Ok r') by (symmetry; exact Hr)
      end.
      split_and!; [done..|]. by eapply step_skill.
    + by rewrite Ha.
  - rewrite Ha. simpl.
    destruct (do_route_ok name (strip raw) _ Hok) as (r' & Hr & Hok').
    rewrite Hr. split_and!; [done..|]. by eapply step_skill.
Qed.

Lemma record_ok_new name : record_ok name [(K_name, JStr name)].
Proof.
  split; try done.
  - intros x ->%list_elem_of_singleton. unfold record_keys. left.
  - apply NoDup_singleton.
Qed.

Lemma grade_digit_to_str_cases d :
  grade_digit_to_str d = G_top ∨ grade_digit_to_str d = G_high
  ∨ grade_digit_to_str d = G_normal.
Proof. unfold grade_digit_to_str. repeat case_bool_decide; auto. Qed.

Lemma dset_dset {V} k (a b : V) d : dset k a (dset k b d) = dset k a d.
Proof.
  induction d as [|[k' v'] d IH]; simpl.
  - by rewrite str_eqb_refl.
  - destruct (str_eqb k k') eqn:Ek; simpl; rewrite Ek; [done|by rewrite IH].
Qed.

(** What the header branch does to [pets]. *)
Lemma header_line_spec name gd st :
  header_line name gd st
  = Ok (State (dset name
                 (set_grade gd (default [(K_name, JStr name)] (dget name (pets st))))
                 (pets st))
              (Some name)).
Proof.
  unfold header_line.
  change (dhas name (pets st))
    with (match dget name (pets st) with Some _ => true | None => false end).
  destruct (dget name (pets st)) as [r|] eqn:E; simpl.
  - by rewrite (modify_present _ _ _ r) by done.
  - rewrite (modify_present _ _ _ [(K_name, JStr name)]) by apply dget_dset_eq.
    simpl. by rewrite dset_dset.
Qed.

Lemma pets_ok_dset ps n r :
  NoDup (keys ps) → (∀ n r, dget n ps = Some r → record_ok n r) → record_ok n r →
  NoDup (keys (dset n r ps)) ∧ (∀ n' r', dget n' (dset n r ps) = Some r' → record_ok n' r').
Proof.
  intros Hnd Hall Hr. split; [by apply NoDup_keys_dset|].
  intros n' r'. rewrite dget_dset. case_decide; [by intros [= <-]; subst|auto].
Qed.

Lemma header_line_ok name gd st :
  state_ok st → ∃ st', header_line name gd st = Ok st' ∧ state_ok st'.
Proof.
  intros [Hnd Hrec Hcur]. rewrite header_line_spec. eexists; split; [done|].
  set (r0 := default [(K_name, JStr name)] (dget name (pets st))).
  assert (record_ok name r0) as H0.
  { unfold r0. destruct (dget name (pets st)) eqn:E; simpl; [auto|apply record_ok_new]. }
  assert (record_ok name (set_grade gd r0)) as H1.
  { unfold set_grade. destruct (_ || _); [|done].
    apply record_ok_dset; try done; [set_solver|].
    intros _. destruct (grade_digit_to_str_cases gd) as [->|[->| ->]]; auto. }
  destruct (pets_ok_dset (pets st) name _ Hnd Hrec H1) as [Hnd' Hrec'].
  split; simpl; [done..|].
  intros c [= <-]. apply dget_Some_keys. rewrite dget_dset_eq. eauto.
Qed.

Lemma state_ok_init : state_ok (State [] None).
Proof. split; simpl; [constructor|done|done]. Qed.

Lemma header_search_nil : re_search (HEADER_RE decimal) [] = None.
Proof. reflexivity. Qed.

(** The loop body on a header line. *)
Lemma parse_line_header st raw m name :
  re_search (HEADER_RE decimal) (strip raw) = Some m →
  strip_group 1 m = Ok name →
  parse_line decimal st raw = header_line name (group 2 m) st.
Proof.
  intros Hs Hn. unfold parse_line.
  destruct (strip raw) as [|c0 l0] eqn:El; [by rewrite header_search_nil in Hs|].
  by rewrite Hs, Hn.
Qed.

(** The loop body on any other line, when a record is current. *)
Lemma parse_line_field st raw c r :
  strip raw ≠ [] →
  re_search (HEADER_RE decimal) (strip raw) = None →
  current st = Some c → dget c (pets st) = Some r →
  parse_line decimal st raw
  = do r' <- field_line decimal (strip raw) r; Ok (State (dset c r' (pets st)) (Some c)).
Proof.
  intros Hne Hs Hc Hr. unfold parse_line.
  destruct (strip raw) as [|c0 l0] eqn:El; [done|].
  rewrite Hs, Hc, (modify_present _ _ _ r) by done.
  by destruct (field_line decimal (c0 :: l0) r).
Qed.

Lemma header_name_None raw :
  header_name decimal raw = None ↔ re_search (HEADER_RE decimal) (strip raw) = None.
Proof.
  unfold header_name.
  destruct (re_search (HEADER_RE decimal) (strip raw)) as [m|] eqn:E; [|done].
  destruct (header_name_group _ _ E) as (t & -> & _). done.
Qed.

Lemma line_fits_blank raw : strip raw = [] → line_fits decimal raw = true.
Proof. intros H. unfold line_fits, attr_segment, skill_line. rewrite H. done. Qed.

(** The loop body, on a well-shaped state: one of the three steps, or
    the [ValueError] of a number beyond the limit. *)
Lemma parse_line_cases st raw :
  state_ok st →
  match parse_line decimal st raw with
  | Ok st' =>
      reads_ok decimal (current st) raw = true ∧ state_ok st'
      ∧ line_step decimal st raw st'
  | Raise e => e = ValueError ∧ reads_ok decimal (current st) raw = false
  end.
Proof.
  intros Hok. unfold reads_ok.
  destruct (re_search (HEADER_RE decimal) (strip raw)) as [m|] eqn:Eh.
  { destruct (header_name_group _ _ Eh) as (t & Hg & Hn).
    assert (header_name decimal raw = Some (strip t)) as Hhn.
    { unfold header_name. by rewrite Eh, Hg. }
    rewrite (parse_line_header st raw m _ Eh Hn), Hhn.
    destruct (header_line_ok (strip t) (group 2 m) st Hok) as (st' & Hp & Hok').
    rewrite Hp. rewrite header_line_spec in Hp. injection Hp as <-.
    split_and!; [by destruct (current st)|done|].
    by eapply step_header. }
  assert (header_name decimal raw = None) as Hhn by (by apply header_name_None).
  rewrite Hhn.
  destruct (strip raw) as [|c0 l0] eqn:El.
  { unfold parse_line. rewrite El. split_and!; [|done|apply step_skip; auto].
    destruct (current st); [|done]. by apply line_fits_blank. }
  destruct (current st) as [c|] eqn:Ec.
  2:{ unfold parse_line. rewrite El, Eh, Ec. split_and!; [done..|]. apply step_skip; auto. }
  destruct Hok as [Hnd Hrec Hcur].
  destruct (proj2 (dget_Some_keys c (pets st)) (Hcur c Ec)) as [r Hr].
  rewrite (parse_line_field st raw c r) by (rewrite ?El; done).
  pose proof (field_line_cases c raw r (Hrec _ _ Hr)) as Hf.
  destruct (field_line decimal (strip raw) r) as [r'|e]; simpl; [|done].
  destruct Hf as (Hfit & Hr' & Hstep). split; [done|].
  destruct (pets_ok_dset (pets st) c r' Hnd Hrec Hr') as [Hnd' Hrec'].
  split.
  - split; simpl; [done..|].
    intros c' [= <-]. apply dget_Some_keys. rewrite dget_dset_eq. eauto.
  - eapply step_field; try done. by rewrite El.
Qed.

Lemma parse_lines_snoc st ls raw :
  parse_lines decimal st (ls ++ [raw])
  = do s <- parse_lines decimal st ls; parse_line decimal s raw.
Proof. unfold parse_lines. by rewrite foldl_app. Qed.

Lemma owner_snoc ls raw :
  owner decimal (ls ++ [raw])
  = match header_name decimal raw with
    | Some n => Some n
    | None => owner decimal ls
    end.
Proof.
  unfold owner. rewrite omap_app. simpl.
  destruct (header_name decimal raw); simpl; [apply last_snoc|by rewrite app_nil_r].
Qed.

Lemma log_fits_snoc ls raw :
  log_fits decimal (ls ++ [raw])
  ↔ log_fits decimal ls ∧ reads_ok decimal (owner decimal ls) raw = true.
Proof.
  unfold log_fits. split.
  - intros H. split.
    + intros i raw' Hi. pose proof (lookup_lt_Some _ _ _ Hi) as Hlt.
      specialize (H i raw'). rewrite lookup_app_l, take_app_le in H by lia. auto.
    + specialize (H (length ls) raw).
      rewrite list_lookup_middle, take_app_length in H by done. auto.
  - intros [H1 H2] i raw' Hi.
    pose proof (lookup_lt_Some _ _ _ Hi) as Hlt. rewrite length_app in Hlt. simpl in Hlt.
    destruct (decide (i < length ls)%nat) as [Hl|Hl].
    + rewrite lookup_app_l in Hi by done. rewrite take_app_le by lia. auto.
    + assert (i = length ls) as -> by lia.
      rewrite list_lookup_middle in Hi by done. injection Hi as <-.
      by rewrite take_app_length.
Qed.

Lemma line_step_current st raw st' :
  line_step decimal st raw st' →
  current st' = match header_name decimal raw with
                | Some n => Some n
                | None => current st
                end.
Proof. by intros [m name _ Hn ->|Hn _ ->|c r r' Hn _ Hc _ _ _ ->]; rewrite Hn. Qed.

(** Induction over the lines read so far: the scan returns exactly when
    no line converts a number beyond the limit, and raises a
    [ValueError] otherwise. *)
Lemma parse_lines_reach (I : list str → state → Prop) :
  I [] (State [] None) →
  (∀ ls st raw st',
     state_ok st → I ls st → line_step decimal st raw st' → I (ls ++ [raw]) st') →
  ∀ ls,
    match parse_lines decimal (State [] None) ls with
    | Ok st =>
        log_fits decimal ls ∧ state_ok st ∧ current st = owner decimal ls ∧ I ls st
    | Raise e => e = ValueError ∧ ¬ log_fits decimal ls
    end.
Proof.
  intros H0 Hstep ls. induction ls as [|raw ls IH] using rev_ind.
  - split_and!; [by intros i raw|apply state_ok_init|done|done].
  - rewrite parse_lines_snoc.
    destruct (parse_lines decimal (State [] None) ls) as [st|e]; simpl.
    + destruct IH as (Hfit & Hok & Hcur & HI).
      pose proof (parse_line_cases st raw Hok) as Hp. rewrite Hcur in Hp.
      destruct (parse_line decimal st raw) as [st'|e].
      * destruct Hp as (Hr & Hok' & Hs). rewrite log_fits_snoc.
        split_and!; [done..| |by eauto].
        by rewrite (line_step_current _ _ _ Hs), owner_snoc, Hcur.
      * destruct Hp as [-> Hr]. split; [done|].
        rewrite log_fits_snoc. intros [_ ?]. congruence.
    + destruct IH as [-> Hn]. split; [done|]. rewrite log_fits_snoc. by intros [? _].
Qed.

(** What the scan has reached when it returns. *)
Lemma parse_lines_state ls st :
  parse_lines decimal (State [] None) ls = Ok st →
  log_fits decimal ls ∧ state_ok st ∧ current st = owner decimal ls.
Proof.
  intros Hp. pose proof (parse_lines_reach (fun _ _ => True) I (fun _ _ _ _ _ _ _ => I) ls)
    as H.
  rewrite Hp in H. tauto.
Qed.

Lemma parse_line_step st raw st' :
  state_ok st → parse_line decimal st raw = Ok st' →
  state_ok st' ∧ line_step decimal st raw st'.
Proof.
  intros Hok Hp. pose proof (parse_line_cases st raw Hok) as H.
  rewrite Hp in H. tauto.
Qed.

(** [parse_chat] returns exactly when no line converts a number beyond
    the limit, and its records then have the shape of the data model;
    otherwise it raises a [ValueError]. *)
Lemma parse_chat_result text :
  match parse_chat decimal text with
  | Ok out =>
      log_fits decimal (splitlines text)
      ∧ NoDup (keys out) ∧ ∀ n r, dget n out = Some r → record_ok n r
  | Raise e => e = ValueError ∧ ¬ log_fits decimal (splitlines text)
  end.
Proof.
  unfold parse_chat.
  pose proof (parse_lines_reach (fun _ _ => True) I (fun _ _ _ _ _ _ _ => I)
                (splitlines text)) as H.
  destruct (parse_lines decimal (State [] None) (splitlines text)) as [st|e]; simpl.
  - destruct H as (? & [? ? ?] & _). done.
  - done.
Qed.

Lemma parse_chat_lines text out :
  parse_chat decimal text = Ok out →
  ∃ st, parse_lines decimal (State [] None) (splitlines text) = Ok st ∧ out = pets st.
Proof.
  unfold parse_chat.
  destruct (parse_lines decimal (State [] None) (splitlines text)) as [st|e]; simpl;
    [|done].
  intros [= <-]. eauto.
Qed.

Lemma dhas_false {V} k (d : list (str * V)) : dhas k d = false ↔ dget k d = None.
Proof. unfold dhas. destruct (dget k d); split; done. Qed.

Lemma dget_set_grade gd r :
  dget K_grade (set_grade gd r)
  = if bool_decide (gd ≠ None) || bool_decide (dget K_grade r = None)
    then Some (JStr (grade_digit_to_str gd)) else dget K_grade r.
Proof.
  unfold set_grade.
  assert (negb (dhas K_grade r) = bool_decide (dget K_grade r = None)) as ->.
  { unfold dhas. by destruct (dget K_grade r). }
  destruct (_ || _); [apply dget_dset_eq|done].
Qed.

(** C1. On a header line the record of the line's name becomes the
    current one, and its grade is written exactly when the header has a
    grade digit or the record has no grade yet (in particular when the
    record is new); the value written is the tier of the digit: "1" is
    the top tier, "2" the high tier, and any other digit, or none, the
    normal tier. So a header without a digit keeps a grade that is
    already there, and a header with a digit other than 1 and 2 replaces
    it by the normal tier. *)
Theorem header_grade_update st raw m name :
  re_search (HEADER_RE decimal) (strip raw) = Some m →
  strip_group 1 m = Ok name →
  ∃ st' r',
    parse_line decimal st raw = Ok st'
    ∧ current st' = Some name
    ∧ dget name (pets st') = Some r'
    ∧ dget K_grade r'
      = (if bool_decide (group 2 m ≠ None)
            || bool_decide (dget name (pets st) ≫= dget K_grade = None)
         then Some (JStr (grade_digit_to_str (group 2 m)))
         else dget name (pets st) ≫= dget K_grade)
    ∧ grade_digit_to_str (Some [49]) = G_top
    ∧ grade_digit_to_str (Some [50]) = G_high
    ∧ (∀ d, d ≠ Some [49] → d ≠ Some [50] → grade_digit_to_str d = G_normal)
    ∧ (∀ v, group 2 m = None → dget name (pets st) ≫= dget K_grade = Some v →
            dget K_grade r' = Some v)
    ∧ (∀ d, group 2 m = Some d → d ≠ [49] → d ≠ [50] →
            dget K_grade r' = Some (JStr G_normal)).
Proof.
  intros Hs Hn. rewrite (parse_line_header st raw m name Hs Hn), header_line_spec.
  set (r0 := default [(K_name, JStr name)] (dget name (pets st))).
  assert (dget K_grade r0 = dget name (pets st) ≫= dget K_grade) as Hold.
  { unfold r0. by destruct (dget name (pets st)). }
  assert (∀ d, d ≠ Some [49] → d ≠ Some [50] → grade_digit_to_str d = G_normal) as Hnorm.
  { intros d H1 H2. unfold grade_digit_to_str.
    by rewrite !bool_decide_eq_false_2. }
  exists (State (dset name (set_grade (group 2 m) r0) (pets st)) (Some name)),
    (set_grade (group 2 m) r0).
  simpl. rewrite dget_dset_eq, dget_set_grade, Hold.
  split_and!; try done.
  - intros v Hg Hv. by rewrite Hg, Hv.
  - intros d Hg H1 H2. rewrite Hg. simpl.
    rewrite Hnorm; [done|congruence..].
Qed.

Lemma do_route_spec line cur :
  do_route line cur = Ok cur ∨ ∃ s, do_route line cur = Ok (dset K_route (JStr s) cur).
Proof.
  unfold do_route. destruct (re_search ROUTE_RE line) as [m|] eqn:Es; [|by left].
  destruct (strip_group_search 1 ROUTE_RE _ _ _ eq_refl Es) as (t & _ & ->). eauto.
Qed.

Lemma do_attr_cases line r r1 :
  do_attr decimal line r = Ok r1 →
  match re_search ATTR_SEG_RE line ≫= group 1 with
  | Some seg =>
      forallb (token_fits decimal) (split seg) = true
      ∧ r1 = if existsb positive (map snd (attr_values decimal seg))
             then dset K_attr (JDict (attr_values decimal seg)) r else r
  | None => r1 = r
  end.
Proof.
  rewrite do_attr_eq.
  destruct (re_search ATTR_SEG_RE line ≫= group 1) as [seg|]; [|by intros [= <-]].
  destruct (forallb (token_fits decimal) (split seg)); [|done]. by intros [= <-].
Qed.

Lemma first_seen_snoc l n :
  first_seen (l ++ [n])
  = if decide (n ∈ first_seen l) then first_seen l else first_seen l ++ [n].
Proof. unfold first_seen. by rewrite foldl_app. Qed.

Lemma elem_of_first_seen l n : n ∈ first_seen l ↔ n ∈ l.
Proof.
  induction l as [|x l IH] using rev_ind; [done|].
  rewrite first_seen_snoc. case_decide; set_solver.
Qed.

Lemma dset_absent {V} k (v : V) d : dget k d = None → dset k v d = d ++ [(k, v)].
Proof.
  induction d as [|[k' v'] d IH]; simpl; [done|].
  destruct (str_eqb k k'); [done|]. intros H. by rewrite IH.
Qed.

Lemma dset_keeps {V} k k' (v : V) d :
  is_Some (dget k d) → is_Some (dget k (dset k' v d)).
Proof. rewrite dget_dset. case_decide; eauto. Qed.

Lemma set_grade_keeps gd r k : is_Some (dget k r) → is_Some (dget k (set_grade gd r)).
Proof. unfold set_grade. destruct (_ || _); [apply dset_keeps|done]. Qed.

Lemma dget_set_grade_ne gd r k : k ≠ K_grade → dget k (set_grade gd r) = dget k r.
Proof.
  intros Hne. unfold set_grade. destruct (_ || _); [by apply dget_dset_ne|done].
Qed.

Lemma do_attr_frame line r r1 k :
  do_attr decimal line r = Ok r1 → k ≠ K_attr → dget k r1 = dget k r.
Proof.
  intros Ha%do_attr_cases Hne.
  destruct (re_search ATTR_SEG_RE line ≫= group 1) as [seg|]; [|by subst].
  destruct Ha as [_ ->].
  destruct (existsb positive (map snd (attr_values decimal seg)));
    [by apply dget_dset_ne|done].
Qed.

Lemma do_attr_keeps line r r1 k :
  do_attr decimal line r = Ok r1 → is_Some (dget k r) → is_Some (dget k r1).
Proof.
  intros Ha%do_attr_cases Hk.
  destruct (re_search ATTR_SEG_RE line ≫= group 1) as [seg|]; [|by subst].
  destruct Ha as [_ ->].
  destruct (existsb positive (map snd (attr_values decimal seg)));
    [by apply dset_keeps|done].
Qed.

Lemma do_route_frame line r1 r' k :
  do_route line r1 = Ok r' → k ≠ K_route → dget k r' = dget k r1.
Proof.
  intros Hr Hne. destruct (do_route_spec line r1) as [E|[s E]];
    rewrite E in Hr; injection Hr as <-; [done|by apply dget_dset_ne].
Qed.

Lemma field_step_keeps line r r' k :
  field_step decimal line r r' → is_Some (dget k r) → is_Some (dget k r').
Proof.
  intros [m a d g h _ _ _ _ _ ->|m a d g h _ _ _ _ _ _ ->|r1 _ _ _ Ha Hr|_ _ _ ->] Hk;
    [by apply dset_keeps..| |done].
  pose proof (do_attr_keeps _ _ _ k Ha Hk) as Hk1.
  destruct (do_route_spec line r1) as [E|[s E]];
    rewrite E in Hr; injection Hr as <-; [done|by apply dset_keeps].
Qed.

Lemma line_step_keys st raw st' :
  line_step decimal st raw st' →
  keys (pets st')
  = match header_name decimal raw with
    | Some n => if decide (n ∈ keys (pets st)) then keys (pets st)
                else keys (pets st) ++ [n]
    | None => keys (pets st)
    end.
Proof.
  intros [m name _ Hn ->|Hn _ ->|c r r' Hn _ _ Hr _ _ ->]; rewrite Hn; simpl; [|done|].
  - apply keys_dset.
  - apply keys_dset_in, dget_Some_keys. eauto.
Qed.

Lemma line_step_others st raw st' n :
  line_step decimal st raw st' → current st' ≠ Some n →
  dget n (pets st') = dget n (pets st).
Proof.
  intros [m name _ _ ->|_ _ ->|c r r' _ _ _ _ _ _ ->]; simpl; [|done|];
    intros Hne; apply dget_dset_ne; congruence.
Qed.

Lemma line_step_keeps st raw st' n r k :
  line_step decimal st raw st' → dget n (pets st) = Some r → is_Some (dget k r) →
  ∃ r', dget n (pets st') = Some r' ∧ is_Some (dget k r').
Proof.
  intros [m name _ _ ->|_ _ ->|c r0 r' _ _ _ Hr0 _ Hf ->] Hr Hk; simpl; [|by eauto|].
  - rewrite dget_dset. case_decide; [subst|by eauto].
    rewrite Hr. simpl. eexists; split; [done|]. by apply set_grade_keeps.
  - rewrite dget_dset. case_decide; [subst|by eauto].
    rewrite Hr in Hr0. injection Hr0 as <-.
    eexists; split; [done|]. by eapply field_step_keeps.
Qed.

(** ** The lines read for a record *)

Lemma owner_seen ls i n :
  owner decimal (take i ls) = Some n → n ∈ omap (header_name decimal) ls.
Proof.
  intros H%last_Some_elem_of. apply list_elem_of_omap in H as (raw & Hin & Hn).
  apply list_elem_of_omap. exists raw. split; [|done]. by eapply subseteq_take.
Qed.

Lemma scan_snoc n ls raw :
  scan decimal n (ls ++ [raw])
  = match header_name decimal raw with
    | Some h => (Some h, (scan decimal n ls).2)
    | None => ((scan decimal n ls).1,
               if bool_decide ((scan decimal n ls).1 = Some n)
               then (scan decimal n ls).2 ++ [raw] else (scan decimal n ls).2)
    end.
Proof. unfold scan. by rewrite foldl_app. Qed.

Lemma scan_owner n ls : (scan decimal n ls).1 = owner decimal ls.
Proof.
  induction ls as [|raw ls IH] using rev_ind; [done|].
  rewrite scan_snoc, owner_snoc. by destruct (header_name decimal raw).
Qed.

Lemma lines_of_snoc n ls raw :
  lines_of decimal n (ls ++ [raw])
  = match header_name decimal raw with
    | Some _ => lines_of decimal n ls
    | None => if bool_decide (owner decimal ls = Some n)
              then lines_of decimal n ls ++ [raw] else lines_of decimal n ls
    end.
Proof.
  unfold lines_of. rewrite scan_snoc, scan_owner.
  by destruct (header_name decimal raw).
Qed.

Lemma lines_of_unseen n ls :
  n ∉ omap (header_name decimal) ls → lines_of decimal n ls = [].
Proof.
  induction ls as [|raw ls IH] using rev_ind; [done|].
  rewrite omap_app, lines_of_snoc. simpl.
  destruct (header_name decimal raw) as [h|]; simpl.
  - intros Hn. apply IH. set_solver.
  - rewrite app_nil_r. intros Hn. rewrite bool_decide_eq_false_2; [by apply IH|].
    intros Ho. apply Hn. apply (owner_seen ls (length ls)).
    by rewrite take_ge.
Qed.

Lemma header_digit_Some n raw d :
  header_digit decimal n raw = Some d → header_name decimal raw = Some n.
Proof.
  unfold header_digit, header_name.
  destruct (re_search (HEADER_RE decimal) (strip raw)); [|done].
  by case_bool_decide.
Qed.

Lemma header_digit_unseen n ls :
  n ∉ omap (header_name decimal) ls → omap (header_digit decimal n) ls = [].
Proof.
  induction ls as [|raw ls IH]; [done|]. simpl.
  destruct (header_digit decimal n raw) as [d|] eqn:E.
  - rewrite (header_digit_Some _ _ _ E). intros Hn. destruct Hn. left.
  - intros Hn. apply IH. destruct (header_name decimal raw); set_solver.
Qed.

Lemma attr_positive seg :
  existsb positive (map snd (attr_values decimal seg))
  = ((0 <? attr_value decimal seg K_earth)%Z
     || ((0 <? attr_value decimal seg K_water)%Z
         || ((0 <? attr_value decimal seg K_fire)%Z
             || ((0 <? attr_value decimal seg K_wind)%Z || false)))).
Proof. reflexivity. Qed.

(** What a line that is not a header does to each field of the record
    it is read for. *)
Lemma field_step_writes raw r r' :
  field_step decimal (strip raw) r r' →
  dget K_name r' = dget K_name r
  ∧ dget K_grade r' = dget K_grade r
  ∧ dget K_s0 r' = match s0_write decimal raw with Some v => Some v | None => dget K_s0 r end
  ∧ dget K_sg r' = match sg_write decimal raw with Some v => Some v | None => dget K_sg r end
  ∧ dget K_attr r'
    = match attr_write decimal raw with Some v => Some v | None => dget K_attr r end
  ∧ dget K_route r'
    = match route_write decimal raw with Some v => Some v | None => dget K_route r end.
Proof.
  intros [m a d g h Hi Ha Hd Hg Hh ->|m a d g h Hi Hg H1 H2 H3 H4 ->
         |r1 Hi Hg Hc Ha Hr|Hi Hg Hc ->];
    unfold s0_write, sg_write, attr_write, route_write, attr_segment, skill_line;
    rewrite ?Hi, ?Hg, ?Hc; simpl.
  - rewrite Ha, Hd, Hg, Hh. simpl. by rewrite dget_dset_eq, !dget_dset_ne.
  - rewrite H1, H2, H3, H4. simpl. by rewrite dget_dset_eq, !dget_dset_ne.
  - rewrite !(do_route_frame _ _ _ _ Hr), !(do_attr_frame _ _ _ _ Ha) by done.
    split_and!; try done.
    + apply do_attr_cases in Ha.
      destruct (re_search ATTR_SEG_RE (strip raw) ≫= group 1) as [seg|]; simpl;
        [|by subst].
      destruct Ha as [_ ->]. rewrite <- attr_positive.
      destruct (existsb positive (map snd (attr_values decimal seg)));
        [apply dget_dset_eq|done].
    + unfold do_route, strip_group in Hr.
      destruct (re_search ROUTE_RE (strip raw)) as [m|]; simpl.
      2:{ injection Hr as <-. by apply (do_attr_frame _ _ _ _ Ha). }
      destruct (group 1 m) as [t|]; simpl in *; [|done].
      injection Hr as <-. apply dget_dset_eq.
  - done.
Qed.

Lemma writes_blank raw :
  strip raw = [] →
  s0_write decimal raw = None ∧ sg_write decimal raw = None
  ∧ attr_write decimal raw = None ∧ route_write decimal raw = None.
Proof.
  intros H. unfold s0_write, sg_write, attr_write, route_write, attr_segment, skill_line.
  rewrite H. done.
Qed.

(** ** The text of a growth-stat match *)

Lemma matches_lits s pos cs t cs' : matches (lits s) pos cs t cs' → t = s ∧ cs' = cs.
Proof.
  revert pos t. induction s as [|c s IH]; intros pos t; simpl.
  - by intros [-> ->].
  - intros (t1 & t2 & c1 & -> & (-> & ->) & M). by apply IH in M as [-> ->].
Qed.

Lemma matches_seq_app l1 l2 pos cs t cs' :
  matches (seq (l1 ++ l2)) pos cs t cs' →
  ∃ t1 t2 c1, t = t1 ++ t2 ∧ matches (seq l1) pos cs t1 c1
              ∧ matches (seq l2) (pos + length t1) c1 t2 cs'.
Proof.
  revert pos cs t. induction l1 as [|r l1 IH]; intros pos cs t.
  - intros M. exists [], t, cs. simpl. by rewrite Nat.add_0_r.
  - intros (ta & tb & ca & -> & Ma & Mb).
    apply IH in Mb as (t1 & t2 & c1 & -> & M1 & M2).
    exists (ta ++ t1), t2, c1. split_and!.
    + by rewrite (assoc _).
    + by exists ta, t1, ca.
    + by rewrite length_app, Nat.add_assoc.
Qed.

Lemma matches_number pos cs t cs' :
  matches (number decimal) pos cs t cs' → number_text decimal t ∧ cs' = cs.
Proof.
  intros (ip & fp & c1 & -> & Mi & Mf).
  assert (digits decimal ip ∧ c1 = cs) as [Hip ->].
  { split; [by eapply plus_text|].
    by destruct Mi as (? & ? & ? & _ & (? & _ & _ & ->) & _ & ->). }
  destruct Mf as [(d & fr & c2 & -> & (-> & ->) & Mr)|[-> ->]].
  - assert (digits decimal fr ∧ cs' = cs) as [Hfr ->].
    { split; [by eapply plus_text|].
      by destruct Mr as (? & ? & ? & _ & (? & _ & _ & ->) & _ & ->). }
    split; [|done]. exists ip, (c_dot :: fr). split_and!; [done..|]. right. eauto.
  - split; [|done]. exists ip, []. split_and!; [done..|]. by left.
Qed.

Lemma matches_label label pos cs t cs' :
  matches (seq [Many is_space; lits label; Many is_space]) pos cs t cs' →
  ∃ w1 w2, t = w1 ++ label ++ w2 ∧ spaces w1 ∧ spaces w2 ∧ cs' = cs.
Proof.
  intros (w1 & t1 & c1 & -> & (Hw1 & ->) & M).
  destruct M as (l & t2 & c2 & -> & Ml & M). apply matches_lits in Ml as [-> ->].
  destruct M as (w2 & t3 & c3 & -> & (Hw2 & ->) & (-> & ->)).
  exists w1, w2. by rewrite app_nil_r.
Qed.

Lemma matches_field label g pos cs t cs' :
  matches (seq ([Many is_space; lits label; Many is_space] ++ [Grp g (number decimal)]))
          pos cs t cs' →
  ∃ num, labelled decimal label num t ∧ cs' = (g, num) :: cs.
Proof.
  intros (t1 & t2 & c1 & -> & (w1 & w2 & -> & Hw1 & Hw2 & ->)%matches_label & M)
    %matches_seq_app.
  destruct M as (num & t3 & c2 & -> & (c3 & Mn & ->) & (-> & ->)).
  apply matches_number in Mn as [Hn ->].
  exists num. split; [|done]. exists w1, w2.
  by rewrite app_nil_r, <- !(assoc _).
Qed.

Lemma matches_field_plain label pos cs t cs' :
  matches (seq ([Many is_space; lits label; Many is_space] ++ [number decimal]))
          pos cs t cs' →
  ∃ num, labelled decimal label num t ∧ cs' = cs.
Proof.
  intros (t1 & t2 & c1 & -> & (w1 & w2 & -> & Hw1 & Hw2 & ->)%matches_label & M)
    %matches_seq_app.
  destruct M as (num & t3 & c2 & -> & Mn & (-> & ->)).
  apply matches_number in Mn as [Hn ->].
  exists num. split; [|done]. exists w1, w2.
  by rewrite app_nil_r, <- !(assoc _).
Qed.

Lemma matches_comma pos cs t cs' :
  matches (seq [Lit c_comma]) pos cs t cs' → t = [c_comma] ∧ cs' = cs.
Proof. by intros (t1 & t2 & c1 & -> & (-> & ->) & (-> & ->)). Qed.

(** A match of [GROW_RE], label by label: groups 1 to 4 are the numbers
    after the labels of attack, defence, agility and durability; the
    number after the second growth label is in no group. *)
Lemma grow_match pos t m :
  matches (GROW_RE decimal) pos [] t m →
  ∃ a d g total h,
    growth_text decimal a d g total h t
    ∧ m = [(4%nat, h); (3%nat, g); (2%nat, d); (1%nat, a)].
Proof.
  intros M.
  change (GROW_RE decimal)
    with (seq ([lits W_grow; Many is_space; Lit c_colon]
               ++ ([Many is_space; lits W_atk; Many is_space]
                   ++ [Grp 1 (number decimal)])
               ++ [Lit c_comma]
               ++ ([Many is_space; lits W_def; Many is_space]
                   ++ [Grp 2 (number decimal)])
               ++ [Lit c_comma]
               ++ ([Many is_space; lits W_agi; Many is_space]
                   ++ [Grp 3 (number decimal)])
               ++ [Lit c_comma]
               ++ ([Many is_space; lits W_grow; Many is_space] ++ [number decimal])
               ++ [Lit c_comma]
               ++ ([Many is_space; lits W_hp; Many is_space]
                   ++ [Grp 4 (number decimal)]))) in M.
  apply matches_seq_app in M as (t0 & ? & c0 & -> & M0 & M).
  apply matches_seq_app in M as (fa & ? & ca & -> & Ma & M).
  apply matches_seq_app in M as (x1 & ? & c1 & -> & M1 & M).
  apply matches_seq_app in M as (fd & ? & cd & -> & Md & M).
  apply matches_seq_app in M as (x2 & ? & c2 & -> & M2 & M).
  apply matches_seq_app in M as (fg & ? & cg & -> & Mg & M).
  apply matches_seq_app in M as (x3 & ? & c3 & -> & M3 & M).
  apply matches_seq_app in M as (ft & ? & ct & -> & Mt & M).
  apply matches_seq_app in M as (x4 & fh & c4 & -> & M4 & Mh).
  destruct M0 as (l & t1 & c5 & -> & Ml & M0). apply matches_lits in Ml as [-> ->].
  destruct M0 as (w0 & t2 & c6 & -> & (Hw0 & ->) & M0).
  destruct M0 as (t3 & t4 & c7 & -> & (-> & ->) & (-> & ->)).
  apply matches_field in Ma as (a & Ha & ->).
  apply matches_comma in M1 as [-> ->].
  apply matches_field in Md as (d & Hd & ->).
  apply matches_comma in M2 as [-> ->].
  apply matches_field in Mg as (g & Hg & ->).
  apply matches_comma in M3 as [-> ->].
  apply matches_field_plain in Mt as (total & Ht & ->).
  apply matches_comma in M4 as [-> ->].
  apply matches_field in Mh as (h & Hh & ->).
  exists a, d, g, total, h. split; [|done].
  exists w0, fa, fd, fg, ft, fh. split_and!; try done.
  by rewrite app_nil_r, <- !(assoc _).
Qed.

Lemma grow_line_shape line m :
  re_search (GROW_RE decimal) line = Some m →
  ∃ pre t post a d g total h,
    line = pre ++ t ++ post ∧ growth_text decimal a d g total h t
    ∧ group 1 m = Some a ∧ group 2 m = Some d
    ∧ group 3 m = Some g ∧ group 4 m = Some h.
Proof.
  intros (pre & t & post & -> & M)%search_sound_at.
  apply grow_match in M as (a & d & g & total & h & Ht & ->).
  exists pre, t, post, a, d, g, total, h. done.
Qed.

(** The induction, for a scan that returns. *)
Lemma parse_lines_inv (I : list str → state → Prop) ls st :
  I [] (State [] None) →
  (∀ ls st raw st',
     state_ok st → I ls st → line_step decimal st raw st' → I (ls ++ [raw]) st') →
  parse_lines decimal (State [] None) ls = Ok st →
  state_ok st ∧ current st = owner decimal ls ∧ I ls st.
Proof.
  intros H0 Hstep Hp. pose proof (parse_lines_reach I H0 Hstep ls) as H.
  rewrite Hp in H. tauto.
Qed.

Lemma parse_lines_keys ls st :
  parse_lines decimal (State [] None) ls = Ok st →
  state_ok st ∧ keys (pets st) = first_seen (omap (header_name decimal) ls).
Proof.
  intros Hp.
  pose (I := fun (ls : list str) (st : state) =>
               keys (pets st) = first_seen (omap (header_name decimal) ls)).
  destruct (parse_lines_inv I ls st) as (? & _ & ?); try done.
  intros ls0 st0 raw st' Hok HI Hstep. unfold I in *.
  rewrite (line_step_keys _ _ _ Hstep), omap_app, HI. simpl.
  destruct (header_name decimal raw) as [n|]; simpl.
  - by rewrite first_seen_snoc.
  - by rewrite app_nil_r.
Qed.

Lemma parse_chat_keys text out :
  parse_chat decimal text = Ok out →
  keys out = first_seen (header_names decimal text).
Proof.
  intros (st & Hp & ->)%parse_chat_lines. by apply parse_lines_keys.
Qed.

(** ** The records of the output *)

(** C4. Every name of a header line is a key of the output exactly
    once: the keys are the header names in order of first occurrence,
    without repetition, and the record under a key carries that name.
    At every point of the scan, a header with a name not seen before
    appends a record that was created with [name] alone (and then got
    its grade); a header with a known name and every other line leave
    the keys as they are, touch no record but the current one, and
    remove no field of any record. A line that is not a header reaches
    the current record: its base stats, growth stats, attribute block
    and route, when it has them, are the record's after the line, and
    what it does not have stays as it was. *)
Theorem one_record_per_name text out :
  parse_chat decimal text = Ok out →
  keys out = first_seen (header_names decimal text)
  ∧ NoDup (keys out)
  ∧ (∀ n, n ∈ keys out ↔ n ∈ header_names decimal text)
  ∧ (∀ n r, dget n out = Some r → dget K_name r = Some (JStr n))
  ∧ ∀ ls raw st st',
      parse_lines decimal (State [] None) ls = Ok st →
      parse_line decimal st raw = Ok st' →
      (∀ n, header_name decimal raw = Some n → n ∉ keys (pets st) →
         ∃ gd, pets st' = pets st ++ [(n, set_grade gd [(K_name, JStr n)])])
      ∧ (∀ n, header_name decimal raw = Some n → n ∈ keys (pets st) →
           keys (pets st') = keys (pets st) ∧ current st' = Some n)
      ∧ (header_name decimal raw = None →
           keys (pets st') = keys (pets st) ∧ current st' = current st)
      ∧ (∀ n, current st' ≠ Some n → dget n (pets st') = dget n (pets st))
      ∧ (∀ n r k, dget n (pets st) = Some r → is_Some (dget k r) →
           ∃ r', dget n (pets st') = Some r' ∧ is_Some (dget k r'))
      ∧ (∀ c r, header_name decimal raw = None → current st = Some c →
           dget c (pets st) = Some r →
           ∃ r', dget c (pets st') = Some r'
             ∧ dget K_name r' = dget K_name r
             ∧ dget K_grade r' = dget K_grade r
             ∧ dget K_s0 r'
               = match s0_write decimal raw with
                 | Some v => Some v | None => dget K_s0 r end
             ∧ dget K_sg r'
               = match sg_write decimal raw with
                 | Some v => Some v | None => dget K_sg r end
             ∧ dget K_attr r'
               = match attr_write decimal raw with
                 | Some v => Some v | None => dget K_attr r end
             ∧ dget K_route r'
               = match route_write decimal raw with
                 | Some v => Some v | None => dget K_route r end).
Proof.
  intros Hout. destruct (parse_chat_lines _ _ Hout) as (st & Hp & ->).
  pose proof parse_lines_keys as Hreach.
  destruct (Hreach _ _ Hp) as [[Hnd Hrec Hcur] HI].
  split_and!; try done.
  - intros n. rewrite HI. apply elem_of_first_seen.
  - intros n r Hr. by destruct (Hrec n r Hr).
  - intros ls raw s s' Hs Hs'. destruct (Hreach _ _ Hs) as [Hok _].
    destruct (parse_line_step _ _ _ Hok Hs') as [_ Hstep].
    split_and!.
    + intros n Hn Hnotin. destruct Hstep as [m name _ Hn' ->|Hn' _ _|? ? ? Hn' _ _ _ _ _ _];
        rewrite Hn in Hn'; [|done..]. injection Hn' as <-.
      apply dget_None in Hnotin. exists (group 2 m). simpl.
      rewrite Hnotin. simpl. by apply dset_absent.
    + intros n Hn Hin. rewrite (line_step_keys _ _ _ Hstep), Hn.
      rewrite decide_True by done. split; [done|].
      destruct Hstep as [m name _ Hn' ->|Hn' _ _|? ? ? Hn' _ _ _ _ _ _];
        rewrite Hn in Hn'; [|done..]. by injection Hn' as <-.
    + intros Hn. rewrite (line_step_keys _ _ _ Hstep), Hn. split; [done|].
      destruct Hstep as [m name _ Hn' _|_ _ ->|c ? ? _ _ Hc _ _ _ ->];
        [congruence|done|done].
    + intros n. by eapply line_step_others.
    + intros n r k. by eapply line_step_keeps.
    + intros c r Hn Hc Hr.
      destruct Hstep as [m name _ Hn' _|_ [Hnil|Hnone] ->|c' r0 r' _ _ Hc' Hr0 _ Hf ->].
      * congruence.
      * destruct (writes_blank raw Hnil) as (-> & -> & -> & ->). eauto 10.
      * congruence.
      * rewrite Hc in Hc'. injection Hc' as <-. rewrite Hr in Hr0. injection Hr0 as <-.
        exists r'. simpl. rewrite dget_dset_eq. split; [done|].
        by apply field_step_writes.
Qed.

Lemma sg_of_growth_line raw m a d g h :
  growth_line decimal raw →
  re_search (GROW_RE decimal) (strip raw) = Some m →
  group 1 m = Some a → group 2 m = Some d → group 3 m = Some g → group 4 m = Some h →
  ∃ total, sg_of_line decimal raw total
             (JDict [(K_atk, JFloat a); (K_def, JFloat d);
                     (K_agi, JFloat g); (K_hp, JFloat h)]).
Proof.
  intros Hgl Hs H1 H2 H3 H4.
  destruct (grow_line_shape _ _ Hs)
    as (pre & t & post & a' & d' & g' & total & h' & Hl & Ht & G1 & G2 & G3 & G4).
  assert (a' = a) as -> by congruence. assert (d' = d) as -> by congruence.
  assert (g' = g) as -> by congruence. assert (h' = h) as -> by congruence.
  exists total. split; [done|]. by exists pre, t, post, a, d, g, h.
Qed.

(** C5. The total of a growth-stat line is matched but kept nowhere.
    Every [sg] mapping of the output comes from a growth-stat line of
    the log: the line holds a growth-stat text, made of the numbers
    after the labels of attack, defence, agility and durability and of
    the total after the second growth label, and the mapping has the
    four labelled numbers under atk, def, agi and hp, so these four
    keys and no other; a record has no key outside name, grade, s0, sg,
    attr and route. At every point of the scan a growth-stat line sets
    [sg] of the current record to the four labelled numbers and changes
    nothing else: the total is in no field. *)
Theorem growth_total_discarded text out :
  parse_chat decimal text = Ok out →
  (∀ n r, dget n out = Some r →
     keys r ⊆ record_keys
     ∧ ∀ v, dget K_sg r = Some v →
         (∃ d, v = JDict d ∧ keys d = stat_keys)
         ∧ ∃ raw total, raw ∈ splitlines text ∧ sg_of_line decimal raw total v)
  ∧ ∀ ls raw st st',
      parse_lines decimal (State [] None) ls = Ok st →
      parse_line decimal st raw = Ok st' →
      ∀ c, growth_line decimal raw → current st = Some c →
        ∃ r total v,
          sg_of_line decimal raw total v
          ∧ dget c (pets st) = Some r
          ∧ st' = State (dset c (dset K_sg v r) (pets st)) (Some c).
Proof.
  intros Hout. destruct (parse_chat_lines _ _ Hout) as (st & Hp & ->).
  pose (I := fun (ls : list str) (st : state) =>
               ∀ n r v, dget n (pets st) = Some r → dget K_sg r = Some v →
                        ∃ raw total, raw ∈ ls ∧ sg_of_line decimal raw total v).
  assert (∀ ls st, parse_lines decimal (State [] None) ls = Ok st →
                   state_ok st ∧ current st = owner decimal ls ∧ I ls st) as Hreach.
  { intros ls s. apply parse_lines_inv; [done|]. clear.
    intros ls st raw st' Hok HI Hs n r v. unfold I in HI.
    assert (∀ r0, dget n (pets st) = Some r0 → dget K_sg r0 = Some v →
                  ∃ raw0 total, raw0 ∈ ls ++ [raw] ∧ sg_of_line decimal raw0 total v)
      as Hold.
    { intros r0 H1 H2. destruct (HI n r0 v H1 H2) as (raw0 & total & ? & ?).
      exists raw0, total. split; [set_solver|done]. }
    destruct Hs as [m name _ _ ->|_ _ ->|c r0 r' Hn Hne _ Hr0 _ Hf ->]; simpl; [|by eauto|].
    - rewrite dget_dset. case_decide; [subst n|by eauto].
      intros [= <-]. rewrite dget_set_grade_ne by done.
      destruct (dget name (pets st)) eqn:E; simpl; [by eauto|done].
    - rewrite dget_dset. case_decide; [subst n|by eauto].
      intros [= <-].
      destruct Hf as [m a d g h _ _ _ _ _ ->|m a d g h Hi Hg H1 H2 H3 H4 ->
                     |r1 _ _ _ Ha Hr|_ _ _ ->]; [| | |by eauto].
      + rewrite dget_dset_ne by done. eauto.
      + rewrite dget_dset_eq. intros [= <-].
        assert (growth_line decimal raw) as Hgl.
        { split_and!; [by apply header_name_None|done|by eauto]. }
        destruct (sg_of_growth_line raw m a d g h Hgl Hg H1 H2 H3 H4) as (total & Hsg).
        exists raw, total. split; [set_solver|done].
      + rewrite (do_route_frame _ _ _ _ Hr), (do_attr_frame _ _ _ _ Ha) by done.
        eauto. }
  destruct (Hreach _ _ Hp) as ([Hnd Hrec Hcur] & _ & HI). split.
  - intros n r Hr. split; [by destruct (Hrec n r Hr)|]. intros v Hv. split.
    + destruct (rec_sg _ _ (Hrec n r Hr) v Hv) as (d & ? & ? & _). eauto.
    + by eapply HI.
  - intros ls raw s s' Hs Hs' c Hgl Hc. destruct (Hreach _ _ Hs) as (Hok & _ & _).
    destruct (parse_line_step _ _ _ Hok Hs') as [_ Hstep].
    pose proof Hgl as (Hh & Hi & [m Hg]).
    destruct Hstep as [m' name Hh' _ _|_ [Hnil|Hnone] _|c' r r' _ _ Hc' Hr _ Hf ->].
    + congruence.
    + rewrite Hnil in Hg. done.
    + congruence.
    + rewrite Hc in Hc'. injection Hc' as <-.
      destruct Hf as [? ? ? ? ? Hi' _ _ _ _ _|m' a d g h _ Hg' H1 H2 H3 H4 ->
                     |? _ Hg' _ _ _|_ Hg' _ _]; [congruence| |congruence..].
      rewrite Hg in Hg'. injection Hg' as <-.
      destruct (sg_of_growth_line raw m a d g h Hgl Hg H1 H2 H3 H4) as (total & Hsg).
      exists r, total. eexists. split_and!; [exact Hsg|done|done].
Qed.

Lemma attr_segment_blank raw : strip raw = [] → attr_segment decimal raw = None.
Proof. intros H. unfold attr_segment, skill_line. rewrite H. done. Qed.

Lemma attr_of_line_det raw a1 a2 :
  attr_of_line decimal raw a1 → attr_of_line decimal raw a2 → a1 = a2.
Proof. intros (_ & s1 & H1 & ->) (_ & s2 & H2 & ->). congruence. Qed.

(** What a line that is not a header does to [attr]. *)
Lemma field_step_attr_rule raw r r' :
  re_search (HEADER_RE decimal) (strip raw) = None →
  field_step decimal (strip raw) r r' →
  dget K_attr r'
  = match attr_segment decimal raw with
    | Some seg =>
        if existsb positive (map snd (attr_values decimal seg))
        then Some (JDict (attr_values decimal seg)) else dget K_attr r
    | None => dget K_attr r
    end.
Proof.
  intros Hh Hf. destruct (field_step_writes raw r r' Hf) as (_ & _ & _ & _ & -> & _).
  unfold attr_write. destruct (attr_segment decimal raw) as [seg|]; simpl; [|done].
  by destruct (_ || _).
Qed.

Lemma writes_attr_seen ls n attr :
  writes_attr decimal ls n attr → n ∈ omap (header_name decimal) ls.
Proof. intros (i & raw & _ & Ho & _). by eapply owner_seen. Qed.

Lemma writes_attr_snoc ls raw n attr :
  writes_attr decimal (ls ++ [raw]) n attr
  ↔ writes_attr decimal ls n attr
    ∨ (owner decimal ls = Some n ∧ attr_of_line decimal raw attr
       ∧ existsb positive (map snd attr) = true).
Proof.
  split.
  - intros (i & raw' & Hi & Ho & Ha & Hp).
    pose proof (lookup_lt_Some _ _ _ Hi) as Hlt. rewrite length_app in Hlt. simpl in Hlt.
    destruct (decide (i < length ls)%nat) as [Hl|Hl].
    + left. exists i, raw'. rewrite lookup_app_l in Hi by done.
      rewrite take_app_le in Ho by lia. done.
    + right. assert (i = length ls) as -> by lia.
      rewrite list_lookup_middle in Hi by done. injection Hi as <-.
      rewrite take_app_length in Ho. done.
  - intros [(i & raw' & Hi & Ho & Ha & Hp)|(Ho & Ha & Hp)].
    + pose proof (lookup_lt_Some _ _ _ Hi) as Hlt.
      exists i, raw'. rewrite lookup_app_l by done.
      rewrite take_app_le by lia. done.
    + exists (length ls), raw. rewrite list_lookup_middle by done.
      rewrite take_app_length. done.
Qed.

Lemma attr_value_nonneg seg el : (0 ≤ attr_value decimal seg el)%Z.
Proof.
  unfold attr_value. destruct (last _) as [z|] eqn:E; simpl; [|done].
  apply last_Some_elem_of, list_elem_of_omap in E as (tok & _ & E).
  by eapply token_value_nonneg.
Qed.

(** The values of a segment are all zero exactly when no element has a
    positive one; they are when no token is well formed. *)
Lemma attr_values_zero seg :
  (existsb positive (map snd (attr_values decimal seg)) = false
   ↔ ∀ el, el ∈ element_keys → attr_value decimal seg el = 0%Z)
  ∧ ((∀ tok el, tok ∈ split seg → token_value decimal el tok = None) →
     existsb positive (map snd (attr_values decimal seg)) = false).
Proof.
  assert (existsb positive (map snd (attr_values decimal seg)) = false
          ↔ ∀ el, el ∈ element_keys → attr_value decimal seg el = 0%Z) as Hiff.
  { rewrite attr_positive, !orb_false_iff, !Z.ltb_ge. unfold element_keys. split.
    - intros (H1 & H2 & H3 & H4 & _) el Hel.
      pose proof (attr_value_nonneg seg el).
      repeat (apply elem_of_cons in Hel as [->|Hel]); [lia..|].
      by apply elem_of_nil in Hel.
    - intros H. rewrite (H K_earth), (H K_water), (H K_fire), (H K_wind);
        [done|set_solver..]. }
  split; [done|]. intros Hno. apply Hiff. intros el _. unfold attr_value.
  rewrite omap_none; [done|]. intros tok Htok. by apply Hno.
Qed.

(** ** A well-formed token *)

Lemma many_longest p t : ∀ pos s' cs (k : kont) r,
  Forall (fun c => p c = true) t →
  (∀ c s'', s' = c :: s'' → p c = false) →
  k (pos + length t)%nat s' cs = Some r →
  many p pos (t ++ s') cs k = Some r.
Proof.
  induction t as [|c t IH]; intros pos s' cs k r Ht Hs' Hk; simpl.
  - rewrite Nat.add_0_r in Hk. destruct s' as [|c s'']; [done|].
    simpl. by rewrite (Hs' c s'' eq_refl).
  - apply Forall_cons in Ht as [Hc Ht]. rewrite Hc.
    rewrite (IH (S pos) s' cs k r); [done|done|done|].
    simpl in Hk. by rewrite Nat.add_succ_r in Hk.
Qed.

Lemma digit_prefix s :
  ∃ p q, s = p ++ q ∧ Forall (fun c => is_digit decimal c = true) p
         ∧ ∀ c s', q = c :: s' → is_digit decimal c = false.
Proof.
  induction s as [|c s (p & q & -> & Hp & Hq)].
  - exists [], []. by split_and!.
  - destruct (is_digit decimal c) eqn:E.
    + exists (c :: p), q. split_and!; [done|by constructor|done].
    + exists [], (c :: p ++ q). split_and!; [done|done|]. by intros ? ? [= <- <-].
Qed.

Lemma token_match_exact c ds rest :
  is_element c = true → digits decimal ds →
  Forall (fun x => is_space x = false) ds →
  (∀ x rest', rest = x :: rest' → is_digit decimal x = false) →
  re_match (ATTR_TOKEN_RE decimal) (c :: ds ++ rest) = Some [(2%nat, ds); (1%nat, [c])].
Proof.
  intros Hc [Hne Hds] Hsp Hrest. destruct ds as [|d ds]; [done|].
  apply Forall_cons in Hds as [Hd Hds]. apply Forall_cons in Hsp as [Hsd _].
  unfold re_match, ATTR_TOKEN_RE. simpl. rewrite Hc, Hsd, Hd.
  erewrite many_longest; [done|done|done|]. simpl.
  by rewrite take_app_length.
Qed.

Lemma token_value_iff seg tok el z :
  tok ∈ split seg →
  token_value decimal el tok = Some z
  ↔ el ∈ element_keys
    ∧ ∃ ds rest, tok = el ++ ds ++ rest ∧ digits decimal ds
        ∧ (∀ c rest', rest = c :: rest' → is_digit decimal c = false)
        ∧ int_digits decimal ds = Some z.
Proof.
  intros Hin.
  pose proof (split_acc_tokens seg [] (Forall_nil_2 _)) as Htoks.
  rewrite Forall_forall in Htoks. destruct (Htoks tok Hin) as [Hne Hsp].
  unfold token_value. rewrite (strip_no_space tok Hsp). split.
  - destruct (re_match (ATTR_TOKEN_RE decimal) tok) as [m|] eqn:Em; [|done].
    pose proof Em as Em'.
    unfold re_match in Em'.
    apply run_sound in Em' as (t & rest & cs' & -> & M & [= ->]).
    simpl in M.
    destruct M as (t1 & t2 & c1 & -> & (c0 & (c & -> & Hc & ->) & ->) & M).
    destruct M as (ws & t3 & c2 & -> & (Hws & ->) & M).
    destruct M as (ds & t4 & c3 & -> & (c4 & M & ->) & (-> & ->)).
    assert (digits decimal ds ∧ c4 = [(1%nat, [c])]) as [Hds ->].
    { destruct M as (? & ? & ? & -> & (x & -> & Hx & ->) & Hm & ->).
      split; [|done]. split; [done|]. by constructor. }
    clear M.
    assert (ws = []) as ->.
    { destruct ws as [|w ws]; [done|]. apply Forall_cons in Hws as [Hw _].
      rewrite Forall_forall in Hsp. rewrite (Hsp w) in Hw; [done|]. set_solver. }
    destruct (digit_prefix rest) as (p & q & -> & Hp & Hq).
    assert (p = []) as ->.
    { assert (([c] ++ [] ++ ds ++ []) ++ p ++ q = c :: (ds ++ p) ++ q) as Heq
        by (simpl; by rewrite app_nil_r, <- (assoc _)).
      rewrite Heq in Em, Hsp.
      rewrite token_match_exact in Em; [| done | | | done].
      - injection Em as Hds2. apply (app_inv_head ds). by rewrite app_nil_r.
      - destruct Hds as [Hd1 Hd2]. split; [by destruct ds|by apply Forall_app].
      - rewrite Forall_forall in Hsp. apply Forall_forall. intros x Hx.
        apply Hsp. set_solver. }
    unfold int_group. simpl. case_bool_decide as Hel; [|done]. subst el.
    destruct (int_digits decimal ds) as [z'|] eqn:Ez; [|done]. intros [= ->].
    split; [by apply is_element_keys|].
    exists ds, q. split_and!; [|done..]. simpl. by rewrite !app_nil_r.
  - intros (Hel & ds & rest & -> & Hds & Hrest & Hz).
    assert (∃ c, el = [c] ∧ is_element c = true) as (c & -> & Hc).
    { unfold element_keys in Hel.
      repeat (apply elem_of_cons in Hel as [->|Hel]);
        try (eexists; split; [reflexivity|by vm_compute]).
      by apply elem_of_nil in Hel. }
    simpl. rewrite token_match_exact; [|done|done| |done].
    + simpl. rewrite bool_decide_eq_true_2 by done.
      unfold int_group. simpl. by rewrite Hz.
    + rewrite Forall_forall in Hsp. apply Forall_forall. intros x Hx.
      apply Hsp. set_solver.
Qed.

(** C2. For every chat log and every record of the output: the [attr]
    field is present exactly when a skill/attribute line read while the
    record was current has a positive value among its four, so it is
    absent when the values of these lines are all zero; when present it
    is the four-key mapping of such a line, with exactly the keys earth,
    water, fire and wind. The four values are read off the tokens of
    the line's segment: for each element the number of the last
    well-formed token that names it, and 0 without one, so they are all
    zero when no well-formed token appears. A well-formed token is the
    letter of an element directly followed by digits, and its number is
    that of the whole run of digits. At every point of the scan a
    skill/attribute line with four zeros leaves [attr] of the current
    record as it was, and a line with a positive value makes [attr] its
    four-key mapping. *)
Theorem attr_block_rule text out :
  parse_chat decimal text = Ok out →
  (∀ n r, dget n out = Some r →
     (is_Some (dget K_attr r) ↔ ∃ attr, writes_attr decimal (splitlines text) n attr)
     ∧ ∀ v, dget K_attr r = Some v →
         ∃ attr, v = JDict attr ∧ keys attr = element_keys
                 ∧ existsb positive (map snd attr) = true
                 ∧ writes_attr decimal (splitlines text) n attr)
  ∧ (∀ ls raw st st',
       parse_lines decimal (State [] None) ls = Ok st →
       parse_line decimal st raw = Ok st' →
       ∀ seg c, header_name decimal raw = None →
         attr_segment decimal raw = Some seg → current st = Some c →
         ∃ r r', dget c (pets st) = Some r ∧ dget c (pets st') = Some r'
           ∧ dget K_attr r'
             = (if existsb positive (map snd (attr_values decimal seg))
                then Some (JDict (attr_values decimal seg)) else dget K_attr r))
  ∧ ∀ seg,
      keys (attr_values decimal seg) = element_keys
      ∧ (∀ el, el ∈ element_keys →
           dget el (attr_values decimal seg)
           = Some (JInt (default 0%Z
                           (last (omap (token_value decimal el) (split seg))))))
      ∧ (existsb positive (map snd (attr_values decimal seg)) = false
         ↔ ∀ el, el ∈ element_keys →
             default 0%Z (last (omap (token_value decimal el) (split seg))) = 0%Z)
      ∧ ((∀ tok el, tok ∈ split seg → token_value decimal el tok = None) →
         existsb positive (map snd (attr_values decimal seg)) = false)
      ∧ ∀ tok el z, tok ∈ split seg →
          (token_value decimal el tok = Some z
           ↔ el ∈ element_keys
             ∧ ∃ ds rest, tok = el ++ ds ++ rest ∧ digits decimal ds
                 ∧ (∀ c rest', rest = c :: rest' → is_digit decimal c = false)
                 ∧ int_digits decimal ds = Some z).
Proof.
  intros Hout. destruct (parse_chat_lines _ _ Hout) as (st & Hp & ->).
  pose (I := fun (ls : list str) (st : state) =>
    current st = owner decimal ls
    ∧ (∀ n, n ∈ omap (header_name decimal) ls → n ∈ keys (pets st))
    ∧ ∀ n r, dget n (pets st) = Some r →
        (∀ v, dget K_attr r = Some v →
              ∃ attr, v = JDict attr ∧ writes_attr decimal ls n attr)
        ∧ ((∃ attr, writes_attr decimal ls n attr) → is_Some (dget K_attr r))).
  assert (∀ ls st, parse_lines decimal (State [] None) ls = Ok st →
                   state_ok st ∧ current st = owner decimal ls ∧ I ls st) as Hreach.
  { intros ls s. apply parse_lines_inv.
    { split_and!; [done|by intros n ?%elem_of_nil|done]. }
    clear. intros ls st raw st' Hok (Hcur & Hseen & Hattr) Hs.
    assert (∀ n r, dget n (pets st) = Some r →
              (∀ attr, ¬ (owner decimal ls = Some n ∧ attr_of_line decimal raw attr
                          ∧ existsb positive (map snd attr) = true)) →
              (∀ v, dget K_attr r = Some v →
                    ∃ attr, v = JDict attr ∧ writes_attr decimal (ls ++ [raw]) n attr)
              ∧ ((∃ attr, writes_attr decimal (ls ++ [raw]) n attr) →
                 is_Some (dget K_attr r))) as Hsame.
    { intros n r Hr Hno. destruct (Hattr n r Hr) as [H1 H2]. split.
      - intros v Hv. destruct (H1 v Hv) as (attr & -> & Hw).
        exists attr. split; [done|]. apply writes_attr_snoc. by left.
      - intros (attr & [Hw|Hw]%writes_attr_snoc); [by eauto|by destruct (Hno attr)]. }
    destruct Hs as [m name Hh Hn ->|Hn Hskip ->|c r0 r' Hn Hne Hc Hr0 _ Hf ->].
    - (* header *)
      assert (∀ attr, ¬ attr_of_line decimal raw attr) as Hnot.
      { intros attr (? & _). congruence. }
      split_and!; simpl.
      + by rewrite owner_snoc, Hn.
      + intros n. rewrite omap_app. simpl. rewrite Hn. simpl.
        intros [Hin| ->%list_elem_of_singleton]%elem_of_app;
          rewrite keys_dset; case_decide; set_solver.
      + intros n r. rewrite dget_dset. case_decide as Hd.
        * subst n. intros [= <-]. rewrite dget_set_grade_ne by done.
          destruct (dget name (pets st)) as [r0|] eqn:E; simpl.
          { apply (Hsame name r0 E). intros attr (_ & ? & _). by eapply Hnot. }
          split; [done|]. intros (attr & [Hw|(_ & ? & _)]%writes_attr_snoc);
            [|by destruct (Hnot attr)].
          apply writes_attr_seen, Hseen, dget_Some_keys in Hw as [? ?]. congruence.
        * intros Hr. apply (Hsame n r Hr). intros attr (_ & ? & _). by eapply Hnot.
    - (* skipped *)
      split_and!.
      + by rewrite owner_snoc, Hn.
      + intros n. rewrite omap_app. simpl. rewrite Hn. simpl. rewrite app_nil_r. apply Hseen.
      + intros n r Hr. apply (Hsame n r Hr). intros attr (Ho & Ha & _).
        destruct Hskip as [Hnil|Hnone]; [|congruence].
        destruct Ha as (_ & seg & Hs & _). by rewrite attr_segment_blank in Hs.
    - (* a field line *)
      pose proof (proj1 (header_name_None raw) Hn) as Hh.
      split_and!; simpl.
      + by rewrite owner_snoc, Hn, <- Hcur.
      + intros n. rewrite omap_app. simpl. rewrite Hn. simpl. rewrite app_nil_r.
        intros Hin%Hseen. rewrite keys_dset_in; [done|]. apply dget_Some_keys. eauto.
      + intros n r. rewrite dget_dset. case_decide as Hd.
        2:{ intros Hr. apply (Hsame n r Hr). intros attr (Ho & _). congruence. }
        subst n. intros [= <-]. destruct (Hattr c r0 Hr0) as [H1 H2].
        rewrite (field_step_attr_rule raw r0 r' Hh Hf).
        destruct (attr_segment decimal raw) as [seg|] eqn:Eseg.
        2:{ apply (Hsame c r0 Hr0). intros attr (_ & (_ & s & Hs & _) & _). congruence. }
        destruct (existsb positive (map snd (attr_values decimal seg))) eqn:Hp.
        * split; [|by eauto]. intros v [= <-]. exists (attr_values decimal seg).
          split; [done|]. apply writes_attr_snoc. right. rewrite <- Hcur.
          split_and!; [done| |done]. split; [done|]. by exists seg.
        * apply (Hsame c r0 Hr0). intros attr' (_ & (_ & s & Hs & ->) & Hp').
          congruence. }
  destruct (Hreach _ _ Hp) as ([Hnd Hrec Hcur] & _ & _ & _ & HI).
  split_and!.
  - intros n r Hr. destruct (HI n r Hr) as [H1 H2]. split.
    + split; [|done]. intros [v Hv]. destruct (H1 v Hv) as (attr & _ & Hw). eauto.
    + intros v Hv. destruct (H1 v Hv) as (attr & -> & Hw).
      destruct (rec_attr _ _ (Hrec n r Hr) _ Hv) as (d & [= <-] & Hk & _ & Hpos).
      exists attr. done.
  - intros ls raw s s' Hs Hs' seg c Hn Hseg Hc. destruct (Hreach _ _ Hs) as (Hok & _ & _).
    destruct (parse_line_step _ _ _ Hok Hs') as [_ Hstep].
    destruct Hstep as [m' name _ Hn' _|_ [Hnil|Hnone] _|c' r r' _ _ Hc' Hr _ Hf ->].
    + congruence.
    + by rewrite attr_segment_blank in Hseg.
    + congruence.
    + rewrite Hc in Hc'. injection Hc' as <-. exists r, r'. simpl.
      rewrite dget_dset_eq. split_and!; [done..|].
      rewrite (field_step_attr_rule raw r r' (proj1 (header_name_None raw) Hn) Hf).
      by rewrite Hseg.
  - intros seg. split_and!.
    + done.
    + intros el Hel. unfold element_keys in Hel.
      repeat (apply elem_of_cons in Hel as [->|Hel]); [reflexivity..|].
      by apply elem_of_nil in Hel.
    + apply attr_values_zero.
    + apply attr_values_zero.
    + intros tok el z Hin. by eapply token_value_iff.
Qed.

(** ** Reading a stat line twice *)

Lemma dget_dupdate_notin {V} k (d e : list (str * V)) :
  k ∉ keys e → dget k (dupdate d e) = dget k d.
Proof.
  unfold dupdate. revert d. induction e as [|[k' v'] e IH]; intros d Hn; simpl; [done|].
  simpl in Hn. apply not_elem_of_cons in Hn as [Hne Hn].
  rewrite IH by done. by apply dget_dset_ne.
Qed.

Lemma dget_dupdate_in {V} k (v : V) (d e : list (str * V)) :
  NoDup (keys e) → (k, v) ∈ e → dget k (dupdate d e) = Some v.
Proof.
  unfold dupdate. revert d. induction e as [|[k' v'] e IH]; intros d Hnd Hin; simpl.
  - by apply elem_of_nil in Hin.
  - simpl in Hnd. apply NoDup_cons in Hnd as [Hk Hnd].
    apply elem_of_cons in Hin as [[= -> ->]|Hin].
    + fold (dupdate (dset k' v' d) e). rewrite dget_dupdate_notin by done.
      apply dget_dset_eq.
    + by apply IH.
Qed.

Lemma dupdate_noop {V} (d e : list (str * V)) :
  (∀ k v, (k, v) ∈ e → dget k d = Some v) → dupdate d e = d.
Proof.
  unfold dupdate. induction e as [|[k v] e IH]; intros H; simpl; [done|].
  rewrite dset_same by (apply H; left). apply IH. intros k' v' Hin. apply H. by right.
Qed.

(** [d.update(e)] twice is [d.update(e)] once. *)
Lemma dupdate_idem {V} (d e : list (str * V)) :
  NoDup (keys e) → dupdate (dupdate d e) e = dupdate d e.
Proof. intros Hnd. apply dupdate_noop. intros k v. by apply dget_dupdate_in. Qed.

Lemma setdefault_update_idem key upd r r1 :
  NoDup (keys upd) →
  setdefault_update key upd r = Ok r1 → setdefault_update key upd r1 = Ok r1.
Proof.
  intros Hnd. unfold setdefault_update.
  destruct (dget key r) as [[| | | | | |d]|]; try done; intros [= <-];
    rewrite dget_dset_eq, dupdate_idem, dset_dset; done.
Qed.

Lemma stat_keys_nodup {V} (v1 v2 v3 v4 : V) :
  NoDup (keys [(K_atk, v1); (K_def, v2); (K_agi, v3); (K_hp, v4)]).
Proof. simpl. apply (bool_decide_unpack _). by vm_compute. Qed.

Lemma field_line_stat_idem line r r1 :
  is_Some (re_search (INIT_RE decimal) line)
  ∨ is_Some (re_search (GROW_RE decimal) line) →
  field_line decimal line r = Ok r1 → field_line decimal line r1 = Ok r1.
Proof.
  intros Hstat. destruct (re_search (INIT_RE decimal) line) as [m|] eqn:Ei.
  { destruct (field_line_init line r m Ei) as (a & d & g & h & _ & -> & Hi).
    destruct (field_line_init line r1 m Ei) as (a' & d' & g' & h' & _ & -> & Hi').
    destruct (group_fits 1 m && group_fits 2 m && group_fits 3 m && group_fits 4 m);
      [|done].
    destruct (Hi eq_refl) as (Ha & Hd & Hg & Hh).
    destruct (Hi' eq_refl) as (Ha' & Hd' & Hg' & Hh').
    assert (a' = a) as -> by congruence. assert (d' = d) as -> by congruence.
    assert (g' = g) as -> by congruence. assert (h' = h) as -> by congruence.
    apply setdefault_update_idem, stat_keys_nodup. }
  destruct Hstat as [[? [=]]|[m Eg]].
  destruct (field_line_grow line r m Ei Eg) as (a & d & g & h & Ha & Hd & Hg & Hh & ->).
  destruct (field_line_grow line r1 m Ei Eg)
    as (a' & d' & g' & h' & Ha' & Hd' & Hg' & Hh' & ->).
  assert (a' = a) as -> by congruence. assert (d' = d) as -> by congruence.
  assert (g' = g) as -> by congruence. assert (h' = h) as -> by congruence.
  apply setdefault_update_idem, stat_keys_nodup.
Qed.

(** C8. Reading the same base-stat or growth-stat line a second time
    changes nothing: from any state in which the line can be read, the
    state after the second reading is the state after the first, so the
    [s0] and [sg] mappings are the same. The line can be read in every
    well-shaped state when its numbers are within the digit limit of
    [int()], which a growth-stat line always is. *)
Theorem stat_line_idempotent st raw :
  stat_line decimal raw →
  (state_ok st → line_fits decimal raw = true →
   ∃ st1, parse_line decimal st raw = Ok st1)
  ∧ (re_search (INIT_RE decimal) (strip raw) = None → line_fits decimal raw = true)
  ∧ ∀ st1, parse_line decimal st raw = Ok st1 →
      parse_line decimal st1 raw = Ok st1.
Proof.
  intros [Hh Hstat]. split_and!.
  { intros Hok Hfit. pose proof (parse_line_cases st raw Hok) as H.
    destruct (parse_line decimal st raw) as [st1|e]; [by eauto|].
    destruct H as [_ H]. unfold reads_ok in H. rewrite Hfit in H.
    by destruct (current st), (header_name decimal raw). }
  { intros Hi. unfold line_fits, attr_segment, skill_line. rewrite Hi.
    destruct Hstat as [[? ?]|[m ->]]; [congruence|done]. }
  intros st1. unfold parse_line.
  destruct (strip raw) as [|c0 l0] eqn:El.
  { by destruct Hstat as [[? [=]]|[? [=]]]. }
  rewrite Hh. destruct st as [ps [c|]]; simpl; [|by intros [= <-]].
  destruct (dget c ps) as [r|] eqn:Er.
  - rewrite (modify_present _ _ _ r) by done.
    destruct (field_line decimal (c0 :: l0) r) as [r1|] eqn:Ef; [|done].
    simpl. intros [= <-]. simpl.
    rewrite (modify_present _ _ _ r1) by apply dget_dset_eq.
    rewrite (field_line_stat_idem _ _ _ Hstat Ef). simpl. by rewrite dset_dset.
  - rewrite modify_absent by done. simpl. intros [= <-]. simpl.
    by rewrite modify_absent.
Qed.

Lemma parse_chat_records text out :
  parse_chat decimal text = Ok out →
  log_fits decimal (splitlines text)
  ∧ NoDup (keys out) ∧ ∀ n r, dget n out = Some r → record_ok n r.
Proof.
  intros Hp. pose proof (parse_chat_result text) as H. by rewrite Hp in H.
Qed.

(** ** When the extractor stops *)

Lemma log_fits_cases ls :
  log_fits decimal ls
  ∨ ∃ i raw, ls !! i = Some raw
             ∧ reads_ok decimal (owner decimal (take i ls)) raw = false.
Proof.
  induction ls as [|raw ls IH] using rev_ind.
  { left. intros i raw Hi. by rewrite lookup_nil in Hi. }
  destruct IH as [IH|(i & raw0 & Hi & Hr)].
  - destruct (reads_ok decimal (owner decimal ls) raw) eqn:E.
    + left. by apply log_fits_snoc.
    + right. exists (length ls), raw.
      by rewrite list_lookup_middle, take_app_length.
  - right. exists i, raw0. pose proof (lookup_lt_Some _ _ _ Hi) as Hlt.
    rewrite lookup_app_l, take_app_le by lia. done.
Qed.

Lemma group_fits_false g m :
  group_fits g m = false →
  ∃ t, group g m = Some t ∧ (max_str_digits < N.of_nat (length t))%N.
Proof.
  unfold group_fits. destruct (group g m) as [t|]; [|done].
  unfold fits. intros H%N.leb_gt. eauto.
Qed.

Lemma line_fits_false raw :
  line_fits decimal raw = false →
  (∃ m g t, re_search (INIT_RE decimal) (strip raw) = Some m
            ∧ g ∈ [1; 2; 3; 4]%nat ∧ group g m = Some t
            ∧ (max_str_digits < N.of_nat (length t))%N)
  ∨ (re_search (INIT_RE decimal) (strip raw) = None
     ∧ ∃ seg tok m ds, attr_segment decimal raw = Some seg ∧ tok ∈ split seg
         ∧ re_match (ATTR_TOKEN_RE decimal) (strip tok) = Some m
         ∧ group 2 m = Some ds
         ∧ (max_str_digits < N.of_nat (length ds))%N).
Proof.
  unfold line_fits.
  destruct (re_search (INIT_RE decimal) (strip raw)) as [m|] eqn:Ei.
  - intros H. left.
    destruct (group_fits 1 m) eqn:E1;
      [|apply group_fits_false in E1 as (t & ? & ?); exists m, 1%nat, t;
        split_and!; [done|set_solver|done..]].
    destruct (group_fits 2 m) eqn:E2;
      [|apply group_fits_false in E2 as (t & ? & ?); exists m, 2%nat, t;
        split_and!; [done|set_solver|done..]].
    destruct (group_fits 3 m) eqn:E3;
      [|apply group_fits_false in E3 as (t & ? & ?); exists m, 3%nat, t;
        split_and!; [done|set_solver|done..]].
    simpl in H. apply group_fits_false in H as (t & ? & ?). exists m, 4%nat, t.
    split_and!; [done|set_solver|done..].
  - destruct (attr_segment decimal raw) as [seg|]; [|done]. intros H. right.
    split; [done|].
    assert (¬ Forall (fun tok => token_fits decimal tok = true) (split seg)) as Hn.
    { intros Hall. rewrite Forall_forall in Hall.
      assert (forallb (token_fits decimal) (split seg) = true); [|congruence].
      apply forallb_forall. intros x Hx. apply Hall. by apply list_elem_of_In. }
    apply not_Forall_Exists in Hn; [|intros x; apply _].
    apply Exists_exists in Hn as (tok & Hin & Hf). simpl in Hf.
    apply not_true_is_false in Hf. unfold token_fits in Hf.
    destruct (re_match (ATTR_TOKEN_RE decimal) (strip tok)) as [m|] eqn:Em; [|done].
    apply group_fits_false in Hf as (ds & ? & ?).
    by exists seg, tok, m, ds.
Qed.

(** X17. The extractor stops only with a [ValueError], and exactly on
    a number that [int()] refuses: a line that is not a header, read
    while a record is current, that is a base-stat line with a value of
    more than 4300 digits, or a skill/attribute line whose segment has
    a well-formed token with more than 4300 digits. When no line is
    such a line the extractor returns its records. *)
Theorem parse_chat_value_error text :
  match parse_chat decimal text with
  | Ok out =>
      ∀ i raw c, splitlines text !! i = Some raw →
        owner decimal (take i (splitlines text)) = Some c →
        header_name decimal raw = None →
        line_fits decimal raw = true
  | Raise e =>
      e = ValueError
      ∧ ∃ i raw c, splitlines text !! i = Some raw
          ∧ owner decimal (take i (splitlines text)) = Some c
          ∧ header_name decimal raw = None
          ∧ line_fits decimal raw = false
          ∧ ((∃ m g t, re_search (INIT_RE decimal) (strip raw) = Some m
                       ∧ g ∈ [1; 2; 3; 4]%nat ∧ group g m = Some t
                       ∧ (max_str_digits < N.of_nat (length t))%N)
             ∨ (re_search (INIT_RE decimal) (strip raw) = None
                ∧ ∃ seg tok m ds, attr_segment decimal raw = Some seg
                    ∧ tok ∈ split seg
                    ∧ re_match (ATTR_TOKEN_RE decimal) (strip tok) = Some m
                    ∧ group 2 m = Some ds
                    ∧ (max_str_digits < N.of_nat (length ds))%N))
  end.
Proof.
  pose proof (parse_chat_result text) as H.
  destruct (parse_chat decimal text) as [out|e].
  - destruct H as (Hfit & _). intros i raw c Hi Hc Hn.
    specialize (Hfit i raw Hi). unfold reads_ok in Hfit. by rewrite Hc, Hn in Hfit.
  - destruct H as (-> & Hno). split; [done|].
    destruct (log_fits_cases (splitlines text)) as [?|(i & raw & Hi & Hr)]; [done|].
    unfold reads_ok in Hr.
    destruct (owner decimal (take i (splitlines text))) as [c|] eqn:Ec; [|done].
    destruct (header_name decimal raw) eqn:En; [done|].
    exists i, raw, c. split_and!; [done..|]. by apply line_fits_false.
Qed.

End ExtractorFacts.

(** ** Lines within the digit limit *)

Lemma matches_group_len r : ∀ pos cs t cs' g x,
  matches r pos cs t cs' → group g cs' = Some x →
  group g cs = Some x ∨ (length x ≤ length t)%nat.
Proof.
  induction r as [|c|p| |r1 IH1 r2 IH2|r1 IH1|p|g' r1 IH1];
    intros pos cs t cs' g x; simpl.
  - intros [_ ->]. auto.
  - intros [_ ->]. auto.
  - intros (c & _ & _ & ->). auto.
  - intros (_ & _ & ->). auto.
  - intros (t1 & t2 & c1 & -> & M1 & M2) Hg. rewrite length_app.
    destruct (IH2 _ _ _ _ _ _ M2 Hg) as [Hg1|?]; [|right; lia].
    destruct (IH1 _ _ _ _ _ _ M1 Hg1) as [?|?]; [by left|right; lia].
  - intros [M|[_ ->]]; [by eapply IH1|auto].
  - intros [_ ->]. auto.
  - intros (c1 & M & ->). simpl. destruct (Nat.eqb g g').
    + intros [= ->]. by right.
    + by eapply IH1.
Qed.

Lemma search_group_len r s m g x :
  re_search r s = Some m → group g m = Some x → (length x ≤ length s)%nat.
Proof.
  unfold re_search. intros (pre & t & post & -> & M)%search_sound_at Hg.
  destruct (matches_group_len _ _ _ _ _ _ _ M Hg) as [?|?]; [done|].
  rewrite !length_app. lia.
Qed.

Lemma match_group_len r s m g x :
  re_match r s = Some m → group g m = Some x → (length x ≤ length s)%nat.
Proof.
  unfold re_match. intros (t & s' & cs' & -> & M & [= ->])%run_sound Hg.
  destruct (matches_group_len _ _ _ _ _ _ _ M Hg) as [?|?]; [done|].
  rewrite length_app. lia.
Qed.

Lemma lstrip_length s : (length (lstrip s) ≤ length s)%nat.
Proof. induction s as [|c s IH]; simpl; [done|]. destruct (is_space c); simpl; lia. Qed.

Lemma strip_length s : (length (strip s) ≤ length s)%nat.
Proof.
  unfold strip. rewrite length_rev.
  etrans; [apply lstrip_length|]. rewrite length_rev. apply lstrip_length.
Qed.

Lemma split_acc_length s : ∀ acc,
  Forall (fun tok => (length tok ≤ length acc + length s)%nat) (split_acc acc s).
Proof.
  induction s as [|c s IH]; intros acc; simpl.
  - destruct acc; [done|]. apply Forall_singleton. rewrite length_rev. simpl. lia.
  - destruct (is_space c).
    + destruct acc.
      * eapply Forall_impl; [apply (IH [])|]. simpl. intros; lia.
      * constructor; [rewrite length_rev; simpl; lia|].
        eapply Forall_impl; [apply (IH [])|]. simpl. intros; lia.
    + eapply Forall_impl; [apply (IH (c :: acc))|]. simpl. intros; lia.
Qed.

Section ShortLines.
Variable decimal : char -> option N.

Lemma fits_short t : (length t ≤ 4300)%nat → fits t = true.
Proof. intros H. unfold fits, max_str_digits. apply N.leb_le. lia. Qed.

Lemma line_fits_short raw : (length raw ≤ 4300)%nat → line_fits decimal raw = true.
Proof.
  intros Hlen. pose proof (strip_length raw) as Hs. unfold line_fits.
  destruct (re_search (INIT_RE decimal) (strip raw)) as [m|] eqn:Ei.
  - assert (∀ g, group_fits g m = true) as Hg.
    { intros g. unfold group_fits. destruct (group g m) as [t|] eqn:Eg; [|done].
      apply fits_short. pose proof (search_group_len _ _ _ _ _ Ei Eg). lia. }
    by rewrite !Hg.
  - destruct (attr_segment decimal raw) as [seg|] eqn:Ea; [|done].
    assert (length seg ≤ length (strip raw))%nat as Hseg.
    { unfold attr_segment in Ea. destruct (skill_line decimal raw); [|done].
      destruct (re_search ATTR_SEG_RE (strip raw)) as [m|] eqn:Es; [|done].
      simpl in Ea. by eapply search_group_len. }
    apply forallb_forall. intros tok Hin%list_elem_of_In.
    pose proof (split_acc_length seg []) as Htok. rewrite Forall_forall in Htok.
    specialize (Htok tok Hin). simpl in Htok.
    unfold token_fits.
    destruct (re_match (ATTR_TOKEN_RE decimal) (strip tok)) as [m|] eqn:Em; [|done].
    unfold group_fits. destruct (group 2 m) as [ds|] eqn:Eg; [|done].
    apply fits_short. pose proof (match_group_len _ _ _ _ _ Em Eg).
    pose proof (strip_length tok). lia.
Qed.

(** X18. On a log in which no line has more than 4300 code points the
    extractor returns its records: no number of such a line goes beyond
    what [int()] accepts. *)
Theorem parse_chat_short_lines text :
  (∀ raw, raw ∈ splitlines text → (length raw ≤ 4300)%nat) →
  ∃ out, parse_chat decimal text = Ok out.
Proof.
  intros Hshort. pose proof (parse_chat_result decimal text) as H.
  destruct (parse_chat decimal text) as [out|e]; [by eauto|].
  destruct H as (_ & Hno). destruct Hno.
  intros i raw Hi. unfold reads_ok.
  destruct (owner decimal (take i (splitlines text))); [|done].
  destruct (header_name decimal raw); [done|].
  apply line_fits_short, Hshort. by eapply list_elem_of_lookup_2.
Qed.

End ShortLines.

Lemma parse_chat_short_lines_witness :
  (∀ raw, raw ∈ splitlines ex_log_full → (length raw ≤ 4300)%nat)
  ∧ ∃ out, parse_chat ascii_decimal ex_log_full = Ok out.
Proof.
  assert (∀ raw, raw ∈ splitlines ex_log_full → (length raw ≤ 4300)%nat) as H.
  { apply Forall_forall. apply (bool_decide_unpack _). vm_compute. exact I. }
  split; [exact H|].
  exact (parse_chat_short_lines ascii_decimal ex_log_full H).
Defined.

(** ** The extractor on concrete lines *)

(** The example of the specification: a header with digit 1 and a
    base-stat line. *)
Example parse_chat_example :
  parse_chat ascii_decimal (ex_header1 ++ [c_nl] ++ ex_init)
  = Ok [(ex_name,
         [(K_name, JStr ex_name); (K_grade, JStr G_top);
          (K_s0, JDict [(K_atk, JInt 10); (K_def, JInt 5);
                        (K_agi, JInt 7); (K_hp, JInt 20)])])].
Proof. vm_compute. reflexivity. Qed.

(** A header with digit 3 replaces the top tier by the normal one. *)
Example header_digit3_example :
  parse_line ascii_decimal ex_state ex_header3
  = Ok (State [(ex_name, [(K_name, JStr ex_name); (K_grade, JStr G_normal)])]
              (Some ex_name)).
Proof. vm_compute. reflexivity. Qed.

(** The growth-stat line: the total 4.25 is in no field of the record. *)
Example growth_line_example :
  parse_line ascii_decimal ex_state ex_grow
  = Ok (State [(ex_name,
                [(K_name, JStr ex_name); (K_grade, JStr G_top);
                 (K_sg, JDict [(K_atk, JFloat [49; 46; 53]);
                               (K_def, JFloat [48; 46; 55]);
                               (K_agi, JFloat [49]);
                               (K_hp, JFloat [51; 46; 48; 53])])])]
              (Some ex_name)).
Proof. vm_compute. reflexivity. Qed.

(** Without the total the line is not a growth-stat line. *)
Example growth_needs_total_example :
  re_search (GROW_RE ascii_decimal) ex_grow_no_total = None.
Proof. vm_compute. reflexivity. Qed.

(** The skill line: the attribute block and the route. *)
Example skill_line_example :
  parse_line ascii_decimal ex_state ex_skill
  = Ok (State [(ex_name,
                [(K_name, JStr ex_name); (K_grade, JStr G_top);
                 (K_attr, JDict [(K_earth, JInt 0); (K_water, JInt 4);
                                 (K_fire, JInt 6); (K_wind, JInt 0)]);
                 (K_route, JStr ex_route)])]
              (Some ex_name)).
Proof. vm_compute. reflexivity. Qed.

(** A skill line whose values are all zero writes no attribute block. *)
Example skill_zero_example :
  parse_line ascii_decimal ex_state ex_skill_zero
  = Ok (State [(ex_name,
                [(K_name, JStr ex_name); (K_grade, JStr G_top);
                 (K_route, JStr [120])])]
              (Some ex_name)).
Proof. vm_compute. reflexivity. Qed.

(** A header without a digit keeps the top tier of the record. *)
Lemma header_grade_update_witness :
  re_search (HEADER_RE ascii_decimal) (strip ex_header) = Some ex_header_match
  ∧ strip_group 1 ex_header_match = Ok ex_name
  ∧ ∃ st' r',
      parse_line ascii_decimal ex_state ex_header = Ok st'
      ∧ dget ex_name (pets st') = Some r'
      ∧ dget K_grade r' = Some (JStr G_top).
Proof.
  assert (re_search (HEADER_RE ascii_decimal) (strip ex_header) = Some ex_header_match)
    as H1 by (vm_compute; reflexivity).
  assert (strip_group 1 ex_header_match = Ok ex_name) as H2 by (vm_compute; reflexivity).
  split; [exact H1|]. split; [exact H2|].
  destruct (header_grade_update ascii_decimal ex_state ex_header ex_header_match
              ex_name H1 H2) as (st' & r' & Hp & _ & Hr & Hg & _).
  exists st', r'. split; [exact Hp|]. split; [exact Hr|].
  rewrite Hg. vm_compute. reflexivity.
Defined.

(** The growth-stat example line, read twice. *)
Lemma stat_line_idempotent_witness :
  stat_line ascii_decimal ex_grow
  ∧ line_fits ascii_decimal ex_grow = true
  ∧ ∃ st1, parse_line ascii_decimal ex_state ex_grow = Ok st1
           ∧ parse_line ascii_decimal st1 ex_grow = Ok st1.
Proof.
  assert (stat_line ascii_decimal ex_grow) as Hs.
  { split; [vm_compute; reflexivity|]. right. vm_compute. eexists. reflexivity. }
  split; [exact Hs|].
  destruct (stat_line_idempotent ascii_decimal ex_state ex_grow Hs)
    as (_ & Hfit & Hidem).
  split; [apply Hfit; vm_compute; reflexivity|].
  eexists. split; [vm_compute; reflexivity|].
  apply Hidem. vm_compute. reflexivity.
Defined.

(** The log with one line of each kind. *)
Lemma attr_block_rule_witness :
  parse_chat ascii_decimal ex_log_full = Ok ex_out_full
  ∧ ∀ n r, dget n ex_out_full = Some r →
      ∀ v, dget K_attr r = Some v →
        ∃ attr, v = JDict attr ∧ keys attr = element_keys
                ∧ existsb positive (map snd attr) = true
                ∧ writes_attr ascii_decimal (splitlines ex_log_full) n attr.
Proof.
  assert (parse_chat ascii_decimal ex_log_full = Ok ex_out_full) as H
    by (vm_compute; reflexivity).
  split; [exact H|].
  destruct (attr_block_rule ascii_decimal ex_log_full ex_out_full H) as (Hrec & _).
  intros n r Hr. exact (proj2 (Hrec n r Hr)).
Defined.

Lemma one_record_per_name_witness :
  parse_chat ascii_decimal ex_log_full = Ok ex_out_full
  ∧ keys ex_out_full = first_seen (header_names ascii_decimal ex_log_full)
  ∧ NoDup (keys ex_out_full)
  ∧ ∀ n r, dget n ex_out_full = Some r → dget K_name r = Some (JStr n).
Proof.
  assert (parse_chat ascii_decimal ex_log_full = Ok ex_out_full) as H
    by (vm_compute; reflexivity).
  split; [exact H|].
  destruct (one_record_per_name ascii_decimal ex_log_full ex_out_full H)
    as (Hkeys & Hnd & _ & Hname & _).
  split; [exact Hkeys|]. split; [exact Hnd|exact Hname].
Defined.

Lemma growth_total_discarded_witness :
  parse_chat ascii_decimal ex_log_full = Ok ex_out_full
  ∧ ∀ n r, dget n ex_out_full = Some r →
      keys r ⊆ record_keys
      ∧ ∀ v, dget K_sg r = Some v →
          (∃ d, v = JDict d ∧ keys d = stat_keys)
          ∧ ∃ raw total, raw ∈ splitlines ex_log_full
                         ∧ sg_of_line ascii_decimal raw total v.
Proof.
  assert (parse_chat ascii_decimal ex_log_full = Ok ex_out_full) as H
    by (vm_compute; reflexivity).
  split; [exact H|].
  exact (proj1 (growth_total_discarded ascii_decimal ex_log_full ex_out_full H)).
Defined.

(** A number of 4301 digits in a base-stat line stops the extractor
    with a [ValueError]; before the first header the same line is
    skipped. *)
Example long_number_example :
  parse_chat ascii_decimal ex_log_long = Raise ValueError
  ∧ parse_chat ascii_decimal ex_init_long = Ok [].
Proof. split; vm_compute; reflexivity. Qed.

(** ** The merger: the five recognised fields *)

Lemma merge_field_frame extra target key k :
  k ≠ key → dget k (merge_field extra target key) = dget k target.
Proof.
  intros Hne. unfold merge_field. destruct (dget key extra) as [v|]; [|done].
  destruct v; try by apply dget_dset_ne.
  destruct (dget key target) as [[| | | | | |?]|]; by apply dget_dset_ne.
Qed.

(** The loop over the five keys writes no other key. *)
Lemma merge_fields_frame extra target k :
  k ∉ FIELDS → dget k (merge_fields extra target) = dget k target.
Proof.
  unfold merge_fields. revert target.
  induction FIELDS as [|key ks IH]; intros target Hn; simpl; [done|].
  apply not_elem_of_cons in Hn as [Hne Hn].
  rewrite IH by done. by apply merge_field_frame.
Qed.

Lemma K_name_not_field : K_name ∉ FIELDS.
Proof. apply (bool_decide_unpack _). by vm_compute. Qed.

Lemma copy_field_frame extra obj key k :
  k ≠ key → dget k (copy_field extra obj key) = dget k obj.
Proof.
  intros Hne. unfold copy_field. destruct (dget key extra); [by apply dget_dset_ne|done].
Qed.

Lemma new_object_name name extra : dget K_name (new_object name extra) = Some (JStr name).
Proof.
  unfold new_object.
  assert (∀ ks obj, K_name ∉ ks →
            dget K_name (foldl (copy_field extra) obj ks) = dget K_name obj) as H.
  { induction ks as [|key ks IH]; intros obj Hn; simpl; [done|].
    apply not_elem_of_cons in Hn as [Hne Hn]. rewrite IH by done.
    by apply copy_field_frame. }
  rewrite H by apply K_name_not_field. done.
Qed.

(** ** The merger: mapping shape *)

Lemma merge_dict_entry_other d ne n :
  n ≠ ne.1 → dget n (merge_dict_entry d ne) = dget n d.
Proof.
  intros Hne. unfold merge_dict_entry.
  destruct (dget ne.1 d) as [[| | | | | |t]|]; simpl;
    rewrite ?dget_dset_ne by done; done.
Qed.

Lemma merge_dict_entry_dict d ne t :
  dget ne.1 d = Some (JDict t) →
  merge_dict_entry d ne = dset ne.1 (JDict (merge_fields ne.2 t)) d.
Proof. intros H. unfold merge_dict_entry. by rewrite H. Qed.

Lemma merge_dict_entry_frame d ne n t :
  dget n d = Some (JDict t) →
  ∃ t', dget n (merge_dict_entry d ne) = Some (JDict t')
        ∧ ∀ k, k ∉ FIELDS → dget k t' = dget k t.
Proof.
  intros Hn. destruct (decide (n = ne.1)) as [->|Hne].
  - rewrite (merge_dict_entry_dict _ _ _ Hn), dget_dset_eq.
    eexists; split; [done|]. intros k Hk. by apply merge_fields_frame.
  - rewrite merge_dict_entry_other by done. eauto.
Qed.

Lemma merge_dict_frame patch : ∀ d n t,
  dget n d = Some (JDict t) →
  ∃ t', dget n (foldl merge_dict_entry d patch) = Some (JDict t')
        ∧ ∀ k, k ∉ FIELDS → dget k t' = dget k t.
Proof.
  induction patch as [|ne patch IH]; intros d n t Hn; simpl; [by eauto|].
  destruct (merge_dict_entry_frame d ne n t Hn) as (t1 & H1 & Hf1).
  destruct (IH _ _ _ H1) as (t2 & H2 & Hf2).
  exists t2. split; [done|]. intros k Hk. rewrite Hf2, Hf1; done.
Qed.

Lemma merge_dict_entry_kept d ne n v :
  dget n d = Some v → v ≠ JNull → (∀ t, v ≠ JDict t) →
  dget n (merge_dict_entry d ne) = Some v.
Proof.
  intros Hn Hnull Hdict. destruct (decide (n = ne.1)) as [->|Hne].
  - unfold merge_dict_entry. rewrite Hn.
    destruct v; try done. by destruct (Hdict d0).
  - by rewrite merge_dict_entry_other.
Qed.

(** C9 as stated fails on [null]: the value a mapping-shaped dataset
    holds under a patch name is not a mapping, and the merger replaces
    it by a new mapping with the patch fields, as it does for an absent
    name. *)
Lemma null_entry_replaced :
  dget ex_name [(ex_name, JNull)] = Some JNull
  ∧ (∀ t, JNull ≠ JDict t)
  ∧ ∃ d', merge_into_pets (JDict [(ex_name, JNull)]) [(ex_name, ex_record)]
          = Ok (JDict d')
          ∧ dget ex_name d' = Some (JDict [(K_grade, JStr G_top)])
          ∧ dget ex_name d' ≠ Some JNull.
Proof.
  split_and!; [reflexivity|done|].
  exists [(ex_name, JDict [(K_grade, JStr G_top)])].
  split_and!; [vm_compute; reflexivity|reflexivity|discriminate].
Qed.

(** C9, amended. In a mapping-shaped dataset, a value stored under a
    patch name that is neither a mapping nor [null] is left as it is,
    whatever the patch holds for that name, and no error is raised. *)
Theorem non_mapping_entry_kept d patch name v :
  dget name d = Some v → v ≠ JNull → (∀ t, v ≠ JDict t) →
  ∃ d', merge_into_pets (JDict d) patch = Ok (JDict d')
        ∧ dget name d' = Some v.
Proof.
  intros Hn Hnull Hdict. simpl. eexists; split; [done|].
  revert d Hn. induction patch as [|ne patch IH]; intros d Hn; simpl; [done|].
  apply IH. by apply merge_dict_entry_kept.
Qed.

Lemma non_mapping_entry_kept_witness :
  dget ex_name [(ex_name, JStr G_high)] = Some (JStr G_high)
  ∧ JStr G_high ≠ JNull ∧ (∀ t, JStr G_high ≠ JDict t)
  ∧ ∃ d', merge_into_pets (JDict [(ex_name, JStr G_high)]) [(ex_name, ex_record)]
          = Ok (JDict d')
          ∧ dget ex_name d' = Some (JStr G_high).
Proof.
  assert (dget ex_name [(ex_name, JStr G_high)] = Some (JStr G_high)) as H1
    by reflexivity.
  assert (JStr G_high ≠ JNull) as H2 by discriminate.
  assert (∀ t, JStr G_high ≠ JDict t) as H3 by (intros t; discriminate).
  split; [exact H1|]. split; [exact H2|]. split; [exact H3|].
  exact (non_mapping_entry_kept [(ex_name, JStr G_high)] [(ex_name, ex_record)]
           ex_name (JStr G_high) H1 H2 H3).
Defined.

(** ** The merger: sequence shape *)

Lemma last_named_Some n l j :
  last_named n l = Some j →
  (∃ obj, l !! j = Some obj ∧ name_of obj = Some n)
  ∧ ∀ j' obj, (j < j')%nat → l !! j' = Some obj → name_of obj ≠ Some n.
Proof.
  revert j. induction l as [|obj l IH]; intros j; simpl; [done|].
  destruct (last_named n l) as [j0|] eqn:E.
  - intros [= <-]. destruct (IH j0 eq_refl) as [Hj Hlast]. split; [done|].
    intros [|j'] o Hlt; [lia|]. simpl. apply Hlast. lia.
  - case_bool_decide; [|done]. intros [= <-]. split; [by eauto|].
    intros [|j'] o Hlt; [lia|]. simpl. intros Ho Hn.
    assert (∀ l, last_named n l = None → ∀ i o, l !! i = Some o → name_of o ≠ Some n) as Hnone.
    { clear. induction l as [|x l IH]; intros Hl i o; simpl in *; [done|].
      destruct (last_named n l); [done|]. case_bool_decide; [done|].
      destruct i as [|i]; simpl; [by intros [= <-]|]. by apply IH. }
    by eapply Hnone.
Qed.

Lemma last_named_None n l :
  last_named n l = None ↔ ∀ i obj, l !! i = Some obj → name_of obj ≠ Some n.
Proof.
  induction l as [|x l IH]; simpl; [done|]. split.
  - destruct (last_named n l); [done|]. case_bool_decide; [done|].
    intros _ [|i] o; simpl; [by intros [= <-]|]. by apply IH.
  - intros H. destruct (last_named n l) as [j|] eqn:E.
    + destruct (last_named_Some _ _ _ E) as [(o & Ho & Hn) _].
      by destruct (H (S j) o Ho).
    + rewrite bool_decide_eq_false_2; [done|]. by apply (H 0%nat x).
Qed.

Lemma index_names_cons i obj l bn :
  index_names i (obj :: l) bn
  = do bn1 <- index_step i obj bn; index_names (S i) l bn1.
Proof.
  unfold index_step. destruct obj as [| | | | | |t]; try done. simpl.
  by destruct (dget K_name t) as [[| | | | | |]|].
Qed.

(** What the indexing loop computes, and when it raises. *)
Lemma index_names_spec l : ∀ i bn,
  if forallb hashable_name l
  then ∃ bn', index_names i l bn = Ok bn'
              ∧ ∀ n, bn' !! n = match last_named n l with
                                | Some j => Some (i + j)%nat
                                | None => bn !! n
                                end
  else index_names i l bn = Raise TypeError.
Proof.
  induction l as [|obj l IH]; intros i bn; [simpl; by eauto|].
  rewrite index_names_cons. unfold index_step.
  cbn [forallb]. destruct (hashable_name obj); simpl; [|done].
  set (bn1 := match name_of obj with Some n => <[n:=i]> bn | None => bn end).
  specialize (IH (S i) bn1). destruct (forallb hashable_name l); [|done].
  destruct IH as (bn' & -> & Hl). exists bn'. split; [done|].
  intros n. rewrite Hl. destruct (last_named n l) as [j|]; [f_equal; lia|].
  unfold bn1. case_bool_decide as Hd.
  - rewrite Hd, lookup_insert_eq. f_equal. lia.
  - destruct (name_of obj) as [n'|]; [|done].
    rewrite lookup_insert_ne; [done|]. congruence.
Qed.

Lemma name_of_Some obj n :
  name_of obj = Some n →
  ∃ t, obj = JDict t ∧ dget K_name t = Some (JStr n) ∧ t ≠ [].
Proof.
  destruct obj as [| | | | | |t]; try done. simpl.
  destruct (dget K_name t) as [[| | | |s| |]|] eqn:E; try done.
  intros [= ->]. exists t. split_and!; [done..|]. by destruct t.
Qed.

Lemma name_of_merge_fields e t :
  name_of (JDict (merge_fields e t)) = name_of (JDict t).
Proof. simpl. by rewrite merge_fields_frame by apply K_name_not_field. Qed.

Lemma merge_list_entry_split bn look cur app ne :
  (∀ n, bn !! n = look n) → indexed look cur →
  merge_list_entry bn (cur ++ app) ne
  = apply_entry look cur ne ++ app
    ++ match look ne.1 with
       | None => [JDict (new_object ne.1 ne.2)]
       | Some _ => []
       end.
Proof.
  intros Hbn Hidx. unfold merge_list_entry, apply_entry. rewrite Hbn.
  destruct (look ne.1) as [j|] eqn:El; simpl; [|by rewrite <- (assoc _)].
  destruct (Hidx _ _ El) as (obj & Hj & Hn).
  destruct (name_of_Some _ _ Hn) as (t & -> & _ & Htr).
  rewrite (lookup_app_l_Some _ _ _ _ Hj), Hj. simpl.
  destruct t as [|kv t]; [done|].
  rewrite app_nil_r. apply insert_app_l. by eapply lookup_lt_Some.
Qed.

Lemma apply_entry_lookup look cur ne j :
  apply_entry look cur ne !! j
  = if decide (look ne.1 = Some j)
    then match cur !! j with
         | Some (JDict t) => Some (JDict (merge_fields ne.2 t))
         | o => o
         end
    else cur !! j.
Proof.
  unfold apply_entry. destruct (look ne.1) as [j0|]; [|by rewrite decide_False].
  case_decide as Hd.
  - injection Hd as ->. destruct (cur !! j) as [[| | | | | |t]|] eqn:Ej; try done.
    apply list_lookup_insert_eq. by eapply lookup_lt_Some.
  - destruct (cur !! j0) as [[| | | | | |t]|]; try done.
    apply list_lookup_insert_ne. congruence.
Qed.

Lemma apply_entry_length look cur ne : length (apply_entry look cur ne) = length cur.
Proof.
  unfold apply_entry. destruct (look ne.1) as [j|]; [|done].
  destruct (cur !! j) as [[| | | | | |t]|]; try done. apply length_insert.
Qed.

Lemma indexed_apply_entry look cur ne :
  indexed look cur → indexed look (apply_entry look cur ne).
Proof.
  intros Hidx n j Hl. destruct (Hidx n j Hl) as (obj & Hj & Hn).
  rewrite apply_entry_lookup, Hj. case_decide; [|by eauto].
  destruct (name_of_Some _ _ Hn) as (t & -> & _).
  eexists; split; [done|]. by rewrite name_of_merge_fields.
Qed.

Lemma merge_list_split bn look patch : ∀ cur app,
  (∀ n, bn !! n = look n) → indexed look cur →
  foldl (merge_list_entry bn) (cur ++ app) patch
  = foldl (apply_entry look) cur patch ++ app ++ new_objects look patch.
Proof.
  induction patch as [|ne patch IH]; intros cur app Hbn Hidx; simpl.
  - by rewrite app_nil_r.
  - rewrite (merge_list_entry_split bn look) by done.
    rewrite IH by auto using indexed_apply_entry.
    unfold new_objects. simpl. rewrite <- (assoc _ app).
    by destruct (look ne.1).
Qed.

Lemma apply_fold_length look patch : ∀ cur,
  length (foldl (apply_entry look) cur patch) = length cur.
Proof.
  induction patch as [|ne patch IH]; intros cur; simpl; [done|].
  by rewrite IH, apply_entry_length.
Qed.

Lemma same_entry_refl obj : same_entry obj obj.
Proof. destruct obj; simpl; eauto. Qed.

Lemma apply_fold_same look patch : ∀ cur j obj,
  cur !! j = Some obj →
  ∃ obj', foldl (apply_entry look) cur patch !! j = Some obj' ∧ same_entry obj obj'.
Proof.
  induction patch as [|ne patch IH]; intros cur j obj Hj; simpl.
  - eauto using same_entry_refl.
  - assert (∃ obj1, apply_entry look cur ne !! j = Some obj1 ∧ same_entry obj obj1)
      as (obj1 & H1 & Hs1).
    { rewrite apply_entry_lookup, Hj. case_decide; [|by eauto using same_entry_refl].
      destruct obj as [| | | | | |t]; try (eexists; split; [done|]; done).
      eexists; split; [done|]. simpl. eexists; split; [done|].
      intros k Hk. by apply merge_fields_frame. }
    destruct (IH _ _ _ H1) as (obj2 & H2 & Hs2). exists obj2. split; [done|].
    destruct obj as [| | | | | |t]; simpl in *; try (subst obj1; simpl in Hs2; done).
    destruct Hs1 as (t1 & -> & Hf1). simpl in Hs2. destruct Hs2 as (t2 & -> & Hf2).
    eexists; split; [done|]. intros k Hk. by rewrite Hf2, Hf1.
Qed.

Lemma apply_fold_lookup look patch : ∀ cur j obj,
  indexed look cur → NoDup (keys patch) → cur !! j = Some obj →
  foldl (apply_entry look) cur patch !! j = Some (merged_at look patch j obj).
Proof.
  induction patch as [|[n0 e0] patch IH]; intros cur j obj Hidx Hnd Hj; simpl.
  - unfold merged_at. destruct (name_of obj); [|done]. by case_decide.
  - simpl in Hnd. apply NoDup_cons in Hnd as [Hn0 Hnd].
    pose proof (indexed_apply_entry look cur (n0, e0) Hidx) as Hidx1.
    destruct (decide (look n0 = Some j)) as [Hl|Hl].
    + destruct (Hidx _ _ Hl) as (obj0 & Hj0 & Hname). rewrite Hj in Hj0.
      injection Hj0 as <-. destruct (name_of_Some _ _ Hname) as (t & -> & _).
      erewrite IH; [|done|done|].
      2:{ rewrite apply_entry_lookup, Hj. simpl. by rewrite decide_True. }
      f_equal. unfold merged_at.
      rewrite ?name_of_merge_fields, ?Hname, ?decide_True by done. simpl.
      rewrite ?str_eqb_refl, ?decide_True by done.
      apply dget_None in Hn0. by rewrite Hn0.
    + erewrite IH; [|done|done|].
      2:{ rewrite apply_entry_lookup, Hj. simpl. by rewrite decide_False. }
      f_equal. unfold merged_at. destruct (name_of obj) as [n|]; [|done].
      case_decide as Hd; [|done]. simpl.
      rewrite str_eqb_ne; [done|]. congruence.
Qed.

(** ** The merger as a whole *)

Lemma indexed_last_named l : indexed (fun n => last_named n l) l.
Proof. intros n j Hl. by destruct (last_named_Some _ _ _ Hl) as [? _]. Qed.

(** The sequence shape: updates in place, then the new objects. *)
Lemma merge_list_spec l patch :
  forallb hashable_name l = true →
  merge_into_pets (JList l) patch
  = Ok (JList (foldl (apply_entry (fun n => last_named n l)) l patch
               ++ new_objects (fun n => last_named n l) patch)).
Proof.
  intros Hh. simpl. pose proof (index_names_spec l 0 ∅) as Hi. rewrite Hh in Hi.
  destruct Hi as (bn & -> & Hbn). simpl. do 2 f_equal.
  rewrite <- (app_nil_r l) at 1.
  rewrite (merge_list_split bn (fun n => last_named n l)); [done| |].
  - intros n. rewrite Hbn. by destruct (last_named n l).
  - apply indexed_last_named.
Qed.

Lemma merge_list_unhashable l patch :
  forallb hashable_name l = false → merge_into_pets (JList l) patch = Raise TypeError.
Proof.
  intros Hh. simpl. pose proof (index_names_spec l 0 ∅) as Hi. rewrite Hh in Hi.
  by rewrite Hi.
Qed.

(** When the merger raises, and what. *)
Lemma merge_outcome data patch :
  (merge_into_pets data patch = Raise ValueError
   ↔ (∀ d, data ≠ JDict d) ∧ (∀ l, data ≠ JList l))
  ∧ (dataset_ok data → ∃ out, merge_into_pets data patch = Ok out)
  ∧ (∀ l, data = JList l → forallb hashable_name l = false →
          merge_into_pets data patch = Raise TypeError).
Proof.
  split_and!.
  - destruct data as [| | | | |l|d]; simpl; try (split; [done|by intros [_ ?]|done]);
      try (split; [by intros _|done]).
    + pose proof (index_names_spec l 0 ∅) as Hi.
      destruct (forallb hashable_name l).
      * destruct Hi as (bn & -> & _). simpl. split; [done|]. intros [_ H]. by destruct (H l).
      * rewrite Hi. simpl. split; [done|]. intros [_ H]. by destruct (H l).
    + split; [done|]. intros [H _]. by destruct (H d).
  - destruct data as [| | | | |l|d]; simpl; try done; [|by eauto].
    intros Hh. pose proof (merge_list_spec l patch Hh) as Hm. simpl in Hm. eauto.
  - intros l -> Hh. by apply merge_list_unhashable.
Qed.

(** C7 as stated fails on a sequence: the one object of this dataset
    has a list as its [name], and the merger neither returns nor raises
    the invalid-dataset error; [by_name[obj["name"]] = obj] raises a
    [TypeError]. *)
Lemma unhashable_name_raises :
  merge_into_pets (JList [JDict [(K_name, JList [])]]) [(ex_name, ex_record)]
  = Raise TypeError.
Proof. reflexivity. Qed.

(** C7, amended. The merger raises the invalid-dataset [ValueError]
    exactly when the parsed value is neither a mapping nor a sequence;
    it returns normally for every mapping, and for every sequence in
    which no object has a list or a mapping as its [name]. *)
Theorem merge_value_error_iff data patch :
  (merge_into_pets data patch = Raise ValueError
   ↔ (∀ d, data ≠ JDict d) ∧ (∀ l, data ≠ JList l))
  ∧ (dataset_ok data → ∃ out, merge_into_pets data patch = Ok out).
Proof.
  destruct (merge_outcome data patch) as (Hv & Hok & _). by split.
Qed.

Lemma merge_dict_entry_keys d ne :
  ∃ news, keys (merge_dict_entry d ne) = keys d ++ news.
Proof.
  unfold merge_dict_entry.
  destruct (dget ne.1 d) as [v|] eqn:E.
  - assert (ne.1 ∈ keys d) as Hin by (apply dget_Some_keys; eauto).
    exists []. rewrite app_nil_r.
    destruct v; simpl; rewrite ?keys_dset_in; try done.
    by rewrite keys_dset_in.
  - apply dget_None in E. exists [ne.1]. simpl.
    rewrite keys_dset_in, keys_dset_notin; [done..|].
    rewrite keys_dset_notin by done. set_solver.
Qed.

Lemma merge_dict_keys patch : ∀ d,
  ∃ news, keys (foldl merge_dict_entry d patch) = keys d ++ news.
Proof.
  induction patch as [|ne patch IH]; intros d; simpl.
  - exists []. by rewrite app_nil_r.
  - destruct (merge_dict_entry_keys d ne) as (n1 & H1).
    destruct (IH (merge_dict_entry d ne)) as (n2 & H2).
    exists (n1 ++ n2). by rewrite H2, H1, (assoc _).
Qed.

Lemma elem_of_new_objects l patch o :
  o ∈ new_objects (fun n => last_named n l) patch
  ↔ ∃ n e, (n, e) ∈ patch
           ∧ (∀ i obj, l !! i = Some obj → name_of obj ≠ Some n)
           ∧ o = JDict (new_object n e).
Proof.
  unfold new_objects. rewrite list_elem_of_omap. split.
  - intros ([n e] & Hin & Hf). simpl in Hf.
    destruct (last_named n l) eqn:E; [done|]. injection Hf as <-.
    exists n, e. split_and!; [done| |done]. by apply last_named_None.
  - intros (n & e & Hin & Hnone & ->). exists (n, e). split; [done|]. simpl.
    apply last_named_None in Hnone. by rewrite Hnone.
Qed.

(** C3. The merger returns a dataset of the shape it was given. For a
    mapping the result is a mapping, whose keys start with the keys of
    the input in their order. For a sequence the result is a sequence
    that starts with as many objects as the input has, each at its own
    index the same value or the same mapping up to the five recognised
    fields, and ends with the new objects, one for each patch name that
    no object of the input carries, in the order of the patch. *)
Theorem merge_keeps_shape data patch :
  dataset_ok data →
  ∃ out, merge_into_pets data patch = Ok out
    ∧ (∀ d, data = JDict d →
         ∃ d' news, out = JDict d' ∧ keys d' = keys d ++ news)
    ∧ (∀ l, data = JList l →
         ∃ upd, out = JList (upd ++ new_objects (fun n => last_named n l) patch)
           ∧ length upd = length l
           ∧ (∀ j obj, l !! j = Some obj →
                ∃ obj', upd !! j = Some obj' ∧ same_entry obj obj')
           ∧ (∀ o, o ∈ new_objects (fun n => last_named n l) patch
                ↔ ∃ n e, (n, e) ∈ patch
                         ∧ (∀ i obj, l !! i = Some obj → name_of obj ≠ Some n)
                         ∧ o = JDict (new_object n e))).
Proof.
  destruct data as [| | | | |l|d]; try done; intros Hok.
  - rewrite (merge_list_spec l patch Hok). eexists; split; [done|].
    split; [done|]. intros ? [= <-]. eexists; split_and!; [done| | |].
    + apply apply_fold_length.
    + intros j obj. apply apply_fold_same.
    + apply elem_of_new_objects.
  - simpl. eexists; split; [done|]. split; [|done]. intros ? [= <-].
    destruct (merge_dict_keys patch d) as (news & Hk). eauto.
Qed.

Lemma copy_fields_keys extra ks : ∀ obj,
  keys (foldl (copy_field extra) obj ks) ⊆ keys obj ++ ks.
Proof.
  induction ks as [|key ks IH]; intros obj; simpl; [set_solver|].
  etrans; [apply IH|]. unfold copy_field.
  destruct (dget key extra); [|set_solver].
  rewrite keys_dset. case_decide; set_solver.
Qed.

Lemma new_object_keys name extra : keys (new_object name extra) ⊆ K_name :: FIELDS.
Proof. unfold new_object. etrans; [apply copy_fields_keys|]. done. Qed.

(** C6. The merger writes the five recognised fields and nothing else
    of an existing entry: in both shapes, every entry of the input that
    is a mapping is still a mapping at its key (or index), and each of
    its fields outside grade, s0, sg, attr and route has the value it
    had. The objects appended to a sequence hold [name] and recognised
    fields only. *)
Theorem merge_frame data patch :
  dataset_ok data →
  ∃ out, merge_into_pets data patch = Ok out
    ∧ (∀ d name t, data = JDict d → dget name d = Some (JDict t) →
         ∃ d' t', out = JDict d' ∧ dget name d' = Some (JDict t')
                  ∧ ∀ k, k ∉ FIELDS → dget k t' = dget k t)
    ∧ (∀ l j t, data = JList l → l !! j = Some (JDict t) →
         ∃ l' t', out = JList l' ∧ l' !! j = Some (JDict t')
                  ∧ ∀ k, k ∉ FIELDS → dget k t' = dget k t)
    ∧ (∀ l l' i o, data = JList l → out = JList l' →
         (length l ≤ i)%nat → l' !! i = Some o →
         ∃ t', o = JDict t' ∧ keys t' ⊆ K_name :: FIELDS).
Proof.
  destruct data as [| | | | |l|d]; try done; intros Hok.
  - rewrite (merge_list_spec l patch Hok). eexists; split; [done|].
    split; [done|]. split.
    + intros ? j t [= <-] Hj.
      destruct (apply_fold_same (fun n => last_named n l) patch l j _ Hj)
        as (obj' & Hj' & t' & -> & Hf).
      eexists _, t'. split; [done|]. split; [|done].
      by apply lookup_app_l_Some.
    + intros ? l' i o [= <-] [= <-] Hi Ho.
      rewrite lookup_app_r in Ho by (by rewrite apply_fold_length).
      apply list_elem_of_lookup_2, elem_of_new_objects in Ho as (n & e & _ & _ & ->).
      eexists; split; [done|]. apply new_object_keys.
  - simpl. eexists; split; [done|]. split; [|done].
    intros ? name t [= <-] Hn.
    destruct (merge_dict_frame patch d name t Hn) as (t' & Ht' & Hf). eauto.
Qed.

(** ** The merger, field by field *)

Lemma NoDup_FIELDS : NoDup FIELDS.
Proof. apply (bool_decide_unpack _). by vm_compute. Qed.

Lemma merge_field_lookup e t key :
  dget key (merge_field e t key) = merged_value (dget key e) (dget key t).
Proof.
  unfold merge_field, merged_value.
  destruct (dget key e) as [v|]; [|done].
  destruct v; try apply dget_dset_eq.
  destruct (dget key t) as [[| | | | | |?]|]; apply dget_dset_eq.
Qed.

Lemma merge_fold_lookup e ks : NoDup ks → ∀ t k,
  dget k (foldl (merge_field e) t ks)
  = if bool_decide (k ∈ ks) then merged_value (dget k e) (dget k t) else dget k t.
Proof.
  induction 1 as [|key ks Hkey Hnd IH]; intros t k; simpl; [done|].
  rewrite IH. destruct (decide (k = key)) as [->|Hne].
  - rewrite (bool_decide_eq_false_2 _ Hkey), bool_decide_eq_true_2 by left.
    apply merge_field_lookup.
  - rewrite merge_field_frame by done.
    case_bool_decide as Hin.
    + rewrite bool_decide_eq_true_2; [done|by right].
    + rewrite bool_decide_eq_false_2; [done|]. by intros [?|?]%elem_of_cons.
Qed.

Lemma dget_Some_elem {V} k (v : V) d : dget k d = Some v → (k, v) ∈ d.
Proof.
  induction d as [|[k' v'] d IH]; simpl; [done|].
  destruct (str_eqb k k') eqn:E.
  - apply str_eqb_eq in E. subst k'. intros [= ->]. left.
  - intros H. right. by apply IH.
Qed.

Lemma dget_dupdate {V} k (d e : list (str * V)) :
  NoDup (keys e) →
  dget k (dupdate d e) = match dget k e with Some v => Some v | None => dget k d end.
Proof.
  intros Hnd. destruct (dget k e) as [v|] eqn:E.
  - apply (dget_dupdate_in k v d e Hnd). by apply dget_Some_elem.
  - apply dget_dupdate_notin. by apply dget_None.
Qed.

Lemma last_named_intro n l j obj :
  l !! j = Some obj → name_of obj = Some n →
  (∀ j' o, (j < j')%nat → l !! j' = Some o → name_of o ≠ Some n) →
  last_named n l = Some j.
Proof.
  intros Hj Hn Hlast. destruct (last_named n l) as [j0|] eqn:E.
  - destruct (last_named_Some _ _ _ E) as [(o & Ho & Hno) Hlast0].
    f_equal. destruct (Nat.lt_trichotomy j j0) as [Hlt|[->|Hgt]]; [|done|].
    + by destruct (Hlast j0 o Hlt Ho).
    + by destruct (Hlast0 j obj Hgt Hj).
  - by destruct (proj1 (last_named_None n l) E j obj Hj).
Qed.

(** C10. When several objects of a sequence carry the same name, the
    patch record of that name is merged into the last of them, and into
    that one only. The last object shows the patch: each of the five
    recognised fields the patch record has is taken from it (a value
    that is not a mapping as it is, a mapping key by key over what the
    object had), and every other field is as it was. The earlier
    objects of that name are left as they are, and no object of that
    name is appended. *)
Theorem duplicates_last_wins l patch n e j t :
  forallb hashable_name l = true → NoDup (keys patch) →
  dget n patch = Some e →
  l !! j = Some (JDict t) → name_of (JDict t) = Some n →
  (∀ j' o, (j < j')%nat → l !! j' = Some o → name_of o ≠ Some n) →
  ∃ l' t', merge_into_pets (JList l) patch = Ok (JList l')
    ∧ l' !! j = Some (JDict t')
    ∧ t' = merge_fields e t
    ∧ (∀ k v, k ∈ FIELDS → dget k e = Some v → (∀ ev, v ≠ JDict ev) →
         dget k t' = Some v)
    ∧ (∀ k ev, k ∈ FIELDS → dget k e = Some (JDict ev) → NoDup (keys ev) →
         ∃ rv, dget k t' = Some (JDict rv)
           ∧ ∀ sk, dget sk rv
                   = match dget sk ev with
                     | Some x => Some x
                     | None => match dget k t with
                               | Some (JDict tv) => dget sk tv
                               | _ => None
                               end
                     end)
    ∧ (∀ k, k ∈ FIELDS → dget k e = None → dget k t' = dget k t)
    ∧ (∀ k, k ∉ FIELDS → dget k t' = dget k t)
    ∧ (∀ i obj, i ≠ j → l !! i = Some obj → name_of obj = Some n →
         l' !! i = Some obj)
    ∧ (∀ i obj, (length l ≤ i)%nat → l' !! i = Some obj → name_of obj ≠ Some n).
Proof.
  intros Hh Hnd He Hj Hn Hlast.
  pose proof (last_named_intro n l j _ Hj Hn Hlast) as Hl.
  rewrite (merge_list_spec l patch Hh). eexists _, (merge_fields e t).
  split; [done|].
  set (look := fun n => last_named n l).
  pose proof (indexed_last_named l) as Hidx.
  assert (∀ k, dget k (merge_fields e t)
               = if bool_decide (k ∈ FIELDS)
                 then merged_value (dget k e) (dget k t) else dget k t) as Hrule.
  { intros k. apply merge_fold_lookup, NoDup_FIELDS. }
  split_and!.
  - erewrite lookup_app_l_Some; [done|].
    rewrite (apply_fold_lookup look patch l j _ Hidx Hnd Hj). f_equal.
    unfold merged_at. rewrite Hn. unfold look. rewrite Hl, decide_True by done.
    by rewrite He.
  - done.
  - intros k v Hk Hv Hnd'. rewrite Hrule, bool_decide_eq_true_2, Hv by done.
    destruct v; try done. by destruct (Hnd' d).
  - intros k ev Hk Hv Hev. rewrite Hrule, bool_decide_eq_true_2, Hv by done.
    simpl. destruct (dget k t) as [[| | | | | |tv]|];
      try (eexists; split; [done|]; intros sk; by destruct (dget sk ev)).
    eexists; split; [done|]. intros sk. by apply dget_dupdate.
  - intros k Hk Hv. by rewrite Hrule, bool_decide_eq_true_2, Hv.
  - intros k Hk. by rewrite Hrule, bool_decide_eq_false_2.
  - intros i obj Hne Hi Hni. erewrite lookup_app_l_Some; [done|].
    rewrite (apply_fold_lookup look patch l i _ Hidx Hnd Hi). f_equal.
    unfold merged_at. rewrite Hni. unfold look. rewrite Hl.
    rewrite decide_False; [done|]. congruence.
  - intros i obj Hi Ho.
    rewrite lookup_app_r in Ho by (by rewrite apply_fold_length).
    apply list_elem_of_lookup_2, elem_of_new_objects in Ho as (n' & e' & _ & Hnone & ->).
    simpl. rewrite new_object_name. intros [= ->]. by destruct (Hnone j _ Hj).
Qed.

(** ** The merger on concrete datasets *)

Example merge_list_example :
  merge_into_pets (JList ex_list) ex_patch
  = Ok (JList [JDict ex_older; JInt 3;
               JDict [(K_name, JStr ex_name); (W_skill, JInt 9); (K_grade, JStr G_top)];
               JDict [(K_name, JStr G_high); (K_route, JStr G_normal)]]).
Proof. vm_compute. reflexivity. Qed.

Lemma merge_keeps_shape_witness :
  dataset_ok (JList ex_list)
  ∧ ∃ out upd, merge_into_pets (JList ex_list) ex_patch = Ok out
      ∧ out = JList (upd ++ [JDict [(K_name, JStr G_high); (K_route, JStr G_normal)]])
      ∧ length upd = 3%nat.
Proof.
  assert (dataset_ok (JList ex_list)) as Hok by reflexivity.
  split; [exact Hok|].
  destruct (merge_keeps_shape (JList ex_list) ex_patch Hok) as (out & Hm & _ & Hl).
  destruct (Hl ex_list eq_refl) as (upd & Hout & Hlen & _).
  exists out, upd. split; [exact Hm|]. split; [exact Hout|exact Hlen].
Defined.

Lemma merge_value_error_iff_witness :
  dataset_ok (JList ex_list)
  ∧ (∃ out, merge_into_pets (JList ex_list) ex_patch = Ok out)
  ∧ merge_into_pets (JInt 3) ex_patch = Raise ValueError.
Proof.
  assert (dataset_ok (JList ex_list)) as Hok by reflexivity.
  split; [exact Hok|]. split.
  - exact (proj2 (merge_value_error_iff (JList ex_list) ex_patch) Hok).
  - apply (proj1 (merge_value_error_iff (JInt 3) ex_patch)).
    split; intros ?; discriminate.
Defined.

Lemma merge_frame_witness :
  dataset_ok (JList ex_list)
  ∧ ∃ l' t', merge_into_pets (JList ex_list) ex_patch = Ok (JList l')
      ∧ l' !! 2%nat = Some (JDict t') ∧ dget W_skill t' = Some (JInt 9).
Proof.
  assert (dataset_ok (JList ex_list)) as Hok by reflexivity.
  split; [exact Hok|].
  destruct (merge_frame (JList ex_list) ex_patch Hok) as (out & Hm & _ & Hl & _).
  destruct (Hl ex_list 2%nat ex_newer eq_refl eq_refl) as (l' & t' & -> & Hj & Hf).
  exists l', t'. split; [exact Hm|]. split; [exact Hj|].
  rewrite Hf; [reflexivity|]. apply (bool_decide_unpack _). vm_compute. exact I.
Defined.

Lemma duplicates_last_wins_witness :
  forallb hashable_name ex_list = true ∧ NoDup (keys ex_patch)
  ∧ dget ex_name ex_patch = Some ex_record
  ∧ ex_list !! 2%nat = Some (JDict ex_newer)
  ∧ name_of (JDict ex_newer) = Some ex_name
  ∧ ∃ l' t', merge_into_pets (JList ex_list) ex_patch = Ok (JList l')
      ∧ l' !! 2%nat = Some (JDict t')
      ∧ dget K_grade t' = Some (JStr G_top)
      ∧ dget W_skill t' = Some (JInt 9)
      ∧ l' !! 0%nat = Some (JDict ex_older).
Proof.
  assert (forallb hashable_name ex_list = true) as H1 by reflexivity.
  assert (NoDup (keys ex_patch)) as H2.
  { apply (bool_decide_unpack _). vm_compute. exact I. }
  assert (dget ex_name ex_patch = Some ex_record) as H3 by reflexivity.
  assert (ex_list !! 2%nat = Some (JDict ex_newer)) as H4 by reflexivity.
  assert (name_of (JDict ex_newer) = Some ex_name) as H5 by reflexivity.
  assert (∀ j' o, (2 < j')%nat → ex_list !! j' = Some o → name_of o ≠ Some ex_name) as H6.
  { intros [|[|[|j']]] o Hlt; [lia..|]. simpl. discriminate. }
  split; [exact H1|]. split; [exact H2|]. split; [exact H3|].
  split; [exact H4|]. split; [exact H5|].
  destruct (duplicates_last_wins ex_list ex_patch ex_name ex_record 2%nat ex_newer
              H1 H2 H3 H4 H5 H6)
    as (l' & t' & Hm & Hj & _ & Hval & _ & _ & Hframe & Hother & _).
  exists l', t'. split; [exact Hm|]. split; [exact Hj|]. split; [|split].
  - apply Hval; [|reflexivity|intros ev; discriminate].
    apply (bool_decide_unpack _). vm_compute. exact I.
  - rewrite Hframe; [reflexivity|].
    apply (bool_decide_unpack _). vm_compute. exact I.
  - apply Hother; [lia|reflexivity|reflexivity].
Defined.

(** * Further properties *)

(** ** The order on strings *)

Lemma str_ltb_irrefl a : str_ltb a a = false.
Proof.
  induction a as [|x a IH]; simpl; [done|].
  by rewrite (proj2 (N.ltb_ge x x)) by lia.
Qed.

Lemma str_ltb_asym a : ∀ b, str_ltb a b = true → str_ltb b a = false.
Proof.
  induction a as [|x a IH]; intros [|y b]; simpl; try done.
  destruct (x <? y) eqn:E1, (y <? x) eqn:E2; try done.
  - apply N.ltb_lt in E1, E2. lia.
  - apply IH.
Qed.

Lemma str_ltb_trans a : ∀ b c,
  str_ltb a b = true → str_ltb b c = true → str_ltb a c = true.
Proof.
  induction a as [|x a IH]; intros [|y b] [|z c]; simpl; try done.
  destruct (x <? y) eqn:E1, (y <? x) eqn:E2, (y <? z) eqn:E3, (z <? y) eqn:E4,
    (x <? z) eqn:E5, (z <? x) eqn:E6; try done; intros H1 H2;
    repeat match goal with
      | H : (_ <? _) = true |- _ => apply N.ltb_lt in H
      | H : (_ <? _) = false |- _ => apply N.ltb_ge in H
      end; try lia.
  by eapply IH.
Qed.

Lemma str_ltb_connex a : ∀ b,
  str_ltb a b = false → str_ltb b a = false → a = b.
Proof.
  induction a as [|x a IH]; intros [|y b]; simpl; try done.
  destruct (x <? y) eqn:E1, (y <? x) eqn:E2; try done.
  apply N.ltb_ge in E1, E2. intros H1 H2. f_equal; [lia|by apply IH].
Qed.

#[global] Instance str_le_total : Total str_le.
Proof.
  intros a b. unfold str_le. destruct (str_ltb b a) eqn:E; [right|by left].
  by apply str_ltb_asym.
Qed.

#[global] Instance str_le_antisymm : AntiSymm (=) str_le.
Proof. intros a b Hab Hba. by apply str_ltb_connex. Qed.

#[global] Instance str_le_trans : Transitive str_le.
Proof.
  intros a b c Hab Hbc. unfold str_le in *.
  destruct (str_ltb c a) eqn:E; [|done].
  destruct (str_ltb a b) eqn:E1.
  - by rewrite (str_ltb_trans c a b E E1) in Hbc.
  - rewrite (str_ltb_connex a b E1 Hab) in E. congruence.
Qed.

Lemma sorted_strict l :
  NoDup l → StronglySorted str_lt (sorted l) ∧ sorted l ≡ₚ l.
Proof.
  intros Hnd. split; [|apply merge_sort_Permutation].
  assert (NoDup (sorted l)) as Hnd'.
  { unfold sorted. by rewrite merge_sort_Permutation. }
  pose proof (StronglySorted_merge_sort str_le l) as Hs. fold (sorted l) in Hs.
  induction Hs as [|x l' Hs IH Hx]; [constructor|].
  apply NoDup_cons in Hnd' as [Hnotin Hnd']. constructor; [by apply IH|].
  apply Forall_forall. intros y Hy. rewrite Forall_forall in Hx.
  unfold str_lt. destruct (str_ltb x y) eqn:E; [done|].
  assert (x = y) as -> by (apply str_ltb_connex; [done|by apply Hx]). done.
Qed.

Lemma Forall2_omap {A B} (P : A → B → Prop) (f : A → option B) l :
  (∀ x, x ∈ l → ∃ y, f x = Some y ∧ P x y) → Forall2 P l (omap f l).
Proof.
  induction l as [|x l IH]; intros H; simpl; [constructor|].
  destruct (H x) as (y & -> & Hy); [left|]. constructor; [done|].
  apply IH. intros z Hz. apply H. by right.
Qed.

(** The default list of well-shaped records: the records themselves,
    in the order of their sorted names. *)
Lemma extracted_list_records out :
  (∀ n r, dget n out = Some r → record_ok n r) →
  Forall2 (fun n r => dget n out = Some r) (sorted (keys out)) (extracted_list out).
Proof.
  intros Hrec. unfold extracted_list. apply Forall2_omap. intros n Hn.
  assert (n ∈ keys out) as Hin.
  { unfold sorted in Hn. by rewrite merge_sort_Permutation in Hn. }
  apply dget_Some_keys in Hin as [r Hr]. exists r. rewrite Hr. simpl.
  split; [|done]. f_equal. apply dset_same. by destruct (Hrec n r Hr).
Qed.

(** X1. Without [--merge] the result is the list of the extractor's
    records in strictly ascending order of their names (code point by
    code point): one object per record, each the record as the
    extractor built it, which already carries its key as [name]. *)
Theorem default_output_sorted decimal text out :
  parse_chat decimal text = Ok out →
  ∃ recs,
    main_result decimal text None = Ok (JList (map JDict recs))
    ∧ Forall2 (fun n r => dget n out = Some r ∧ dget K_name r = Some (JStr n))
              (sorted (keys out)) recs
    ∧ sorted (keys out) ≡ₚ keys out
    ∧ StronglySorted str_lt (sorted (keys out))
    ∧ length recs = length out.
Proof.
  intros Hp. destruct (parse_chat_records decimal text out Hp) as (_ & Hnd & Hrec).
  exists (extracted_list out). unfold main_result. rewrite Hp.
  pose proof (extracted_list_records out Hrec) as HF.
  destruct (sorted_strict (keys out) Hnd) as [Hs Hperm].
  assert (length (extracted_list out) = length out) as Hlen.
  { rewrite <- (Forall2_length _ _ _ HF), Hperm. unfold keys. by rewrite length_map. }
  split_and!; try done.
  eapply Forall2_impl; [exact HF|]. intros n r Hr. split; [done|].
  by destruct (Hrec n r Hr).
Qed.

Lemma default_output_sorted_witness :
  parse_chat ascii_decimal ex_log_two
  = Ok [(ex_name, [(K_name, JStr ex_name); (K_grade, JStr G_normal)]);
        (ex_name_b, [(K_name, JStr ex_name_b); (K_grade, JStr G_high)])]
  ∧ ∃ recs,
      main_result ascii_decimal ex_log_two None = Ok (JList (map JDict recs))
      ∧ length recs = 2%nat.
Proof.
  assert (parse_chat ascii_decimal ex_log_two
          = Ok [(ex_name, [(K_name, JStr ex_name); (K_grade, JStr G_normal)]);
                (ex_name_b, [(K_name, JStr ex_name_b); (K_grade, JStr G_high)])]) as H
    by (vm_compute; reflexivity).
  split; [exact H|].
  destruct (default_output_sorted ascii_decimal ex_log_two _ H)
    as (recs & Hm & _ & _ & _ & Hlen).
  exists recs. split; [exact Hm|exact Hlen].
Defined.

(** ** The history of a record *)

Section HistoryFacts.
Variable decimal : char -> option N.

Lemma header_digit_other n raw :
  header_name decimal raw ≠ Some n → header_digit decimal n raw = None.
Proof.
  unfold header_name, header_digit.
  destruct (re_search (HEADER_RE decimal) (strip raw)); [|done].
  intros H. by rewrite bool_decide_eq_false_2.
Qed.

Lemma header_digit_own n raw m :
  re_search (HEADER_RE decimal) (strip raw) = Some m →
  header_name decimal raw = Some n → header_digit decimal n raw = group 2 m.
Proof.
  unfold header_name, header_digit. intros -> H. by rewrite bool_decide_eq_true_2.
Qed.

Lemma history_reach ls st :
  parse_lines decimal (State [] None) ls = Ok st →
  state_ok st
  ∧ current st = owner decimal ls
  ∧ (∀ n, n ∈ keys (pets st) ↔ n ∈ omap (header_name decimal) ls)
  ∧ ∀ n r, dget n (pets st) = Some r → history_ok decimal ls n r.
Proof.
  pose (I := fun (ls : list str) (st : state) =>
    current st = owner decimal ls
    ∧ (∀ n, n ∈ keys (pets st) ↔ n ∈ omap (header_name decimal) ls)
    ∧ ∀ n r, dget n (pets st) = Some r → history_ok decimal ls n r).
  cut (parse_lines decimal (State [] None) ls = Ok st →
       state_ok st ∧ current st = owner decimal ls ∧ I ls st).
  { intros H Hp. destruct (H Hp) as (? & ? & _ & ? & ?). done. }
  apply parse_lines_inv; clear ls st.
  { split_and!; try done. }
  intros ls st raw st' Hok (Hcur & Hkeys & Hhist) Hs.
  destruct Hs as [m name Hh Hn ->|Hn Hskip ->|c r0 r' Hn Hne Hc Hr0 _ Hf ->].
  - (* header *)
    split_and!; simpl.
    + by rewrite owner_snoc, Hn.
    + intros n. rewrite omap_app. simpl. rewrite Hn. simpl.
      rewrite keys_dset, elem_of_app, list_elem_of_singleton, <- Hkeys.
      case_decide; set_solver.
    + intros n r. rewrite dget_dset. case_decide as Hd.
      * subst n. intros [= <-].
        unfold history_ok. rewrite dget_set_grade, !dget_set_grade_ne by done.
        rewrite lines_of_snoc, Hn, last_omap_snoc, (header_digit_own _ _ _ Hh Hn).
        destruct (dget name (pets st)) as [r0|] eqn:E; simpl.
        -- destruct (Hhist name r0 E) as (H1 & H2 & H3 & H4 & H5 & H6).
           rewrite H2. split_and!; try done.
           by destruct (group 2 m).
        -- assert (name ∉ omap (header_name decimal) ls) as Hun.
           { rewrite <- Hkeys. by apply dget_None. }
           rewrite (lines_of_unseen decimal _ _ Hun), (header_digit_unseen decimal _ _ Hun).
           split_and!; try done. by destruct (group 2 m).
      * intros Hr. destruct (Hhist n r Hr) as (H1 & H2 & H3 & H4 & H5 & H6).
        unfold history_ok. rewrite lines_of_snoc, Hn, last_omap_snoc.
        rewrite header_digit_other by (rewrite Hn; congruence). done.
  - (* skipped *)
    split_and!.
    + by rewrite owner_snoc, Hn.
    + intros n. rewrite omap_app. simpl. rewrite Hn. simpl. rewrite app_nil_r.
      apply Hkeys.
    + intros n r Hr. destruct (Hhist n r Hr) as (H1 & H2 & H3 & H4 & H5 & H6).
      unfold history_ok. rewrite lines_of_snoc, Hn, last_omap_snoc.
      rewrite header_digit_other by (rewrite Hn; congruence).
      case_bool_decide as Ho; [|done].
      destruct Hskip as [Hnil|Hnone]; [|congruence].
      destruct (writes_blank decimal raw Hnil) as (E1 & E2 & E3 & E4).
      rewrite !last_omap_snoc, E1, E2, E3, E4. done.
  - (* a field line *)
    split_and!; simpl.
    + by rewrite owner_snoc, Hn, <- Hcur.
    + intros n. rewrite omap_app. simpl. rewrite Hn. simpl. rewrite app_nil_r.
      rewrite keys_dset_in; [apply Hkeys|]. apply dget_Some_keys. eauto.
    + intros n r. rewrite dget_dset. case_decide as Hd.
      * subst n. intros [= <-].
        destruct (Hhist c r0 Hr0) as (H1 & H2 & H3 & H4 & H5 & H6).
        destruct (field_step_writes decimal raw r0 r' Hf) as (F1 & F2 & F3 & F4 & F5 & F6).
        unfold history_ok. rewrite lines_of_snoc, Hn, last_omap_snoc.
        rewrite header_digit_other by (rewrite Hn; congruence).
        rewrite bool_decide_eq_true_2 by congruence.
        rewrite !last_omap_snoc, F1, F2, F3, F4, F5, F6, <- H3, <- H4, <- H5, <- H6.
        done.
      * intros Hr. destruct (Hhist n r Hr) as (H1 & H2 & H3 & H4 & H5 & H6).
        unfold history_ok. rewrite lines_of_snoc, Hn, last_omap_snoc.
        rewrite header_digit_other by (rewrite Hn; congruence).
        rewrite bool_decide_eq_false_2 by congruence. done.
Qed.

(** X2. The grade of a record is decided by the headers of its name
    alone: it is the tier of the digit of the last header of that name
    that carries a digit, and the normal tier when no header of that
    name carries one.  Headers of other names and all other lines have
    no effect on it. *)
Theorem grade_of_last_digit_header text out :
  parse_chat decimal text = Ok out →
  ∀ n r, dget n out = Some r →
    dget K_grade r
    = Some (JStr (grade_digit_to_str
                    (last (omap (header_digit decimal n) (splitlines text))))).
Proof.
  intros (st & Hp & ->)%parse_chat_lines n r Hr.
  destruct (history_reach _ _ Hp) as (_ & _ & _ & H).
  by destruct (H n r Hr) as (_ & ? & _).
Qed.

(** X3. For the base stats and the growth stats the last line wins:
    [s0] of a record is the four integers of the last base-stat line
    read while the record was current, [sg] the four decimal texts of
    the last growth-stat line read then, and each is absent when there
    was no such line. *)
Theorem stats_last_line_wins text out :
  parse_chat decimal text = Ok out →
  ∀ n r, dget n out = Some r →
    dget K_s0 r
    = last (omap (s0_write decimal) (lines_of decimal n (splitlines text)))
    ∧ dget K_sg r
      = last (omap (sg_write decimal) (lines_of decimal n (splitlines text))).
Proof.
  intros (st & Hp & ->)%parse_chat_lines n r Hr.
  destruct (history_reach _ _ Hp) as (_ & _ & _ & H).
  by destruct (H n r Hr) as (_ & _ & ? & ? & _).
Qed.

(** X4. For the attribute block and the route the last line wins too:
    [attr] of a record is the block of the last skill/attribute line
    read while it was current that has a positive value, [route] the
    stripped route text of the last such line that has a route part,
    and each is absent when there was no such line. The block is read
    off the tokens of the line's segment. *)
Theorem skill_last_line_wins text out :
  parse_chat decimal text = Ok out →
  ∀ n r, dget n out = Some r →
    dget K_attr r
    = last (omap (attr_write decimal) (lines_of decimal n (splitlines text)))
    ∧ dget K_route r
      = last (omap (route_write decimal) (lines_of decimal n (splitlines text))).
Proof.
  intros (st & Hp & ->)%parse_chat_lines n r Hr.
  destruct (history_reach _ _ Hp) as (_ & _ & _ & H).
  by destruct (H n r Hr) as (_ & _ & _ & _ & ? & ?).
Qed.

End HistoryFacts.

Lemma grade_of_last_digit_header_witness :
  parse_chat ascii_decimal ex_log_full = Ok ex_out_full
  ∧ ∀ n r, dget n ex_out_full = Some r →
      dget K_grade r
      = Some (JStr (grade_digit_to_str
                      (last (omap (header_digit ascii_decimal n)
                                  (splitlines ex_log_full))))).
Proof.
  assert (parse_chat ascii_decimal ex_log_full = Ok ex_out_full) as H
    by (vm_compute; reflexivity).
  split; [exact H|].
  exact (grade_of_last_digit_header ascii_decimal ex_log_full ex_out_full H).
Defined.

Lemma stats_last_line_wins_witness :
  parse_chat ascii_decimal ex_log_full = Ok ex_out_full
  ∧ ∀ n r, dget n ex_out_full = Some r →
      dget K_s0 r
      = last (omap (s0_write ascii_decimal)
                   (lines_of ascii_decimal n (splitlines ex_log_full)))
      ∧ dget K_sg r
        = last (omap (sg_write ascii_decimal)
                     (lines_of ascii_decimal n (splitlines ex_log_full))).
Proof.
  assert (parse_chat ascii_decimal ex_log_full = Ok ex_out_full) as H
    by (vm_compute; reflexivity).
  split; [exact H|].
  exact (stats_last_line_wins ascii_decimal ex_log_full ex_out_full H).
Defined.

Lemma skill_last_line_wins_witness :
  parse_chat ascii_decimal ex_log_full = Ok ex_out_full
  ∧ ∀ n r, dget n ex_out_full = Some r →
      dget K_attr r
      = last (omap (attr_write ascii_decimal)
                   (lines_of ascii_decimal n (splitlines ex_log_full)))
      ∧ dget K_route r
        = last (omap (route_write ascii_decimal)
                     (lines_of ascii_decimal n (splitlines ex_log_full))).
Proof.
  assert (parse_chat ascii_decimal ex_log_full = Ok ex_out_full) as H
    by (vm_compute; reflexivity).
  split; [exact H|].
  exact (skill_last_line_wins ascii_decimal ex_log_full ex_out_full H).
Defined.

(** ** The attribute block, token by token *)

Section AttrFacts.
Variable decimal : char -> option N.

(** X5. The attribute block is read token by token: every element
    starts at 0, a well-formed token sets the value of its element, and
    for an element named by several tokens the last one wins; the block
    has the four keys earth, water, fire, wind. Reading the block fails
    exactly when a well-formed token of the segment has more digits
    than [int()] accepts, and then with a [ValueError]. *)
Theorem attr_block_last_token_wins seg :
  match attr_block decimal seg with
  | Ok attr =>
      keys attr = element_keys
      ∧ Forall (fun el =>
                  dget el attr
                  = Some (JInt (default 0%Z
                                  (last (omap (token_value decimal el) (split seg))))))
               element_keys
      ∧ ∀ tok, tok ∈ split seg → token_fits decimal tok = true
  | Raise e =>
      e = ValueError
      ∧ ∃ tok m ds, tok ∈ split seg
                    ∧ re_match (ATTR_TOKEN_RE decimal) (strip tok) = Some m
                    ∧ group 2 m = Some ds
                    ∧ (max_str_digits < N.of_nat (length ds))%N
  end.
Proof.
  rewrite attr_block_spec.
  destruct (forallb (token_fits decimal) (split seg)) eqn:E.
  - split_and!; [done|by repeat constructor|].
    intros tok Hin. rewrite forallb_forall in E. apply E.
    by apply list_elem_of_In.
  - split; [done|].
    assert (¬ Forall (fun tok => token_fits decimal tok = true) (split seg)) as Hn.
    { intros H. rewrite Forall_forall in H.
      assert (forallb (token_fits decimal) (split seg) = true); [|congruence].
      apply forallb_forall. intros x Hx. apply H. by apply list_elem_of_In. }
    apply not_Forall_Exists in Hn; [|intros x; apply _].
    apply Exists_exists in Hn as (tok & Hin & Hf). simpl in Hf.
    apply not_true_is_false in Hf. unfold token_fits, group_fits in Hf.
    destruct (re_match (ATTR_TOKEN_RE decimal) (strip tok)) as [m|] eqn:Em; [|done].
    destruct (group 2 m) as [ds|] eqn:Eg; [|done].
    exists tok, m, ds. split_and!; [done..|].
    unfold fits in Hf. by apply N.leb_gt in Hf.
Qed.

(** X6. A token of the attribute segment holds no white space, so it
    gives a value only when its digits directly follow the letter of
    the element: a letter and a number separated by white space are two
    tokens and give nothing, although the token pattern allows white
    space between them. *)
Theorem token_digits_adjacent seg tok el z :
  tok ∈ split seg → token_value decimal el tok = Some z →
  ∃ ds rest, tok = el ++ ds ++ rest ∧ el ∈ element_keys
             ∧ ds ≠ [] ∧ int_digits decimal ds = Some z.
Proof.
  intros Hin. unfold token_value.
  pose proof (split_acc_tokens seg [] (Forall_nil_2 _)) as Htoks.
  rewrite Forall_forall in Htoks. destruct (Htoks tok Hin) as [Hne Hsp].
  rewrite (strip_no_space tok Hsp).
  destruct (re_match (ATTR_TOKEN_RE decimal) tok) as [m|] eqn:Em; [|done].
  apply run_sound in Em as (t & rest & cs' & -> & M & [= ->]).
  simpl in M.
  destruct M as (t1 & t2 & c1 & -> & (c0 & (c & -> & Hc & ->) & ->) & M).
  destruct M as (ws & t3 & c2 & -> & (Hws & ->) & M).
  destruct M as (ds & t4 & c3 & -> & (c4 & M & ->) & (-> & ->)).
  assert (ds ≠ [] ∧ c4 = [(1%nat, [c])]) as [Hds ->].
  { by destruct M as (? & ? & ? & -> & (? & -> & _ & ->) & _ & ->). }
  clear M. unfold int_group. remember (int_digits decimal) as digits eqn:Ed.
  simpl. case_bool_decide as Hel; [|done]. subst el.
  destruct (digits ds) as [z'|] eqn:Ez; [|done]. intros [= ->].
  assert (ws = []) as ->.
  { destruct ws as [|w ws]; [done|]. apply Forall_cons in Hws as [Hw _].
    rewrite Forall_forall in Hsp. rewrite (Hsp w) in Hw; [done|]. set_solver. }
  exists ds, rest. split_and!.
  - simpl. by rewrite app_nil_r.
  - by apply (is_element_keys decimal).
  - done.
  - done.
Qed.

End AttrFacts.

Example attr_block_example :
  attr_block ascii_decimal ex_seg
  = Ok [(K_earth, JInt 2); (K_water, JInt 0); (K_fire, JInt 7); (K_wind, JInt 0)].
Proof. vm_compute. reflexivity. Qed.

Lemma token_digits_adjacent_witness :
  ex_token ∈ split ex_seg
  ∧ token_value ascii_decimal K_earth ex_token = Some 2%Z
  ∧ ∃ ds rest, ex_token = K_earth ++ ds ++ rest ∧ K_earth ∈ element_keys
               ∧ ds ≠ [] ∧ int_digits ascii_decimal ds = Some 2%Z.
Proof.
  assert (ex_token ∈ split ex_seg) as H1.
  { apply (bool_decide_unpack _). vm_compute. exact I. }
  assert (token_value ascii_decimal K_earth ex_token = Some 2%Z) as H2
    by (vm_compute; reflexivity).
  split; [exact H1|]. split; [exact H2|].
  exact (token_digits_adjacent ascii_decimal ex_seg ex_token K_earth 2 H1 H2).
Defined.

(** ** The merger's rule for a field *)

(** X7. The loop over the five recognised keys, as a rule for each
    field of the target: a field the patch record lacks keeps its
    value; a patch value that is not a mapping, or one that meets no
    mapping in the target, replaces the field; a mapping that meets a
    mapping updates it. Every other field keeps its value. *)
Theorem merge_fields_rule e t k :
  dget k (merge_fields e t)
  = if bool_decide (k ∈ FIELDS) then merged_value (dget k e) (dget k t)
    else dget k t.
Proof. apply merge_fold_lookup, NoDup_FIELDS. Qed.

(** X8. The update of a sub-mapping is shallow and keeps what the patch
    does not name: when a recognised field is a mapping in the patch
    record and in the target, the merged field is a mapping in which
    each key of the patch's mapping has the patch's value and every
    other key has the value the target had. *)
Theorem submapping_shallow_update e t k ev tv :
  k ∈ FIELDS → dget k e = Some (JDict ev) → dget k t = Some (JDict tv) →
  NoDup (keys ev) →
  ∃ rv, dget k (merge_fields e t) = Some (JDict rv)
        ∧ ∀ sk, dget sk rv
                = match dget sk ev with Some x => Some x | None => dget sk tv end.
Proof.
  intros Hk He Ht Hnd. exists (dupdate tv ev). split.
  - unfold merge_fields.
    rewrite (merge_fold_lookup e FIELDS NoDup_FIELDS), bool_decide_eq_true_2 by done.
    by rewrite He, Ht.
  - intros sk. by apply dget_dupdate.
Qed.

Lemma submapping_shallow_update_witness :
  K_s0 ∈ FIELDS
  ∧ dget K_s0 [(K_s0, JDict [(K_atk, JInt 3)])] = Some (JDict [(K_atk, JInt 3)])
  ∧ dget K_s0 ex_stat_record = Some (JDict [(K_hp, JInt 9); (K_atk, JInt 1)])
  ∧ NoDup (keys [(K_atk, JInt 3)])
  ∧ ∃ rv, dget K_s0 (merge_fields [(K_s0, JDict [(K_atk, JInt 3)])] ex_stat_record)
          = Some (JDict rv)
          ∧ dget K_atk rv = Some (JInt 3) ∧ dget K_hp rv = Some (JInt 9).
Proof.
  assert (K_s0 ∈ FIELDS) as H1.
  { apply (bool_decide_unpack _). vm_compute. exact I. }
  assert (dget K_s0 [(K_s0, JDict [(K_atk, JInt 3)])] = Some (JDict [(K_atk, JInt 3)]))
    as H2 by reflexivity.
  assert (dget K_s0 ex_stat_record = Some (JDict [(K_hp, JInt 9); (K_atk, JInt 1)]))
    as H3 by reflexivity.
  assert (NoDup (keys [(K_atk, JInt 3)])) as H4.
  { apply (bool_decide_unpack _). vm_compute. exact I. }
  split; [exact H1|]. split; [exact H2|]. split; [exact H3|]. split; [exact H4|].
  destruct (submapping_shallow_update _ _ _ _ _ H1 H2 H3 H4) as (rv & Hrv & Hsub).
  exists rv. split; [exact Hrv|].
  split; [exact (Hsub K_atk)|exact (Hsub K_hp)].
Defined.

(** ** The merger: a mapping, entry by entry *)

Lemma merge_dict_entry_self d n e :
  dget n (merge_dict_entry d (n, e)) = Some (merged_entry e (dget n d)).
Proof.
  unfold merge_dict_entry, merged_entry. simpl.
  destruct (dget n d) as [[| | | | | |t]|] eqn:E; simpl;
    rewrite ?dget_dset_eq; done.
Qed.

Lemma merge_dict_lookup patch : ∀ d n,
  NoDup (keys patch) →
  dget n (foldl merge_dict_entry d patch)
  = match dget n patch with
    | Some e => Some (merged_entry e (dget n d))
    | None => dget n d
    end.
Proof.
  induction patch as [|[n0 e0] patch IH]; intros d n Hnd; simpl; [done|].
  simpl in Hnd. apply NoDup_cons in Hnd as [Hn0 Hnd].
  rewrite IH by done. destruct (str_eqb n n0) eqn:E.
  - apply str_eqb_eq in E. subst n0.
    apply dget_None in Hn0. rewrite Hn0. apply merge_dict_entry_self.
  - assert (n ≠ n0) as Hne by (intros ->; by rewrite str_eqb_refl in E).
    by rewrite (merge_dict_entry_other d (n0, e0) n Hne).
Qed.

(** X9. The merge into a mapping, entry by entry. A name that is not in
    the patch keeps its value. Under a name of the patch, a mapping is
    merged field by field, an absent name or a stored [null] becomes a
    new mapping that holds the patch record's recognised fields (and no
    [name]), and any other value is kept. *)
Theorem merge_mapping_entries d patch :
  NoDup (keys patch) →
  ∃ d', merge_into_pets (JDict d) patch = Ok (JDict d')
    ∧ (∀ n, dget n d'
            = match dget n patch with
              | Some e => Some (merged_entry e (dget n d))
              | None => dget n d
              end)
    ∧ (∀ e k, dget k (merge_fields e [])
              = if bool_decide (k ∈ FIELDS) then dget k e else None).
Proof.
  intros Hnd. simpl. eexists. split; [done|]. split.
  - intros n. by apply merge_dict_lookup.
  - intros e k. unfold merge_fields.
    rewrite (merge_fold_lookup e FIELDS NoDup_FIELDS). simpl.
    case_bool_decide; [|done]. unfold merged_value.
    by destruct (dget k e) as [[| | | | | |?]|].
Qed.

Lemma merge_mapping_entries_witness :
  NoDup (keys ex_patch)
  ∧ ∃ d', merge_into_pets (JDict [(G_high, JNull)]) ex_patch = Ok (JDict d')
      ∧ dget G_high d' = Some (JDict [(K_route, JStr G_normal)])
      ∧ dget ex_name d' = Some (JDict [(K_grade, JStr G_top)]).
Proof.
  assert (NoDup (keys ex_patch)) as H1.
  { apply (bool_decide_unpack _). vm_compute. exact I. }
  split; [exact H1|].
  destruct (merge_mapping_entries [(G_high, JNull)] ex_patch H1) as (d' & Hm & Hd & _).
  exists d'. split; [exact Hm|].
  split; [exact (Hd G_high)|exact (Hd ex_name)].
Defined.

(** ** The merger: a sequence, object by object *)

Lemma apply_fold_untouched look patch : ∀ cur j obj,
  indexed look cur → cur !! j = Some obj →
  (∀ n, name_of obj = Some n → n ∉ keys patch) →
  foldl (apply_entry look) cur patch !! j = Some obj.
Proof.
  induction patch as [|[n0 e0] patch IH]; intros cur j obj Hidx Hj Hn; simpl; [done|].
  apply IH.
  - by apply indexed_apply_entry.
  - rewrite apply_entry_lookup. simpl. rewrite decide_False; [done|].
    intros Hl. destruct (Hidx _ _ Hl) as (obj0 & Hj0 & Hname).
    rewrite Hj in Hj0. injection Hj0 as <-.
    apply (Hn n0 Hname). left.
  - intros n Hname. specialize (Hn n Hname). simpl in Hn.
    by apply not_elem_of_cons in Hn as [_ ?].
Qed.

(** X10. In a sequence, an object the patch does not name is left
    exactly as it is, at its index: an element that is not a mapping, a
    mapping without a [name], one whose [name] is not a string, and one
    whose [name] is no key of the patch. *)
Theorem unnamed_objects_untouched l patch j obj :
  forallb hashable_name l = true → l !! j = Some obj →
  (∀ n, name_of obj = Some n → dget n patch = None) →
  ∃ l', merge_into_pets (JList l) patch = Ok (JList l') ∧ l' !! j = Some obj.
Proof.
  intros Hh Hj Hn. rewrite (merge_list_spec l patch Hh). eexists. split; [done|].
  apply lookup_app_l_Some, apply_fold_untouched; [apply indexed_last_named|done|].
  intros n Hname. apply dget_None. by apply Hn.
Qed.

Lemma unnamed_objects_untouched_witness :
  forallb hashable_name [JInt 3; ex_stranger] = true
  ∧ [JInt 3; ex_stranger] !! 1%nat = Some ex_stranger
  ∧ (∀ n, name_of ex_stranger = Some n → dget n ex_patch = None)
  ∧ ∃ l', merge_into_pets (JList [JInt 3; ex_stranger]) ex_patch = Ok (JList l')
          ∧ l' !! 1%nat = Some ex_stranger.
Proof.
  assert (forallb hashable_name [JInt 3; ex_stranger] = true) as H1 by reflexivity.
  assert ([JInt 3; ex_stranger] !! 1%nat = Some ex_stranger) as H2 by reflexivity.
  assert (∀ n, name_of ex_stranger = Some n → dget n ex_patch = None) as H3.
  { intros n Hn. injection Hn as <-. reflexivity. }
  split; [exact H1|]. split; [exact H2|]. split; [exact H3|].
  exact (unnamed_objects_untouched _ ex_patch 1%nat ex_stranger H1 H2 H3).
Defined.

(** X11. The merger fails in two ways only. Besides the invalid-dataset
    [ValueError], it raises a [TypeError] exactly when the dataset is a
    sequence one of whose objects has a list or a mapping as its
    [name]; it raises nothing else. *)
Theorem merge_type_error_iff data patch :
  (merge_into_pets data patch = Raise TypeError
   ↔ ∃ l, data = JList l ∧ forallb hashable_name l = false)
  ∧ merge_into_pets data patch ≠ Raise AttributeError.
Proof.
  destruct data as [| | | | |l|d]; try (split; [split; [done|by intros (? & ? & _)]|done]).
  destruct (forallb hashable_name l) eqn:Hh.
  - rewrite (merge_list_spec l patch Hh). split; [|done].
    split; [done|]. intros (? & [= <-] & ?). congruence.
  - rewrite (merge_list_unhashable l patch Hh). split; [|done].
    split; [eauto|done].
Qed.

(** ** Merging the same patch again *)

Lemma elem_keys {V} k (v : V) d : (k, v) ∈ d → k ∈ keys d.
Proof.
  induction d as [|[k' v'] d IH]; simpl; [by intros ?%elem_of_nil|].
  intros [[= -> ->]|Hin]%elem_of_cons; [left|right; by apply IH].
Qed.

Lemma elem_dget {V} k (v : V) d : NoDup (keys d) → (k, v) ∈ d → dget k d = Some v.
Proof.
  induction d as [|[k' v'] d IH]; simpl; [by intros _ ?%elem_of_nil|].
  intros [Hk Hnd]%NoDup_cons [[= -> ->]|Hin]%elem_of_cons.
  - by rewrite str_eqb_refl.
  - rewrite str_eqb_ne; [by apply IH|]. intros ->. apply Hk. by eapply elem_keys.
Qed.

Lemma dupdate_self {V} (e : list (str * V)) : NoDup (keys e) → dupdate e e = e.
Proof. intros Hnd. apply dupdate_noop. intros k v. by apply elem_dget. Qed.

Lemma sub_keys_distinct e k ev :
  distinct_sub_keys e = true → dget k e = Some (JDict ev) → NoDup (keys ev).
Proof.
  unfold distinct_sub_keys. rewrite forallb_forall. intros H Hk.
  apply dget_Some_elem, list_elem_of_In, H in Hk. simpl in Hk.
  by apply bool_decide_eq_true in Hk.
Qed.

(** A field that is the result of a merge of [e] is not changed by
    merging [e] again. *)
Lemma merge_field_stable e x k tv :
  distinct_sub_keys e = true →
  dget k x = merged_value (dget k e) tv → merge_field e x k = x.
Proof.
  intros Hsub Hx. unfold merge_field. unfold merged_value in Hx.
  destruct (dget k e) as [v|] eqn:Ev; [|done].
  destruct v as [| | | | | |ev]; try (by apply dset_same).
  pose proof (sub_keys_distinct e k ev Hsub Ev) as Hnd.
  destruct tv as [[| | | | | |d]|]; rewrite Hx;
    rewrite ?dupdate_idem, ?dupdate_self by done; by apply dset_same.
Qed.

Lemma merge_fold_stable e x ks :
  distinct_sub_keys e = true →
  (∀ k, k ∈ ks → ∃ tv, dget k x = merged_value (dget k e) tv) →
  foldl (merge_field e) x ks = x.
Proof.
  intros Hsub. induction ks as [|k ks IH]; intros H; simpl; [done|].
  destruct (H k) as (tv & Hk); [left|].
  rewrite (merge_field_stable e x k tv Hsub Hk). apply IH.
  intros k' Hin. apply H. by right.
Qed.

Lemma merge_fields_idem e t :
  distinct_sub_keys e = true → merge_fields e (merge_fields e t) = merge_fields e t.
Proof.
  intros Hsub. apply merge_fold_stable; [done|]. intros k Hk. exists (dget k t).
  unfold merge_fields. rewrite (merge_fold_lookup e FIELDS NoDup_FIELDS).
  by rewrite bool_decide_eq_true_2.
Qed.

Lemma copy_fold_lookup e ks : NoDup ks → ∀ o k,
  dget k (foldl (copy_field e) o ks)
  = if bool_decide (k ∈ ks)
    then match dget k e with Some v => Some v | None => dget k o end
    else dget k o.
Proof.
  induction 1 as [|key ks Hkey Hnd IH]; intros o k; simpl; [done|].
  rewrite IH. destruct (decide (k = key)) as [->|Hne].
  - rewrite (bool_decide_eq_false_2 _ Hkey), bool_decide_eq_true_2 by left.
    unfold copy_field. destruct (dget key e); [apply dget_dset_eq|done].
  - rewrite copy_field_frame by done.
    case_bool_decide as Hin.
    + rewrite bool_decide_eq_true_2; [done|by right].
    + rewrite bool_decide_eq_false_2; [done|]. by intros [?|?]%elem_of_cons.
Qed.

(** A new object of a sequence: [name], and the recognised fields of
    the patch record. *)
Lemma new_object_lookup n e k :
  dget k (new_object n e)
  = if bool_decide (k ∈ FIELDS) then dget k e
    else if bool_decide (k = K_name) then Some (JStr n) else None.
Proof.
  unfold new_object. rewrite (copy_fold_lookup e FIELDS NoDup_FIELDS).
  case_bool_decide as Hk.
  - destruct (dget k e); [done|]. simpl. rewrite str_eqb_ne; [done|].
    intros ->. by apply K_name_not_field.
  - simpl. unfold str_eqb. by case_bool_decide.
Qed.

Lemma merge_fields_new_object n e :
  distinct_sub_keys e = true → merge_fields e (new_object n e) = new_object n e.
Proof.
  intros Hsub. apply merge_fold_stable; [done|]. intros k Hk. exists None.
  rewrite new_object_lookup, bool_decide_eq_true_2 by done.
  unfold merged_value. by destruct (dget k e) as [[| | | | | |?]|].
Qed.

Lemma foldl_fixed {A B} (f : A → B → A) a l :
  (∀ x, x ∈ l → f a x = a) → foldl f a l = a.
Proof.
  induction l as [|x l IH]; intros H; simpl; [done|].
  rewrite H by left. apply IH. intros y Hy. apply H. by right.
Qed.

Lemma patch_ok_elem patch n e :
  patch_ok patch → (n, e) ∈ patch →
  dget n patch = Some e ∧ distinct_sub_keys e = true.
Proof.
  intros [Hnd Hsub] Hin. split; [by apply elem_dget|].
  rewrite forallb_forall in Hsub. by apply (Hsub (n, e)), list_elem_of_In.
Qed.

Lemma merge_dict_twice d patch :
  patch_ok patch →
  foldl merge_dict_entry (foldl merge_dict_entry d patch) patch
  = foldl merge_dict_entry d patch.
Proof.
  intros Hok. apply foldl_fixed. intros [n e] Hin.
  destruct (patch_ok_elem patch n e Hok Hin) as [He Hsub].
  pose proof (merge_dict_lookup patch d n (proj1 Hok)) as Hl. rewrite He in Hl.
  revert Hl. generalize (foldl merge_dict_entry d patch). intros d' Hl.
  unfold merge_dict_entry. simpl. rewrite Hl. unfold merged_entry in *.
  destruct (dget n d) as [[| | | | | |t]|]; simpl; try done;
    rewrite ?merge_fields_idem by done; by apply dset_same.
Qed.

(** What the second loop keeps of every object. *)
Lemma apply_fold_inv {A} (f : json → A) look patch :
  (∀ e t, f (JDict (merge_fields e t)) = f (JDict t)) →
  ∀ cur j, f <$> (foldl (apply_entry look) cur patch !! j) = f <$> (cur !! j).
Proof.
  intros Hf. induction patch as [|ne patch IH]; intros cur j; simpl; [done|].
  rewrite IH, apply_entry_lookup. case_decide; [|done].
  destruct (cur !! j) as [[| | | | | |t]|]; simpl; try done. by rewrite Hf.
Qed.

Lemma hashable_merge_fields e t :
  hashable_name (JDict (merge_fields e t)) = hashable_name (JDict t).
Proof. simpl. by rewrite merge_fields_frame by apply K_name_not_field. Qed.

Lemma hashable_new_objects look patch :
  forallb hashable_name (new_objects look patch) = true.
Proof.
  apply forallb_forall. intros o Hin%list_elem_of_In. unfold new_objects in Hin.
  apply list_elem_of_omap in Hin as ([n e] & _ & Ho). simpl in Ho.
  destruct (look n); [done|]. injection Ho as <-. simpl. by rewrite new_object_name.
Qed.

Lemma hashable_merged look patch l :
  forallb hashable_name l = true →
  forallb hashable_name (foldl (apply_entry look) l patch ++ new_objects look patch)
  = true.
Proof.
  intros Hh. rewrite forallb_app, hashable_new_objects, andb_true_r.
  apply forallb_forall. intros o (j & Hj)%list_elem_of_In%list_elem_of_lookup_1.
  pose proof (apply_fold_inv hashable_name look patch hashable_merge_fields l j) as Hinv.
  rewrite Hj in Hinv. simpl in Hinv.
  destruct (l !! j) as [obj|] eqn:E; [|done]. simpl in Hinv. injection Hinv as ->.
  rewrite forallb_forall in Hh. apply Hh, list_elem_of_In. by eapply list_elem_of_lookup_2.
Qed.

(** After the merge, the object the table gives for a patch name is one
    the patch record has been merged into, or the new object of that
    name. *)
Lemma merged_target l patch n e :
  patch_ok patch → (n, e) ∈ patch →
  ∃ j t,
    last_named n (foldl (apply_entry (fun n => last_named n l)) l patch
                  ++ new_objects (fun n => last_named n l) patch) = Some j
    ∧ (foldl (apply_entry (fun n => last_named n l)) l patch
       ++ new_objects (fun n => last_named n l) patch) !! j = Some (JDict t)
    ∧ merge_fields e t = t.
Proof.
  intros Hok Hin. destruct (patch_ok_elem patch n e Hok Hin) as [He Hsub].
  pose proof (apply_fold_length (fun n => last_named n l) patch l) as Hlen.
  pose proof (apply_fold_inv name_of (fun n => last_named n l) patch
                name_of_merge_fields l) as Hname.
  destruct (last_named n l) as [j|] eqn:El.
  - destruct (last_named_Some _ _ _ El) as [(obj & Hj & Hn) Hlast].
    destruct (name_of_Some _ _ Hn) as (t & -> & _).
    assert (foldl (apply_entry (fun n => last_named n l)) l patch !! j
            = Some (JDict (merge_fields e t))) as Hu.
    { rewrite (apply_fold_lookup _ patch l j _ (indexed_last_named l) (proj1 Hok) Hj).
      f_equal. unfold merged_at. rewrite Hn, El, decide_True by done. by rewrite He. }
    exists j, (merge_fields e t). split_and!.
    + apply (last_named_intro n _ j (JDict (merge_fields e t))).
      * by apply lookup_app_l_Some.
      * by rewrite name_of_merge_fields.
      * intros j' o Hlt Ho Hno. apply lookup_app_Some in Ho as [Ho|[Hge Ho]].
        -- specialize (Hname j'). rewrite Ho in Hname. simpl in Hname.
           destruct (l !! j') as [o'|] eqn:E'; [|done]. simpl in Hname.
           injection Hname as Hname. apply (Hlast j' o' Hlt E'). congruence.
        -- apply list_elem_of_lookup_2, elem_of_new_objects in Ho
             as (n' & e' & _ & Hnone & ->).
           simpl in Hno. rewrite new_object_name in Hno. injection Hno as ->.
           by apply (Hnone j _ Hj).
    + by apply lookup_app_l_Some.
    + by apply merge_fields_idem.
  - assert (JDict (new_object n e) ∈ new_objects (fun n => last_named n l) patch)
      as Hnew.
    { apply elem_of_new_objects. exists n, e. split_and!; [done| |done].
      by apply last_named_None. }
    destruct (last_named n (_ ++ _)) as [j|] eqn:El'.
    + destruct (last_named_Some _ _ _ El') as [(o & Ho & Hno) _].
      pose proof Ho as Ho2. apply lookup_app_Some in Ho2 as [Ho2|[Hge Ho2]].
      * exfalso. specialize (Hname j). rewrite Ho2 in Hname. simpl in Hname.
        destruct (l !! j) as [o'|] eqn:E'; [|done]. simpl in Hname.
        injection Hname as Hname.
        apply (proj1 (last_named_None n l) El j o' E'). congruence.
      * apply list_elem_of_lookup_2, elem_of_new_objects in Ho2
          as (n' & e' & Hin' & _ & ->).
        simpl in Hno. rewrite new_object_name in Hno. injection Hno as ->.
        destruct (patch_ok_elem patch n e' Hok Hin') as [He' _].
        rewrite He in He'. injection He' as <-.
        exists j, (new_object n e).
        split_and!; [done|done|by apply merge_fields_new_object].
    + exfalso. apply list_elem_of_lookup_1 in Hnew as (i & Hi).
      apply (proj1 (last_named_None n _) El'
               (length (foldl (apply_entry (fun n => last_named n l)) l patch) + i)%nat
               (JDict (new_object n e))).
      * apply lookup_app_Some. right. split; [lia|].
        by rewrite Nat.add_comm, Nat.add_sub.
      * simpl. by rewrite new_object_name.
Qed.

Lemma new_objects_nil look patch :
  (∀ n e, (n, e) ∈ patch → is_Some (look n)) → new_objects look patch = [].
Proof.
  intros H. apply omap_none. intros [n e] Hin. simpl.
  by destruct (H n e Hin) as [j ->].
Qed.

Lemma merge_list_twice l patch :
  patch_ok patch → forallb hashable_name l = true →
  ∃ l', merge_into_pets (JList l) patch = Ok (JList l')
        ∧ merge_into_pets (JList l') patch = Ok (JList l').
Proof.
  intros Hok Hh. rewrite (merge_list_spec l patch Hh). eexists. split; [done|].
  rewrite (merge_list_spec _ patch (hashable_merged _ patch l Hh)). do 2 f_equal.
  pose proof (merged_target l patch) as Ht. revert Ht.
  generalize (foldl (apply_entry (fun n => last_named n l)) l patch
              ++ new_objects (fun n => last_named n l) patch).
  intros l' Ht. rewrite new_objects_nil, app_nil_r.
  - apply foldl_fixed. intros [n e] Hin.
    destruct (Ht n e Hok Hin) as (j & t & Hl & Hj & Hst).
    unfold apply_entry. simpl. rewrite Hl, Hj, Hst. by apply list_insert_id.
  - intros n e Hin. destruct (Ht n e Hok Hin) as (j & t & Hl & _). eauto.
Qed.

(** X12. Merging is idempotent: once a patch has been merged into a
    dataset, merging the same patch into the result changes nothing, in
    either shape. In a sequence no object is appended a second time. *)
Theorem merge_idempotent data patch :
  dataset_ok data → patch_ok patch →
  ∃ out, merge_into_pets data patch = Ok out
         ∧ merge_into_pets out patch = Ok out.
Proof.
  destruct data as [| | | | |l|d]; try done; intros Hd Hok.
  - destruct (merge_list_twice l patch Hok Hd) as (l' & H1 & H2). eauto.
  - simpl. eexists. split; [done|]. simpl. by rewrite merge_dict_twice.
Qed.

Lemma merge_idempotent_witness :
  dataset_ok (JList [JDict ex_stat_record]) ∧ patch_ok ex_stat_patch
  ∧ ∃ out, merge_into_pets (JList [JDict ex_stat_record]) ex_stat_patch = Ok out
           ∧ merge_into_pets out ex_stat_patch = Ok out.
Proof.
  assert (dataset_ok (JList [JDict ex_stat_record])) as H1 by reflexivity.
  assert (patch_ok ex_stat_patch) as H2.
  { split; [|vm_compute; reflexivity].
    apply (bool_decide_unpack _). vm_compute. exact I. }
  split; [exact H1|]. split; [exact H2|].
  exact (merge_idempotent _ _ H1 H2).
Defined.

(** ** The dataset after the merge shows the patch *)

Lemma stable_holds e t :
  distinct_sub_keys e = true → merge_fields e t = t → holds_patch e t.
Proof.
  intros Hsub Hst k v Hk Hv.
  assert (dget k t = merged_value (Some v) (dget k t)) as H.
  { rewrite <- Hst at 1. unfold merge_fields.
    rewrite (merge_fold_lookup e FIELDS NoDup_FIELDS), bool_decide_eq_true_2 by done.
    by rewrite Hv. }
  destruct v as [| | | | | |ev]; try exact H. simpl in H.
  pose proof (sub_keys_distinct e k ev Hsub Hv) as Hnd.
  destruct (dget k t) as [[| | | | | |tv]|]; try done.
  injection H as H. exists tv. split; [done|]. intros sk x Hx.
  rewrite H, dget_dupdate by done. by rewrite Hx.
Qed.

(** X16. After the merge the dataset shows the patch: for every record
    of the patch, the mapping stored under its name (in a mapping) or
    the last object of its name (in a sequence) holds every recognised
    value of the record, a mapping key by key. The one exception is a
    mapping-shaped dataset that held a value other than a mapping or
    [null] under the name: that value is still there. *)
Theorem merge_reflects_patch data patch n e :
  dataset_ok data → patch_ok patch → (n, e) ∈ patch →
  ∃ out, merge_into_pets data patch = Ok out
    ∧ (∀ d', out = JDict d' →
         (∃ t', dget n d' = Some (JDict t') ∧ holds_patch e t')
         ∨ (∃ d v, data = JDict d ∧ dget n d = Some v ∧ dget n d' = Some v
                   ∧ v ≠ JNull ∧ ∀ t, v ≠ JDict t))
    ∧ (∀ l', out = JList l' →
         ∃ j t', l' !! j = Some (JDict t') ∧ name_of (JDict t') = Some n
                 ∧ (∀ j' o, (j < j')%nat → l' !! j' = Some o → name_of o ≠ Some n)
                 ∧ holds_patch e t').
Proof.
  intros Hd Hok Hin. destruct (patch_ok_elem patch n e Hok Hin) as [He Hsub].
  destruct data as [| | | | |l|d]; try done.
  - rewrite (merge_list_spec l patch Hd). eexists. split; [done|]. split; [done|].
    intros ? [= <-].
    destruct (merged_target l patch n e Hok Hin) as (j & t' & Hl & Hj & Hst).
    destruct (last_named_Some _ _ _ Hl) as [(o & Ho & Hn) Hlast].
    rewrite Hj in Ho. injection Ho as <-.
    exists j, t'. split_and!; [done|done|done|by apply stable_holds].
  - simpl. eexists. split; [done|]. split; [|done]. intros ? [= <-].
    pose proof (merge_dict_lookup patch d n (proj1 Hok)) as Hlook.
    rewrite He in Hlook. unfold merged_entry in Hlook.
    destruct (dget n d) as [v|] eqn:Ed.
    + destruct v as [| | | | | |t];
        try (right; eexists _, _; split_and!; [done|done|done|done|done]);
        left; eexists; (split; [done|]);
        apply stable_holds; try done; by apply merge_fields_idem.
    + left. eexists. split; [done|].
      apply stable_holds; [done|]. by apply merge_fields_idem.
Qed.

Lemma merge_reflects_patch_witness :
  dataset_ok (JList [JDict ex_stat_record]) ∧ patch_ok ex_stat_patch
  ∧ (ex_name, [(K_name, JStr ex_name); (K_s0, JDict [(K_atk, JInt 3)])]) ∈ ex_stat_patch
  ∧ ∃ l' j t', merge_into_pets (JList [JDict ex_stat_record]) ex_stat_patch
               = Ok (JList l')
      ∧ l' !! j = Some (JDict t')
      ∧ holds_patch [(K_name, JStr ex_name); (K_s0, JDict [(K_atk, JInt 3)])] t'.
Proof.
  assert (dataset_ok (JList [JDict ex_stat_record])) as H1 by reflexivity.
  assert (patch_ok ex_stat_patch) as H2.
  { split; [|vm_compute; reflexivity].
    apply (bool_decide_unpack _). vm_compute. exact I. }
  assert ((ex_name, [(K_name, JStr ex_name); (K_s0, JDict [(K_atk, JInt 3)])])
          ∈ ex_stat_patch) as H3 by left.
  split; [exact H1|]. split; [exact H2|]. split; [exact H3|].
  destruct (merge_reflects_patch _ _ _ _ H1 H2 H3) as (out & Hm & _ & Hl).
  destruct out as [| | | | |l'|d']; try discriminate Hm.
  destruct (Hl l' eq_refl) as (j & t' & Hj & _ & _ & Hh).
  exists l', j, t'. split; [exact Hm|]. split; [exact Hj|exact Hh].
Defined.

(** ** The extractor's output as a patch *)

Lemma merged_value_None pv : merged_value pv None = pv.
Proof. by destruct pv as [[| | | | | |?]|]. Qed.

Lemma record_sub_keys n r : record_ok n r → distinct_sub_keys r = true.
Proof.
  intros Hr. unfold distinct_sub_keys. apply forallb_forall.
  intros [k v] Hin%list_elem_of_In. simpl.
  destruct v as [| | | | | |ev]; try done. apply bool_decide_eq_true.
  pose proof (elem_dget k _ r (rec_nodup n r Hr) Hin) as Hk.
  assert (k ∈ record_keys) as Hkeys.
  { apply (rec_keys n r Hr). by eapply elem_keys. }
  unfold record_keys in Hkeys.
  repeat (apply elem_of_cons in Hkeys as [->|Hkeys]).
  - rewrite (rec_name n r Hr) in Hk. done.
  - by destruct (rec_grade n r Hr _ Hk) as [?|[?|?]].
  - destruct (rec_s0 n r Hr _ Hk) as (d & [= ->] & -> & _).
    apply (bool_decide_unpack _). by vm_compute.
  - destruct (rec_sg n r Hr _ Hk) as (d & [= ->] & -> & _).
    apply (bool_decide_unpack _). by vm_compute.
  - destruct (rec_attr n r Hr _ Hk) as (d & [= ->] & -> & _).
    apply (bool_decide_unpack _). by vm_compute.
  - by destruct (rec_route n r Hr _ Hk) as (? & ?).
  - by apply elem_of_nil in Hkeys.
Qed.

Section MainFacts.
Variable decimal : char -> option N.

Lemma parse_chat_patch text parsed :
  parse_chat decimal text = Ok parsed →
  patch_ok parsed ∧ ∀ n r, dget n parsed = Some r → record_ok n r.
Proof.
  intros (_ & Hnd & Hrec)%parse_chat_records.
  split; [|done]. split; [done|].
  apply forallb_forall. intros [n r] Hin%list_elem_of_In. simpl.
  apply (record_sub_keys n), Hrec. by apply elem_dget.
Qed.

(** X13. With [--merge], when the extractor returns its records, the
    command line reaches a result on every dataset the merger accepts,
    and a second run with the same log on that result gives the same
    result: the records the extractor returns are a patch with one
    record for each name and distinct keys in every mapping. *)
Theorem main_merge_rerun text data parsed :
  parse_chat decimal text = Ok parsed →
  dataset_ok data →
  patch_ok parsed
  ∧ ∃ out, main_result decimal text (Some data) = Ok out
           ∧ main_result decimal text (Some out) = Ok out.
Proof.
  intros Hp Hd. destruct (parse_chat_patch text parsed Hp) as (Hok & _).
  split; [done|]. unfold main_result. rewrite Hp. simpl.
  destruct data as [| | | | |l|d]; try done.
  - destruct (merge_list_twice l parsed Hok Hd) as (l' & H1 & H2). eauto.
  - simpl. eexists. split; [done|]. simpl. by rewrite merge_dict_twice.
Qed.

Lemma merge_list_fresh patch : ∀ acc,
  foldl (merge_list_entry ∅) acc patch
  = acc ++ map (fun ne => JDict (new_object ne.1 ne.2)) patch.
Proof.
  induction patch as [|ne patch IH]; intros acc; simpl; [by rewrite app_nil_r|].
  rewrite IH. unfold merge_list_entry. rewrite lookup_empty. simpl.
  by rewrite <- (assoc _).
Qed.

Lemma merge_dict_fresh patch : ∀ acc,
  NoDup (keys patch) → (∀ n, n ∈ keys patch → n ∉ keys acc) →
  foldl merge_dict_entry acc patch
  = acc ++ map (fun ne => (ne.1, JDict (merge_fields ne.2 []))) patch.
Proof.
  induction patch as [|[n e] patch IH]; intros acc Hnd Hfresh; simpl;
    [by rewrite app_nil_r|].
  simpl in Hnd. apply NoDup_cons in Hnd as [Hn Hnd].
  assert (dget n acc = None) as Hacc.
  { apply dget_None, Hfresh. left. }
  assert (merge_dict_entry acc (n, e) = acc ++ [(n, JDict (merge_fields e []))]) as ->.
  { unfold merge_dict_entry. simpl. rewrite Hacc. simpl.
    by rewrite dset_dset, dset_absent. }
  rewrite IH, <- (assoc _); [done|done|].
  intros n' Hin. unfold keys. rewrite map_app. simpl.
  rewrite not_elem_of_app, list_elem_of_singleton. split.
  - apply Hfresh. by right.
  - intros ->. done.
Qed.

(** X14. Merging into an empty dataset copies the records the
    extractor returns, in the order in which their names first appear
    as header names in the log (the default output is sorted by name
    instead). Into an empty sequence, each record becomes an object with
    the same fields; into an empty mapping, each name is bound to the
    fields of its record other than [name]. *)
Theorem merge_into_empty text parsed :
  parse_chat decimal text = Ok parsed →
  keys parsed = first_seen (header_names decimal text)
  ∧ main_result decimal text (Some (JList []))
    = Ok (JList (map (fun nr => JDict (new_object nr.1 nr.2)) parsed))
  ∧ main_result decimal text (Some (JDict []))
    = Ok (JDict (map (fun nr => (nr.1, JDict (merge_fields nr.2 []))) parsed))
  ∧ ∀ n r, dget n parsed = Some r →
      (∀ k, dget k (new_object n r) = dget k r)
      ∧ (∀ k, dget k (merge_fields r [])
              = if bool_decide (k = K_name) then None else dget k r).
Proof.
  intros Hp. destruct (parse_chat_patch text parsed Hp) as ([Hnd _] & Hrec).
  split; [by apply parse_chat_keys|].
  unfold main_result. rewrite Hp. simpl. split_and!.
  - by rewrite merge_list_fresh.
  - rewrite merge_dict_fresh; [done|done|]. intros n _. apply not_elem_of_nil.
  - intros n r Hr. pose proof (Hrec n r Hr) as Hok.
    assert (∀ k, k ∉ FIELDS → k ≠ K_name → dget k r = None) as Hother.
    { intros k Hk Hne. apply dget_None. intros Hin%(rec_keys n r Hok).
      unfold record_keys in Hin. apply elem_of_cons in Hin as [->|Hin]; done. }
    split; intros k.
    + rewrite new_object_lookup. case_bool_decide as Hk; [done|].
      case_bool_decide as Hn; [subst k; by rewrite (rec_name n r Hok)|].
      by rewrite Hother.
    + unfold merge_fields. rewrite (merge_fold_lookup r FIELDS NoDup_FIELDS).
      simpl. rewrite merged_value_None.
      case_bool_decide as Hk; case_bool_decide as Hn; try done.
      * subst k. by destruct K_name_not_field.
      * by rewrite Hother.
Qed.

End MainFacts.

Lemma main_merge_rerun_witness :
  parse_chat ascii_decimal ex_log = Ok ex_out
  ∧ dataset_ok (JList ex_list)
  ∧ patch_ok ex_out
  ∧ ∃ out, main_result ascii_decimal ex_log (Some (JList ex_list)) = Ok out
           ∧ main_result ascii_decimal ex_log (Some out) = Ok out.
Proof.
  assert (parse_chat ascii_decimal ex_log = Ok ex_out) as H1
    by (vm_compute; reflexivity).
  assert (dataset_ok (JList ex_list)) as H2 by reflexivity.
  split; [exact H1|]. split; [exact H2|].
  exact (main_merge_rerun ascii_decimal ex_log (JList ex_list) ex_out H1 H2).
Defined.

Lemma merge_into_empty_witness :
  parse_chat ascii_decimal ex_log_two = Ok ex_out_two
  ∧ keys ex_out_two = first_seen (header_names ascii_decimal ex_log_two)
  ∧ main_result ascii_decimal ex_log_two (Some (JList []))
    = Ok (JList (map (fun nr => JDict (new_object nr.1 nr.2)) ex_out_two))
  ∧ main_result ascii_decimal ex_log_two (Some (JDict []))
    = Ok (JDict (map (fun nr => (nr.1, JDict (merge_fields nr.2 []))) ex_out_two))
  ∧ ∀ n r, dget n ex_out_two = Some r →
      (∀ k, dget k (new_object n r) = dget k r)
      ∧ (∀ k, dget k (merge_fields r [])
              = if bool_decide (k = K_name) then None else dget k r).
Proof.
  assert (parse_chat ascii_decimal ex_log_two = Ok ex_out_two) as H1
    by (vm_compute; reflexivity).
  split; [exact H1|].
  exact (merge_into_empty ascii_decimal ex_log_two ex_out_two H1).
Defined.

(** ** Where a header is recognised *)

Section HeaderFacts.
Variable decimal : char -> option N.

(** X15. A line is a header only if, once stripped, it begins with the
    bracketed name: the pattern is anchored at the start of the line,
    so a line with any text before the opening bracket is never a
    header. The name is the stripped text between the opening bracket
    and the first closing bracket, which is not empty. *)
Theorem header_starts_line raw n :
  header_name decimal raw = Some n →
  ∃ nm rest, strip raw = c_lbr :: (nm ++ c_rbr :: rest)
             ∧ nm ≠ [] ∧ (c_rbr ∉ nm) ∧ n = strip nm.
Proof.
  unfold header_name.
  destruct (re_search (HEADER_RE decimal) (strip raw)) as [m|] eqn:Es; [|done].
  apply search_sound_at in Es as (pre & t & post & Hs & M).
  pose (rest := seq [ Many is_space;
                      Opt (seq [ Lit c_lbr; Grp 2 (Cls (is_digit decimal));
                                 lits W_grade; Lit c_rbr; Many is_space ]);
                      lits W_result ]).
  assert (mentions 1 rest = false) as Hrest by reflexivity.
  change (HEADER_RE decimal)
    with (Cat Bol (Cat (Lit c_lbr)
            (Cat (Grp 1 (plus (fun c => negb (c =? c_rbr))))
               (Cat (Lit c_rbr) rest)))) in M.
  clearbody rest. simpl in M.
  destruct M as (t0 & t1 & c0 & -> & (-> & Hpos & ->) & M).
  destruct M as (t2 & t3 & c1 & -> & (-> & ->) & M).
  destruct M as (nm & t4 & c2 & -> & (c3 & Hnm & ->) & M).
  destruct M as (t5 & t6 & c4 & -> & (-> & ->) & M).
  destruct Hnm as (n1 & n2 & c5 & -> & (x & -> & Hx & ->) & (Hn2 & ->)).
  rewrite (matches_keeps 1 rest _ _ _ _ Hrest M). simpl. intros [= <-].
  destruct pre; [|simpl in Hpos; lia]. simpl in Hs.
  exists ([x] ++ n2), (t6 ++ post). split_and!; [|done| |done].
  - rewrite Hs. simpl. by rewrite <- !(assoc _).
  - assert (Forall (fun c => negb (c =? c_rbr) = true) ([x] ++ n2)) as Hall
      by (by constructor).
    rewrite Forall_forall in Hall. intros Hin%Hall.
    by rewrite N.eqb_refl in Hin.
Qed.

End HeaderFacts.

Lemma header_starts_line_witness :
  header_name ascii_decimal ex_header = Some ex_name
  ∧ ∃ nm rest, strip ex_header = c_lbr :: (nm ++ c_rbr :: rest)
               ∧ nm ≠ [] ∧ (c_rbr ∉ nm) ∧ ex_name = strip nm.
Proof.
  assert (header_name ascii_decimal ex_header = Some ex_name) as H1
    by (vm_compute; reflexivity).
  split; [exact H1|].
  exact (header_starts_line ascii_decimal ex_header ex_name H1).
Defined.

(** ** The command line on a concrete log *)

Example main_default_example :
  main_result ascii_decimal ex_log_two None
  = Ok (JList [JDict [(K_name, JStr ex_name_b); (K_grade, JStr G_high)];
               JDict [(K_name, JStr ex_name); (K_grade, JStr G_normal)]]).
Proof. vm_compute. reflexivity. Qed.

Example main_merge_example :
  main_result ascii_decimal ex_log_two (Some (JList []))
  = Ok (JList [JDict [(K_name, JStr ex_name); (K_grade, JStr G_normal)];
               JDict [(K_name, JStr ex_name_b); (K_grade, JStr G_high)]])
  ∧ main_result ascii_decimal ex_log_two (Some (JDict []))
    = Ok (JDict [(ex_name, JDict [(K_grade, JStr G_normal)]);
                 (ex_name_b, JDict [(K_grade, JStr G_high)])]).
Proof. split; vm_compute; reflexivity. Qed.
